(** * web-rag-engine: ingestion worker, submission API and query pipeline

    A shallow embedding of [worker/app/ingest.py], [worker/app/tasks.py],
    [api/app/main.py] and [api/app/query.py], and the properties of the
    design document checked against it.

    Python [str] values are sequences of Unicode code points; effects
    (job table, vector collection, temp directory, task queue, calls to
    external services) are threaded through an explicit world. *)

From Stdlib Require Import String Ascii NArith ZArith List Bool Lia.
From Stdlib Require Import DecimalString DecimalNat.
From stdpp Require Import gmap list fin_maps.
Import ListNotations.

Open Scope N_scope.
Open Scope nat_scope.
Open Scope list_scope.

(** ** Python strings *)

(** A [str] is a list of code points. *)
Abbreviation str := (list N).

(** A literal of the source, written as a Rocq string. *)
Definition py (s : string) : str :=
  List.map N_of_ascii (list_ascii_of_string s).

Definition str_eqb (a b : str) : bool := bool_decide (a = b).

Definition nonempty (s : str) : bool :=
  match s with [] => false | _ :: _ => true end.

(** [str.isspace] on one code point (the Unicode whitespace set of
    CPython's [Py_UNICODE_ISSPACE]). *)
Definition is_space (c : N) : bool :=
  (((9 <=? c) && (c <=? 13)) || ((28 <=? c) && (c <=? 32))
   || (c =? 133) || (c =? 160) || (c =? 5760)
   || ((8192 <=? c) && (c <=? 8202))
   || (c =? 8232) || (c =? 8233) || (c =? 8239) || (c =? 8287)
   || (c =? 12288))%N.

(** The line boundaries of [str.splitlines]. *)
Definition is_linebreak (c : N) : bool :=
  (((10 <=? c) && (c <=? 13)) || ((28 <=? c) && (c <=? 30))
   || (c =? 133) || (c =? 8232) || (c =? 8233))%N.

Definition nl : str := [10%N].
Definition dsp : str := [32%N; 32%N].

(** [str.splitlines()]: a carriage return followed by a line feed is one
    boundary; no empty last line after a final boundary. *)
Fixpoint splitlines (s : str) : list str :=
  match s with
  | [] => []
  | c :: s' =>
      if is_linebreak c then
        [] :: match s' with
              | c2 :: s'' =>
                  if ((c =? 13) && (c2 =? 10))%N then splitlines s''
                  else splitlines s'
              | [] => []
              end
      else
        match splitlines s' with
        | l :: ls => (c :: l) :: ls
        | [] => [[c]]
        end
  end.

(** [str.strip()] with no argument. *)
Fixpoint lstrip (s : str) : str :=
  match s with
  | [] => []
  | c :: s' => if is_space c then lstrip s' else s
  end.

Definition rstrip (s : str) : str := rev (lstrip (rev s)).

Definition strip (s : str) : str := rstrip (lstrip s).

(** [s.startswith(p)] *)
Fixpoint starts_with (p s : str) : bool :=
  match p, s with
  | [], _ => true
  | _ :: _, [] => false
  | a :: p', b :: s' => (a =? b)%N && starts_with p' s'
  end.

(** [p in s] *)
Fixpoint occurs (p s : str) : bool :=
  starts_with p s || match s with [] => false | _ :: s' => occurs p s' end.

(** [s.split(sep)] for a non-empty [sep]: cut at the leftmost occurrences,
    which do not overlap. [skip] counts the code points of a matched
    separator that are still to be passed over. *)
Fixpoint split_go (sep : str) (skip : nat) (s : str) : list str :=
  match s with
  | [] => [[]]
  | c :: s' =>
      match skip with
      | S k => split_go sep k s'
      | O =>
          if starts_with sep s then [] :: split_go sep (length sep - 1) s'
          else
            match split_go sep 0 s' with
            | p :: ps => (c :: p) :: ps
            | [] => [[c]]
            end
      end
  end.

Definition split_on (sep s : str) : list str := split_go sep 0 s.

(** [sep.join(l)] *)
Fixpoint join (sep : str) (l : list str) : str :=
  match l with
  | [] => []
  | x :: rest =>
      match rest with
      | [] => x
      | _ :: _ => x ++ sep ++ join sep rest
      end
  end.

(** ** ingest.py: whitespace clean-up

    [[
    lines = (line.strip() for line in text.splitlines())
    chunks = (phrase.strip() for line in lines for phrase in line.split("  "))
    cleaned_text = '\n'.join(chunk for chunk in chunks if chunk)
    ]]
    The same three lines close [fetch_and_clean_text] and
    [fetch_and_clean_file]. *)

Definition clean_lines (text : str) : list str :=
  List.map strip (splitlines text).

Definition clean_phrases (lines : list str) : list str :=
  flat_map (fun line => List.map strip (split_on dsp line)) lines.

Definition clean_whitespace (text : str) : str :=
  join nl (List.filter nonempty (clean_phrases (clean_lines text))).

(** A string is [trimmed] when neither end is whitespace, and [tidy] when it
    is what the clean-up keeps as one line of its output: non-empty, free of
    line boundaries and of double spaces, trimmed. *)
Definition trimmed (s : str) : Prop := lstrip s = s /\ lstrip (rev s) = rev s.

Definition no_linebreak (s : str) : Prop :=
  Forall (fun c => is_linebreak c = false) s.

Definition tidy (s : str) : Prop :=
  s <> [] /\ no_linebreak s /\ trimmed s /\ occurs dsp s = false.

(** ** Exceptions and results *)

Inductive exn : Type :=
| ValueError (msg : str)
| IndexError
| FileExistsError
| FileNotFoundError (path : str)
| PackageNotFoundError (path : str)
| HTTPException (status_code : nat) (detail : str)
| ExternalError (what : str).
(** [ExternalError] stands for whatever a collaborator raises: httpx,
    PyPDF2, python-docx, chromadb, groq, the broker. *)

Inductive result (A : Type) : Type :=
| Ok (a : A)
| Raise (e : exn).
Arguments Ok {A} a.
Arguments Raise {A} e.

Definition rbind {A B} (r : result A) (k : A -> result B) : result B :=
  match r with
  | Ok a => k a
  | Raise e => Raise e
  end.

(** [len(s)] as a Python integer. *)
Definition len (s : str) : Z := Z.of_nat (length s).

(** ** ingest.py: [chunk_text]

    [[
    text_splitter = RecursiveCharacterTextSplitter(
        chunk_size=1000, chunk_overlap=200, length_function=len)
    chunks = text_splitter.split_text(text)
    ]] *)

Definition chunk_size : Z := 1000.
Definition chunk_overlap : Z := 200.

(** Modelled from the spec: the class [RecursiveCharacterTextSplitter] comes
    from langchain and is not among the source files. Section 4.3 of the
    design document describes it: a deterministic greedy left-to-right
    split, target size 1000, overlap 200, cutting at a paragraph boundary,
    else a line, else a word, else at any character, and an empty sequence
    for the empty input. The definitions from here to [split_text] carry
    that description out the way the library does: the text is cut at the
    first separator among a blank line, a newline, a space and the empty
    separator that occurs in it (the empty one cuts between any two
    characters), each separator staying at the head of the piece that
    follows it; pieces below the chunk size
    are merged up to the size, keeping a tail of at most the overlap for the
    next chunk; a piece that is still too long is cut again with the
    remaining separators; every chunk is joined and stripped, and a chunk
    that is empty after stripping is dropped. *)
Definition separators : list str := [[10%N; 10%N]; [10%N]; [32%N]; []].

(** [_split_text_with_regex(text, separator, keep_separator=True)]:
    [re.split] with the escaped separator in a capturing group yields the
    pieces of [text.split(separator)] interleaved with the separator. *)
Definition _split_text_with_regex (text separator : str) : list str :=
  let splits :=
    match separator with
    | [] => List.map (fun c => [c]) text
    | _ :: _ =>
        match split_on separator text with
        | first :: others => first :: List.map (fun p => separator ++ p) others
        | [] => []
        end
    end in
  List.filter nonempty splits.

(** [_join_docs(docs, separator)], with [strip_whitespace] at its default. *)
Definition _join_docs (docs : list str) (separator : str) : option str :=
  match strip (join separator docs) with
  | [] => None
  | text => Some text
  end.

(** The [while] loop of [_merge_splits]: drop pieces from the front of
    [current_doc] while more than the overlap is kept, or while the next
    piece would not fit. Indexing an empty [current_doc] raises. *)
Fixpoint pop_current (separator_len _len total : Z) (current_doc : list str)
  : result (Z * list str) :=
  if ((total >? chunk_overlap)
      || ((total + _len
           + (if (0 <? length current_doc)%nat then separator_len else 0)
           >? chunk_size)
          && (total >? 0)))%Z
  then
    match current_doc with
    | [] => Raise IndexError
    | first :: rest =>
        pop_current separator_len _len
          (total - (len first
                    + (if (1 <? length current_doc)%nat
                       then separator_len else 0)))%Z
          rest
    end
  else Ok (total, current_doc).

Record merge_state : Type := {
  docs : list str;
  current_doc : list str;
  total : Z
}.

(** One turn of the [for d in splits] loop of [_merge_splits]. *)
Definition merge_step (separator : str) (st : merge_state) (d : str)
  : result merge_state :=
  let separator_len := len separator in
  let _len := len d in
  rbind
    (if (total st + _len
         + (if (0 <? length (current_doc st))%nat then separator_len else 0)
         >? chunk_size)%Z
     then
       match current_doc st with
       | [] => Ok st
       | _ :: _ =>
           let docs' :=
             match _join_docs (current_doc st) separator with
             | Some doc => docs st ++ [doc]
             | None => docs st
             end in
           rbind (pop_current separator_len _len (total st) (current_doc st))
             (fun '(total', current') =>
                Ok {| docs := docs'; current_doc := current';
                      total := total' |})
       end
     else Ok st)
    (fun st1 =>
       let current' := current_doc st1 ++ [d] in
       Ok {| docs := docs st1;
             current_doc := current';
             total := (total st1 + _len
                       + (if (1 <? length current')%nat
                          then separator_len else 0))%Z |}).

Fixpoint merge_loop (separator : str) (st : merge_state) (splits : list str)
  : result merge_state :=
  match splits with
  | [] => Ok st
  | d :: rest =>
      rbind (merge_step separator st d)
        (fun st' => merge_loop separator st' rest)
  end.

(** [_merge_splits(splits, separator)] *)
Definition _merge_splits (splits : list str) (separator : str)
  : result (list str) :=
  rbind
    (merge_loop separator {| docs := []; current_doc := []; total := 0 |}
       splits)
    (fun st =>
       match _join_docs (current_doc st) separator with
       | Some doc => Ok (docs st ++ [doc])
       | None => Ok (docs st)
       end).

(** [if _good_splits: final_chunks.extend(self._merge_splits(...))]; the
    separator handed to the merge is empty because separators are kept. *)
Definition flush_good (final_chunks _good_splits : list str)
  : result (list str) :=
  match _good_splits with
  | [] => Ok final_chunks
  | _ :: _ =>
      rbind (_merge_splits _good_splits [])
        (fun merged => Ok (final_chunks ++ merged))
  end.

(** The [for s in splits] loop of [_split_text]; [recur] is the call with
    the remaining separators, [None] when none remain. *)
Fixpoint split_loop (recur : option (str -> result (list str)))
    (splits final_chunks _good_splits : list str) : result (list str) :=
  match splits with
  | [] => flush_good final_chunks _good_splits
  | s :: rest =>
      if (len s <? chunk_size)%Z
      then split_loop recur rest final_chunks (_good_splits ++ [s])
      else
        rbind (flush_good final_chunks _good_splits)
          (fun final1 =>
             rbind (match recur with
                    | None => Ok [s]
                    | Some again => again s
                    end)
               (fun other_info =>
                  split_loop recur rest (final1 ++ other_info) []))
  end.

(** [_split_text(text, separators)]; [last] is [separators[-1]] of the
    first call, used when no separator of the list occurs in the text. *)
Fixpoint _split_text (separators : list str) (last : str) (text : str)
  : result (list str) :=
  match separators with
  | [] => split_loop None (_split_text_with_regex text last) [] []
  | _s :: new_separators =>
      if negb (nonempty _s)
      then split_loop None (_split_text_with_regex text _s) [] []
      else if occurs _s text
      then
        split_loop
          (match new_separators with
           | [] => None
           | _ :: _ => Some (_split_text new_separators last)
           end)
          (_split_text_with_regex text _s) [] []
      else _split_text new_separators last text
  end.

Definition split_text (text : str) : result (list str) :=
  _split_text separators (List.last separators []) text.

Definition chunk_text (text : str) : result (list str) := split_text text.

(** Total length of a list of pieces, and what the splitter makes of a text
    that fits into one chunk. *)
Definition sum_len (l : list str) : Z :=
  fold_right (fun s acc => (len s + acc)%Z) 0%Z l.

Definition one_chunk (text : str) : list str :=
  match strip text with [] => [] | t => [t] end.

(** ** The world of the two services *)

Abbreviation bytes := (list N).

(** A row of the table behind [IngestionJob]. *)
Record IngestionJob : Type := {
  job_id : str;
  url : str;
  status : str
}.

(** Modelled from the spec: what a chroma collection keeps for an id
    (chromadb is not among the source files). Section 6: documents are
    stored as [{id, text, metadata}]; embeddings are internal to the
    store. *)
Record entry : Type := {
  document : str;
  metadata : gmap str str
}.

(** A message handed to the broker by [celery_app.send_task]. *)
Record task_message : Type := {
  task_name : str;
  task_args : list str
}.

(** The effects a run leaves behind, oldest first. *)
Inductive event : Type :=
| Insert (job : IngestionJob)
| Commit (job : str) (new_status : str)
| HttpGet (target : str)
| OpenFile (path : str)
| CollectionAdd (ids : list str)
| CollectionQuery (query_text : str)
| Completion (model : str) (prompt : str).

Record world : Type := {
  jobs : list IngestionJob;
  collection : gmap str entry;
  files : gmap str bytes;
  queue : list task_message;
  log : list event
}.

Definition with_jobs (f : list IngestionJob -> list IngestionJob) (w : world)
  : world :=
  {| jobs := f (jobs w); collection := collection w; files := files w;
     queue := queue w; log := log w |}.

Definition with_collection (f : gmap str entry -> gmap str entry) (w : world)
  : world :=
  {| jobs := jobs w; collection := f (collection w); files := files w;
     queue := queue w; log := log w |}.

Definition with_files (f : gmap str bytes -> gmap str bytes) (w : world)
  : world :=
  {| jobs := jobs w; collection := collection w; files := f (files w);
     queue := queue w; log := log w |}.

Definition with_queue (f : list task_message -> list task_message) (w : world)
  : world :=
  {| jobs := jobs w; collection := collection w; files := files w;
     queue := f (queue w); log := log w |}.

Definition with_log (f : list event -> list event) (w : world) : world :=
  {| jobs := jobs w; collection := collection w; files := files w;
     queue := queue w; log := f (log w) |}.

(** What the collaborators answer. The services are deterministic in it. *)
Record Env : Type := {
  (** [httpx.get(url)], [raise_for_status], then the text of the parsed
      page with script and style elements removed *)
  get_text : str -> result str;
  (** [PyPDF2.PdfReader]: [extract_text()] of every page *)
  pdf_pages : bytes -> result (list (option str));
  (** [docx.Document]: the text of every paragraph *)
  docx_paragraphs : bytes -> result (list str);
  (** a failure of [collection.add] for these ids, if any *)
  add_fault : list str -> option exn;
  (** a failure of [collection.query] for this text, if any *)
  query_fault : str -> option exn;
  (** a failure of [send_task] for this message, if any *)
  send_fault : task_message -> option exn;
  (** the ids chroma ranks nearest to a query text, best first *)
  nearest : str -> gmap str entry -> list str;
  (** the two groq completions: message content, or the error raised *)
  enrich_completion : str -> result str;
  chat_completion : str -> result str;
  (** [tempfile.gettempdir()] *)
  tempdir : str
}.

(** ** Computations: world passing with exceptions *)

Definition M (A : Type) : Type := world -> result A * world.

Definition ret {A} (a : A) : M A := fun w => (Ok a, w).

Definition raise {A} (e : exn) : M A := fun w => (Raise e, w).

Definition bind {A B} (m : M A) (k : A -> M B) : M B :=
  fun w =>
    match m w with
    | (Ok a, w') => k a w'
    | (Raise e, w') => (Raise e, w')
    end.

(** [try: body  except Exception as e: handler] *)
Definition try_except {A} (body : M A) (handler : exn -> M A) : M A :=
  fun w =>
    match body w with
    | (Ok a, w') => (Ok a, w')
    | (Raise e, w') => handler e w'
    end.

Definition lift {A} (r : result A) : M A := fun w => (r, w).

Definition emit (e : event) : M unit :=
  fun w => (Ok tt, with_log (fun l => l ++ [e]) w).

Declare Scope py_scope.
Delimit Scope py_scope with py.
Notation "x <- m ;; k" := (bind m (fun x => k))
  (at level 100, m at next level, k at level 200, right associativity)
  : py_scope.
Notation "m ;; k" := (bind m (fun _ => k))
  (at level 100, k at level 200, right associativity) : py_scope.
Open Scope py_scope.

(** [str(i)] for a non-negative integer. *)
Definition dec (n : nat) : str :=
  py (NilEmpty.string_of_uint (Nat.to_uint n)).

Definition quote : str := [34%N].

(** [str(e)]; an [HTTPException] prints as its status code and detail. *)
Definition exn_str (e : exn) : str :=
  match e with
  | ValueError msg => msg
  | IndexError => py "list index out of range"
  | FileExistsError => py "[Errno 17] No usable temporary file name found"
  | FileNotFoundError path =>
      py "[Errno 2] No such file or directory: '" ++ path ++ py "'"
  | PackageNotFoundError path => py "Package not found at '" ++ path ++ py "'"
  | HTTPException status_code detail => dec status_code ++ py ": " ++ detail
  | ExternalError what => what
  end.

(** *** The job table through the session *)

(** [db.query(IngestionJob).filter(IngestionJob.id == job_id).first()] *)
Definition first_by_id (id : str) : M (option IngestionJob) :=
  fun w => (Ok (List.find (fun j => str_eqb (job_id j) id) (jobs w)), w).

(** [db.query(IngestionJob).filter(IngestionJob.url == key).first()] *)
Definition first_by_url (key : str) : M (option IngestionJob) :=
  fun w => (Ok (List.find (fun j => str_eqb (url j) key) (jobs w)), w).

Definition set_status (id new_status : str) (j : IngestionJob)
  : IngestionJob :=
  if str_eqb (job_id j) id
  then {| job_id := job_id j; url := url j; status := new_status |}
  else j.

(** [job.status = new_status; db.commit()] *)
Definition commit_status (job : IngestionJob) (new_status : str) : M unit :=
  fun w =>
    (Ok tt,
     with_log (fun l => l ++ [Commit (job_id job) new_status])
       (with_jobs (List.map (set_status (job_id job) new_status)) w)).

(** [db.add(new_job); db.commit(); db.refresh(new_job)] *)
Definition add_job (new_job : IngestionJob) : M unit :=
  fun w =>
    (Ok tt,
     with_log (fun l => l ++ [Insert new_job])
       (with_jobs (fun js => js ++ [new_job]) w)).

(** [db.rollback()]: every write above is committed on the spot, so there
    is never anything to undo. *)
Definition rollback : M unit := ret tt.

(** ** ingest.py *)

(** [fetch_and_clean_text(url)]. Both [except] clauses print and re-raise,
    so an exception leaves the function as it was raised. *)
Definition fetch_and_clean_text (env : Env) (target : str) : M str :=
  emit (HttpGet target);;
  text <- lift (get_text env target);;
  ret (clean_whitespace text).

(** [collection.add] of chromadb, a library that is not among the source
    files, taken as the library carries the call out: a record whose id is
    not in the collection becomes a new entry; a record whose id is already
    there is left out, and the entry the collection has for that id stays
    as it is. The source calls [collection.add] in both store functions,
    never [collection.upsert]. *)
Definition add_record (c : gmap str entry) (item : str * entry)
  : gmap str entry :=
  match c !! fst item with
  | Some _ => c
  | None => <[fst item := snd item]> c
  end.

(** The items [collection.add] is given: ids, documents and metadatas
    taken position by position. *)
Definition items (ids documents : list str)
    (metadatas : list (gmap str str)) : list (str * entry) :=
  combine ids
    (List.map (fun dm => {| document := fst dm; metadata := snd dm |})
       (combine documents metadatas)).

Definition collection_add (env : Env) (ids documents : list str)
    (metadatas : list (gmap str str)) : M unit :=
  emit (CollectionAdd ids);;
  match add_fault env ids with
  | Some e => raise e
  | None =>
      fun w =>
        (Ok tt,
         with_collection
           (fun c =>
              fold_left add_record (items ids documents metadatas) c) w)
  end.

(** [f"{source}_{i}"] *)
Definition chunk_id (source : str) (i : nat) : str :=
  source ++ py "_" ++ dec i.

(** [[f"{source}_{i}" for i, _ in enumerate(chunks)]] *)
Definition chunk_ids (source : str) (chunks : list str) : list str :=
  List.map (chunk_id source) (seq 0 (length chunks)).

(** [store_chunks_in_db(url, chunks)] *)
Definition store_chunks_in_db (env : Env) (url : str) (chunks : list str)
  : M unit :=
  match chunks with
  | [] => ret tt
  | _ :: _ =>
      let ids := chunk_ids url chunks in
      let metadatas :=
        List.map (fun _ => ({[ py "source_url" := url ]} : gmap str str))
          chunks in
      collection_add env ids chunks metadatas
  end.

Definition read_file (path : str) : M bytes :=
  emit (OpenFile path);;
  fun w =>
    match files w !! path with
    | Some content => (Ok content, w)
    | None => (Raise (FileNotFoundError path), w)
    end.

(** [extract_text_from_pdf(filepath)]: a page without text adds the empty
    string. *)
Definition extract_text_from_pdf (env : Env) (filepath : str) : M str :=
  content <- read_file filepath;;
  pages <- lift (pdf_pages env content);;
  ret (concat (List.map (fun page => default [] page) pages)).

(** [docx.Document(filepath)] on a path: python-docx reports a path at
    which there is no file as a package that is not found. *)
Definition open_package (path : str) : M bytes :=
  emit (OpenFile path);;
  fun w =>
    match files w !! path with
    | Some content => (Ok content, w)
    | None => (Raise (PackageNotFoundError path), w)
    end.

(** [extract_text_from_docx(filepath)] *)
Definition extract_text_from_docx (env : Env) (filepath : str) : M str :=
  content <- open_package filepath;;
  paragraphs <- lift (docx_paragraphs env content);;
  ret (join nl paragraphs).

Definition application_pdf : str := py "application/pdf".
Definition application_docx : str :=
  py "application/vnd.openxmlformats-officedocument.wordprocessingml.document".

(** [fetch_and_clean_file(file_path, content_type)] *)
Definition fetch_and_clean_file (env : Env) (file_path content_type : str)
  : M str :=
  text <- (if str_eqb content_type application_pdf
           then extract_text_from_pdf env file_path
           else if str_eqb content_type application_docx
           then extract_text_from_docx env file_path
           else raise (ValueError (py "Unsupported document type.")));;
  ret (clean_whitespace text).

(** [store_file_chunks_in_db(filename, chunks)] *)
Definition store_file_chunks_in_db (env : Env) (filename : str)
    (chunks : list str) : M unit :=
  match chunks with
  | [] => ret tt
  | _ :: _ =>
      let ids := chunk_ids filename chunks in
      let metadatas :=
        List.map (fun _ => ({[ py "source_file" := filename ]} : gmap str str))
          chunks in
      collection_add env ids chunks metadatas
  end.

(** ** tasks.py *)

(** What a task returns to celery. *)
Inductive task_return : Type :=
| ReturnNone
| ReturnStatus (job_id status : str).

Definition PENDING : str := py "PENDING".
Definition PROCESSING : str := py "PROCESSING".
Definition RUNNING : str := py "RUNNING".
Definition COMPLETED : str := py "COMPLETED".
Definition FAILED : str := py "FAILED".

(** [process_url_task(self, job_id, url)]. The [finally: db.close()] has no
    effect on the world. *)
Definition process_url_task (env : Env) (id target : str) : M task_return :=
  try_except
    (job <- first_by_id id;;
     match job with
     | None => ret ReturnNone
     | Some job =>
         commit_status job PROCESSING;;
         text <- fetch_and_clean_text env target;;
         (if nonempty text then ret tt
          else raise (ValueError
                        (py "Failed to get any text content from URL.")));;
         chunks <- lift (chunk_text text);;
         store_chunks_in_db env target chunks;;
         commit_status job COMPLETED;;
         ret (ReturnStatus id COMPLETED)
     end)
    (fun e =>
       rollback;;
       job <- first_by_id id;;
       match job with
       | Some job => commit_status job FAILED
       | None => ret tt
       end;;
       raise e).

(** [process_file_task(job_id, file_path, content_type)]. The query runs
    inside the [try] of the source; it cannot raise here, and when it finds
    no job the task returns before anything can, so the handler, which
    reads [job], is placed where [job] is bound. *)
Definition process_file_task (env : Env) (id file_path content_type : str)
  : M task_return :=
  job <- first_by_id id;;
  match job with
  | None => ret ReturnNone
  | Some job =>
      try_except
        (commit_status job RUNNING;;
         text <- fetch_and_clean_file env file_path content_type;;
         chunks <- lift (chunk_text text);;
         store_file_chunks_in_db env (url job) chunks;;
         commit_status job COMPLETED;;
         ret ReturnNone)
        (fun e =>
           commit_status job FAILED;;
           ret ReturnNone)
  end.

(** ** main.py *)

(** Modelled from the spec: [IngestRequest] is declared in app/models.py,
    which is not among the source files. Sections 3 and 6 make the
    submitted source key a URL string; the handler only reads
    [str(request.url)]. A URL is a scheme and the rest, printed with a
    colon and two slashes between them. *)
Record HttpUrl : Type := {
  scheme : str;
  rest : str
}.

Definition url_str (u : HttpUrl) : str := scheme u ++ py "://" ++ rest u.

Record UploadFile : Type := {
  content_type : str;
  file_content : bytes
}.

(** The bodies of the two accepted answers (both sent with status 202). *)
Inductive response : Type :=
| IngestResponse (job_id : str)
| FileAccepted (job_id status message : str).

(** [celery_app.send_task(name, args=args)] *)
Definition send_task (env : Env) (name : str) (args : list str) : M unit :=
  let msg := {| task_name := name; task_args := args |} in
  match send_fault env msg with
  | Some e => raise e
  | None => fun w => (Ok tt, with_queue (fun q => q ++ [msg]) w)
  end.

Definition except_HTTPException {A} (body : M A) (handler : exn -> M A)
    (other : exn -> M A) : M A :=
  try_except body
    (fun e =>
       match e with
       | HTTPException _ _ => handler e
       | _ => other e
       end).

(** [ingest_url(request, db)]; [new_id] is the id the table gives the new
    row. *)
Definition ingest_url (env : Env) (new_id : str) (request_url : HttpUrl)
  : M response :=
  except_HTTPException
    (existing_job <- first_by_url (url_str request_url);;
     match existing_job with
     | Some existing_job =>
         raise (HTTPException 409
                  (py "URL has already been submitted. Job ID: "
                   ++ job_id existing_job ++ py ", Status: "
                   ++ status existing_job))
     | None =>
         add_job {| job_id := new_id; url := url_str request_url;
                    status := PENDING |};;
         send_task env (py "process_url_task") [new_id; url_str request_url];;
         ret (IngestResponse new_id)
     end)
    (fun e => rollback;; raise e)
    (fun e =>
       rollback;;
       raise (HTTPException 500
                (py "Failed to create and schedule job: " ++ exn_str e))).

(** [tempfile]: a name is ["tmp"], eight characters drawn from
    [name_characters], and the suffix; the file is created exclusively, and
    the next candidate is tried when the name is taken. [candidates] are the
    draws of the random generator, as indices into [name_characters]. *)
Definition name_characters : str :=
  py "abcdefghijklmnopqrstuvwxyz0123456789_".

Definition random_name (draw : list nat) : str :=
  List.map (fun i => nth (i mod 37) name_characters 95%N) draw.

Definition temp_name (draw : list nat) (suffix : str) : str :=
  py "tmp" ++ random_name draw ++ suffix.

Definition in_dir (dir name : str) : str := dir ++ py "/" ++ name.

Fixpoint unused_name (dir suffix : str) (candidates : list (list nat))
    (fs : gmap str bytes) : result str :=
  match candidates with
  | [] => Raise FileExistsError
  | draw :: more =>
      let name := in_dir dir (temp_name draw suffix) in
      match fs !! name with
      | None => Ok name
      | Some _ => unused_name dir suffix more fs
      end
  end.

(** [[
    with tempfile.NamedTemporaryFile(delete=False, suffix=suffix) as tmpfile:
        shutil.copyfileobj(file.file, tmpfile)
        tmp_filepath = tmpfile.name
    ]] *)
Definition NamedTemporaryFile (env : Env) (suffix : str)
    (candidates : list (list nat)) (content : bytes) : M str :=
  fun w =>
    match unused_name (tempdir env) suffix candidates (files w) with
    | Raise e => (Raise e, w)
    | Ok name => (Ok name, with_files (fun fs => <[name := content]> fs) w)
    end.

(** [os.path.basename(p)]: what follows the last slash. *)
Fixpoint until_slash (s : str) : str :=
  match s with
  | [] => []
  | c :: s' => if (c =? 47)%N then [] else c :: until_slash s'
  end.

Definition basename (p : str) : str := rev (until_slash (rev p)).

Definition allowed_types : list str := [application_pdf; application_docx].

(** [suffix = ".pdf" if file.content_type == "application/pdf" else ".docx"] *)
Definition upload_suffix (content_type : str) : str :=
  if str_eqb content_type application_pdf then py ".pdf" else py ".docx".

(** [ingest_file(file, db)]. The content-type check is made before the
    [try]; everything raised inside it, the conflict included, is caught by
    the one [except Exception] clause. *)
Definition ingest_file (env : Env) (new_id : str)
    (candidates : list (list nat)) (file : UploadFile) : M response :=
  if negb (existsb (str_eqb (content_type file)) allowed_types)
  then raise (HTTPException 400 (py "Only PDF and DOCX files are supported."))
  else
    try_except
      (let suffix := upload_suffix (content_type file) in
       tmp_filepath <-
         NamedTemporaryFile env suffix candidates (file_content file);;
       let job_filename := basename tmp_filepath in
       existing_job <- first_by_url job_filename;;
       match existing_job with
       | Some existing_job =>
           raise (HTTPException 409
                    (py "File has already been submitted. Job ID: "
                     ++ job_id existing_job ++ py ", Status: "
                     ++ status existing_job))
       | None =>
           add_job {| job_id := new_id; url := job_filename;
                      status := PENDING |};;
           send_task env (py "process_file_task")
             [new_id; tmp_filepath; content_type file];;
           ret (FileAccepted new_id PENDING
                  (py "File has been accepted and is pending processing."))
       end)
      (fun e =>
         rollback;;
         raise (HTTPException 500
                  (py "Failed to create and schedule file ingest job: "
                   ++ exn_str e))).

(** ** query.py *)

Record QueryResult : Type := {
  answer : str;
  sources : list str;
  enriched_query : str
}.

Definition enrich_model : str := py "mixtral-8x7b-32768".
Definition answer_model : str := py "llama-3.1-8b-instant".

Definition not_found_answer : str :=
  py "I could not find an answer in the ingested content.".

Definition enrich_prompt (query_text : str) : str :=
  py "Please rephrase or enrich the following question to make it clearer and more specific for a customer assistant. "
  ++ py "Ensure the question is well-formed, focused, and easy for an AI to understand:"
  ++ nl ++ nl
  ++ py "Original Question: " ++ query_text ++ nl ++ nl
  ++ py "Improved Question:".

Definition answer_prompt (context improved_query_text : str) : str :=
  nl
  ++ py "    You are a helpful assistant. Answer the user's question based ONLY on the following context."
  ++ nl
  ++ py "    If the answer is not found in the context, say "
  ++ quote ++ not_found_answer ++ quote ++ nl
  ++ py "    Do not use any prior knowledge." ++ nl
  ++ nl
  ++ py "    Context:" ++ nl
  ++ py "    ---" ++ nl
  ++ py "    " ++ context ++ nl
  ++ py "    ---" ++ nl
  ++ nl
  ++ py "    Question: " ++ improved_query_text ++ nl
  ++ nl
  ++ py "    Answer:" ++ nl
  ++ py "    ".

(** Modelled from the spec: [collection.query] of chromadb, which is not
    among the source files. Section 4.4: up to [k] nearest chunks, each
    with its
    metadata, best first, and an empty result when nothing matches. Which
    chunks are nearest is the store's business ([nearest]); what comes back
    for an id is what the collection holds for it. *)
Definition retrieve (env : Env) (query_text : str) (n_results : nat)
    (c : gmap str entry) : list entry :=
  take n_results (omap (fun id => c !! id) (nearest env query_text c)).

Definition collection_query (env : Env) (query_text : str) (n_results : nat)
  : M (list entry) :=
  emit (CollectionQuery query_text);;
  match query_fault env query_text with
  | Some e => raise e
  | None => fun w => (Ok (retrieve env query_text n_results (collection w)), w)
  end.

(** A groq chat completion with one user message. *)
Definition completion (model : str) (answer_of : str -> result str)
    (prompt : str) : M str :=
  emit (Completion model prompt);;
  lift (answer_of prompt).

(** [list(set(meta.get('source_url', '') for meta in metadatas))]: the
    order of the list is whatever the set iterates in. *)
Definition source_urls (metadatas : list (gmap str str)) : list str :=
  elements
    (list_to_set (List.map (fun meta => default [] (meta !! py "source_url"))
                    metadatas) : gset str).

(** The query handed to the store: the enriched one, or the raw query when
    the enrichment call fails. *)
Definition improved_query (env : Env) (query_text : str) : str :=
  match enrich_completion env (enrich_prompt query_text) with
  | Ok content => strip content
  | Raise _ => query_text
  end.

(** [query_rag_engine(query_text)] *)
Definition query_rag_engine (env : Env) (query_text : str) : M QueryResult :=
  improved_query_text <-
    try_except
      (content <- completion enrich_model (enrich_completion env)
                    (enrich_prompt query_text);;
       ret (strip content))
      (fun _ => ret query_text);;
  results <- collection_query env improved_query_text 3;;
  let retrieved_chunks := List.map document results in
  match retrieved_chunks with
  | [] =>
      ret {| answer := not_found_answer; sources := [];
             enriched_query := improved_query_text |}
  | _ :: _ =>
      let context := join (nl ++ py "---" ++ nl) retrieved_chunks in
      let prompt := answer_prompt context improved_query_text in
      try_except
        (answer <- completion answer_model (chat_completion env) prompt;;
         let source_urls := source_urls (List.map metadata results) in
         ret {| answer := answer; sources := source_urls;
                enriched_query := improved_query_text |})
        (fun e => raise e)
  end.

(** The body of [QueryResponse]. *)
Record QueryResponse : Type := {
  response_answer : str;
  response_sources : list str
}.

(** [query(request)] of main.py *)
Definition query (env : Env) (request_query : str) : M QueryResponse :=
  try_except
    (result <- query_rag_engine env request_query;;
     ret {| response_answer := answer result;
            response_sources := sources result |})
    (fun e =>
       raise (HTTPException 500
                (py "An error occurred during the query process: "
                 ++ exn_str e))).

(** ** The system as a whole *)

(** One call into either service, with what the outside contributes. *)
Inductive operation : Type :=
| IngestUrl (new_id : str) (request_url : HttpUrl)
| IngestFile (new_id : str) (candidates : list (list nat)) (file : UploadFile)
| UrlTask (id target : str)
| FileTask (id file_path content_type : str)
| Query (request_query : str).

Definition run (env : Env) (op : operation) (w : world) : world :=
  match op with
  | IngestUrl new_id u => snd (ingest_url env new_id u w)
  | IngestFile new_id candidates file =>
      snd (ingest_file env new_id candidates file w)
  | UrlTask id target => snd (process_url_task env id target w)
  | FileTask id file_path ctype =>
      snd (process_file_task env id file_path ctype w)
  | Query q => snd (query env q w)
  end.

Definition run_all (env : Env) (ops : list operation) (w : world) : world :=
  fold_left (fun w op => run env op w) ops w.

Definition empty_world : world :=
  {| jobs := []; collection := ∅; files := ∅; queue := []; log := [] |}.

(** The source keys of the job table, in row order. *)
Definition keys (w : world) : list str := List.map url (jobs w).

Definition has_slash (s : str) : bool := existsb (N.eqb 47) s.

(** Every job that carries a file name as its key still has that file in
    the temp directory. Nothing in either service removes a file. *)
Definition files_kept (env : Env) (w : world) : Prop :=
  forall key, In key (keys w) -> has_slash key = false ->
              is_Some (files w !! in_dir (tempdir env) key).

(** The row the session finds for a job id. *)
Definition lookup_job (id : str) (w : world) : option IngestionJob :=
  List.find (fun j => str_eqb (job_id j) id) (jobs w).

(** [w'] differs from [w] at most by events added to the log. *)
Definition logs_more (w w' : world) : Prop :=
  jobs w' = jobs w /\ collection w' = collection w /\ files w' = files w
  /\ queue w' = queue w /\ exists evs, log w' = log w ++ evs.

Arguments py : simpl never.
Arguments clean_whitespace : simpl never.
Arguments chunk_text : simpl never.
Arguments chunk_ids : simpl never.
Arguments str_eqb : simpl never.

(** What a store function hands to [collection.add] for a source and its
    chunks, under the metadata key it uses, and what that does to the
    collection. *)
Definition stored_items (key source : str) (chunks : list str)
  : list (str * entry) :=
  items (chunk_ids source chunks) chunks
    (List.map (fun _ => ({[ key := source ]} : gmap str str)) chunks).

Definition store_effect (env : Env) (key source : str) (chunks : list str)
    (c : gmap str entry) : gmap str entry :=
  match chunks with
  | [] => c
  | _ :: _ =>
      match add_fault env (chunk_ids source chunks) with
      | Some _ => c
      | None => fold_left add_record (stored_items key source chunks) c
      end
  end.

(** Same rows, possibly with other statuses. *)
Definition same_rows (w w' : world) : Prop :=
  List.map job_id (jobs w') = List.map job_id (jobs w)
  /\ List.map url (jobs w') = List.map url (jobs w).

(** A worker step keeps the rows (statuses aside), the files and the queue,
    and only adds to the log. *)
Definition advances (w w' : world) : Prop :=
  same_rows w w' /\ files w' = files w /\ queue w' = queue w
  /\ exists evs, log w' = log w ++ evs.

(** ** Sample collaborators and inputs *)

(** Collaborators that all answer; the PDF reader answers [pages]. *)
Definition sample_env (pages : result (list (option str))) : Env :=
  {| get_text := fun _ => Ok (py "  Hello   world ");
     pdf_pages := fun _ => pages;
     docx_paragraphs := fun _ => Ok [py "Some text"; py "and more"];
     add_fault := fun _ => None;
     query_fault := fun _ => None;
     send_fault := fun _ => None;
     nearest := fun _ c => List.map fst (map_to_list c);
     enrich_completion := fun _ => Raise (ExternalError (py "timeout"));
     chat_completion := fun _ => Ok (py "An answer");
     tempdir := py "/tmp" |}.

Definition sample_pdf : UploadFile :=
  {| content_type := application_pdf; file_content := [37; 80; 68; 70]%N |}.

Definition sample_docx : UploadFile :=
  {| content_type := application_docx; file_content := [80; 75; 3; 4]%N |}.

Definition sample_draw : list nat := [0; 1; 2; 3; 4; 5; 6; 7].

Definition sample_pdf_path : str := py "/tmp/tmpabcdefgh.pdf".
Definition sample_docx_path : str := py "/tmp/tmpabcdefgh.docx".

(** The world after one PDF upload, [pdf_world], and after one DOCX upload,
    [docx_world]. *)
Definition pdf_world : world :=
  run (sample_env (Ok [])) (IngestFile (py "job-1") [sample_draw] sample_pdf)
    empty_world.

Definition docx_world : world :=
  run (sample_env (Ok [])) (IngestFile (py "job-1") [sample_draw] sample_docx)
    empty_world.

Definition sample_url : HttpUrl :=
  {| scheme := py "https"; rest := py "example.com/a" |}.

(** The world after one URL submission. *)
Definition url_world : world :=
  run (sample_env (Ok [])) (IngestUrl (py "job-1") sample_url) empty_world.

(** What a run of a task does to the collection, given the page text of the
    URL, or the outcome of the file extraction. *)
Definition url_task_effect (env : Env) (target : str) (c : gmap str entry)
  : gmap str entry :=
  match get_text env target with
  | Ok page =>
      if nonempty (clean_whitespace page) then
        match chunk_text (clean_whitespace page) with
        | Ok chunks => store_effect env (py "source_url") target chunks c
        | Raise _ => c
        end
      else c
  | Raise _ => c
  end.

Definition file_task_effect (env : Env) (key : str) (text : result str)
    (c : gmap str entry) : gmap str entry :=
  match rbind text chunk_text with
  | Ok chunks => store_effect env (py "source_file") key chunks c
  | Raise _ => c
  end.

(** ** Further notions used by the properties of the code *)

(** The characters of a text that are not whitespace, in order. *)
Definition visible (s : str) : str :=
  List.filter (fun c => negb (is_space c)) s.

(** [a] occurs in [b] as a contiguous piece. *)
Definition infix (a b : str) : Prop := exists pre post, b = pre ++ a ++ post.

(** What every chunk of a text is to be: non-empty, without whitespace at
    either end, within the chunk size, and a contiguous piece of the
    text. *)
Definition good_chunk (text chunk : str) : Prop :=
  chunk <> [] /\ strip chunk = chunk /\ (length chunk <= 1000)%nat
  /\ infix chunk text.

(** What the merge loop keeps true. [seen] are the pieces taken so far,
    of which [current_doc] is the tail still open. *)
Definition merge_inv (all seen : list str) (st : merge_state) : Prop :=
  (exists dropped, seen = dropped ++ current_doc st)
  /\ total st = sum_len (current_doc st)
  /\ (total st <= chunk_size)%Z
  /\ Forall (good_chunk (concat all)) (docs st).


(** The rows [js'] are the rows [js], except that rows of the job [id] may
    have got one of the [allowed] statuses. *)
Definition restatused (allowed : list str) (id : str)
    (js js' : list IngestionJob) : Prop :=
  Forall2
    (fun j j' =>
       j' = j
       \/ (job_id j = id /\ job_id j' = id /\ url j' = url j
           /\ In (status j') allowed))
    js js'.

(** Every row has one of the four statuses of the design. *)
Definition statuses_known (w : world) : Prop :=
  Forall (fun j => In (status j) [PENDING; PROCESSING; COMPLETED; FAILED])
    (jobs w).

(** Every message in the queue was sent for a job that has a row, and
    carries that job's id and source: the URL itself, or a path whose base
    name is the job's key. *)
Definition dispatched_for_rows (w : world) : Prop :=
  forall msg, In msg (queue w) ->
    exists j, In j (jobs w)
      /\ ((task_name msg = py "process_url_task"
           /\ task_args msg = [job_id j; url j])
          \/ (task_name msg = py "process_file_task"
              /\ exists path ctype,
                   task_args msg = [job_id j; path; ctype]
                   /\ basename path = url j)).

(** Every entry of a collection sits under an id of the form
    ["{source}_{i}"], holds a chunk as the chunker makes them, and has
    exactly one metadata key, one of [keys], with that source as its
    value. *)
Definition stored_under (keys : list str) (c : gmap str entry) : Prop :=
  forall id e,
    c !! id = Some e ->
    exists source i key,
      id = chunk_id source i /\ In key keys
      /\ metadata e = {[ key := source ]}
      /\ document e <> [] /\ strip (document e) = document e
      /\ (length (document e) <= 1000)%nat.

Definition is_file_task (op : operation) : bool :=
  match op with FileTask _ _ _ => true | _ => false end.

(** Collaborators as in [sample_env], with a store that cannot be
    queried. *)
Definition store_down_env : Env :=
  {| get_text := fun _ => Ok (py "  Hello   world ");
     pdf_pages := fun _ => Ok [];
     docx_paragraphs := fun _ => Ok [py "Some text"; py "and more"];
     add_fault := fun _ => None;
     query_fault := fun _ => Some (ExternalError (py "connection refused"));
     send_fault := fun _ => None;
     nearest := fun _ c => List.map fst (map_to_list c);
     enrich_completion := fun _ => Raise (ExternalError (py "timeout"));
     chat_completion := fun _ => Ok (py "An answer");
     tempdir := py "/tmp" |}.

(** The world after one URL has been submitted and its task has run. *)
Definition url_done_world : world :=
  run (sample_env (Ok []))
    (UrlTask (py "job-1") (py "https://example.com/a")) url_world.

(** Collaborators as in [sample_env], with readers that tell a PDF from a
    DOCX: the PDF reader finds three pages, the middle one without text,
    and python-docx refuses the bytes. *)
Definition pdf_only_env : Env :=
  {| get_text := fun _ => Ok (py "  Hello   world ");
     pdf_pages := fun _ => Ok [Some (py "Page one "); None; Some (py "two")];
     docx_paragraphs :=
       fun _ => Raise (ExternalError (py "File is not a zip file"));
     add_fault := fun _ => None;
     query_fault := fun _ => None;
     send_fault := fun _ => None;
     nearest := fun _ c => List.map fst (map_to_list c);
     enrich_completion := fun _ => Raise (ExternalError (py "timeout"));
     chat_completion := fun _ => Ok (py "An answer");
     tempdir := py "/tmp" |}.

(** * Properties *)

(** ** Strings *)

Section StringFacts.

Implicit Types (s p q sep : str) (c : N).

Lemma starts_with_app p q : starts_with p (p ++ q) = true.
Proof.
  induction p as [|a p IH]; simpl; [done|].
  by rewrite N.eqb_refl.
Qed.

Lemma starts_with_prefix p s :
  starts_with p s = true -> exists q, s = p ++ q.
Proof.
  revert s. induction p as [|a p IH]; intros s H; simpl in *.
  - by exists s.
  - destruct s as [|b s]; [done|].
    apply andb_true_iff in H as [Hab H].
    apply N.eqb_eq in Hab as ->.
    destruct (IH _ H) as [q ->]. by exists q.
Qed.

Lemma starts_with_weaken p s q :
  starts_with p s = true -> starts_with p (s ++ q) = true.
Proof.
  intros H. destruct (starts_with_prefix _ _ H) as [r ->].
  rewrite <- app_assoc. apply starts_with_app.
Qed.

Lemma occurs_app_l p s q : occurs p s = true -> occurs p (s ++ q) = true.
Proof.
  induction s as [|c s IH]; simpl; intros H.
  - rewrite orb_false_r in H. destruct p; [|done].
    destruct q; done.
  - apply orb_true_iff in H as [H|H].
    + change (c :: s ++ q) with ((c :: s) ++ q).
      by rewrite (starts_with_weaken _ _ q H).
    + rewrite (IH H). apply orb_true_r.
Qed.

Lemma occurs_app_r p s q : occurs p s = true -> occurs p (q ++ s) = true.
Proof.
  intros H. induction q as [|c q IH]; simpl; [done|].
  rewrite IH. apply orb_true_r.
Qed.

(** *** strip *)

Lemma lstrip_suffix s : exists pre, s = pre ++ lstrip s.
Proof.
  induction s as [|c s [pre IH]]; simpl.
  - by exists [].
  - destruct (is_space c).
    + exists (c :: pre). simpl. by f_equal.
    + by exists [].
Qed.

Lemma rstrip_prefix s : exists post, s = rstrip s ++ post.
Proof.
  unfold rstrip. destruct (lstrip_suffix (rev s)) as [pre H].
  exists (rev pre).
  rewrite <- rev_app_distr, <- H. by rewrite rev_involutive.
Qed.

Lemma strip_infix s : exists pre post, s = pre ++ strip s ++ post.
Proof.
  unfold strip. destruct (lstrip_suffix s) as [pre H].
  destruct (rstrip_prefix (lstrip s)) as [post H'].
  exists pre, post. by rewrite <- H', <- H.
Qed.

Lemma strip_In s c : In c (strip s) -> In c s.
Proof.
  destruct (strip_infix s) as (pre & post & H). intros Hc.
  rewrite H. apply in_or_app. right. apply in_or_app. by left.
Qed.

Lemma occurs_strip p s : occurs p (strip s) = true -> occurs p s = true.
Proof.
  destruct (strip_infix s) as (pre & post & H). intros Hc.
  rewrite H. by apply occurs_app_r, occurs_app_l.
Qed.

Lemma lstrip_idem s : lstrip (lstrip s) = lstrip s.
Proof.
  induction s as [|c s IH]; simpl; [done|].
  destruct (is_space c) eqn:E; [done|]. simpl. by rewrite E.
Qed.

Lemma lstrip_snoc s c :
  is_space c = false -> lstrip (s ++ [c]) = lstrip s ++ [c].
Proof.
  intros Hc. induction s as [|a s IH]; simpl.
  - by rewrite Hc.
  - by destruct (is_space a).
Qed.

(** Trimming on the right leaves a left-trimmed string left-trimmed. *)
Lemma lstrip_rstrip_fixed s : lstrip s = s -> lstrip (rstrip s) = rstrip s.
Proof.
  destruct s as [|c s]; [done|].
  simpl. destruct (is_space c) eqn:E.
  - intros H. exfalso.
    destruct (lstrip_suffix s) as [pre Hp].
    apply (f_equal (@length N)) in H. rewrite Hp in H at 2.
    simpl in H. rewrite length_app in H. lia.
  - intros _. unfold rstrip. simpl rev.
    rewrite (lstrip_snoc _ _ E), rev_app_distr. simpl. by rewrite E.
Qed.

Lemma strip_trimmed s : trimmed (strip s).
Proof.
  unfold trimmed, strip. split.
  - apply lstrip_rstrip_fixed, lstrip_idem.
  - unfold rstrip. by rewrite rev_involutive, lstrip_idem.
Qed.

Lemma trimmed_strip s : trimmed s -> strip s = s.
Proof.
  intros [H1 H2]. unfold strip, rstrip.
  by rewrite H1, H2, rev_involutive.
Qed.

Lemma strip_idem s : strip (strip s) = strip s.
Proof. apply trimmed_strip, strip_trimmed. Qed.

End StringFacts.

Section SplitFacts.

Implicit Types (s p q sep : str) (c : N).

Lemma split_go_nonempty sep k s : split_go sep k s <> [].
Proof.
  revert k. induction s as [|c s IH]; intros k; simpl; [done|].
  destruct k as [|k]; [|apply IH].
  destruct (starts_with sep (c :: s)); [done|].
  destruct (split_go sep 0 s); done.
Qed.

Lemma split_go_In sep k s p c :
  In p (split_go sep k s) -> In c p -> In c s.
Proof.
  revert k p. induction s as [|a s IH]; intros k p; simpl.
  - intros [<-|[]] [].
  - destruct k as [|k]; [|by eauto].
    destruct (starts_with sep (a :: s)).
    + intros [<-|H]; [intros []|]. eauto.
    + pose proof (IH 0) as IH0.
      destruct (split_go sep 0 s) as [|p0 ps]; simpl.
      * intros [<-|[]] [->|[]]. by left.
      * intros [<-|H] Hc.
        -- destruct Hc as [->|Hc]; [by left|]. right.
           apply (IH0 p0); [by left|done].
        -- right. apply (IH0 p); [by right|done].
Qed.

(** No piece of a split contains the separator, and the first piece is
    where the scan starts. *)
Lemma split_go_pieces sep k s :
  sep <> [] ->
  Forall (fun p => occurs sep p = false) (split_go sep k s)
  /\ exists rest, skipn k s = hd [] (split_go sep k s) ++ rest.
Proof.
  intros Hsep. revert k. induction s as [|a s IH]; intros k.
  - simpl. split.
    + constructor; [|constructor]. by destruct sep.
    + exists []. by destruct k.
  - simpl. destruct k as [|k]; [|apply IH].
    destruct (starts_with sep (a :: s)) eqn:E.
    + destruct (IH (length sep - 1)) as [H _]. split.
      * constructor; [by destruct sep|done].
      * by exists (a :: s).
    + destruct (IH 0) as [H [rest Hr]]. simpl in Hr.
      destruct (split_go sep 0 s) as [|p0 ps] eqn:Es.
      { by apply split_go_nonempty in Es. }
      rewrite drop_0 in Hr. simpl in Hr.
      inversion H as [|? ? Hp0 Hps]. split.
      * constructor; [|done]. simpl. rewrite Hp0, orb_false_r.
        destruct (starts_with sep (a :: p0)) eqn:E'; [|done].
        apply (starts_with_weaken _ _ rest) in E'.
        rewrite <- app_comm_cons, <- Hr in E'. congruence.
      * exists rest. rewrite drop_0. simpl. by f_equal.
Qed.

Lemma split_on_pieces sep s p :
  sep <> [] -> In p (split_on sep s) -> occurs sep p = false.
Proof.
  intros Hsep Hp. destruct (split_go_pieces sep 0 s Hsep) as [H _].
  rewrite List.Forall_forall in H. by apply H.
Qed.

Lemma split_on_absent sep s : occurs sep s = false -> split_on sep s = [s].
Proof.
  unfold split_on. induction s as [|c s IH]; simpl; [done|].
  intros H. apply orb_false_iff in H as [H1 H2].
  rewrite H1, (IH H2). done.
Qed.

Lemma join_cons sep x l :
  l <> [] -> join sep (x :: l) = x ++ sep ++ join sep l.
Proof. by destruct l. Qed.

(** Joining the pieces with the separator gives the text back. *)
Lemma join_split_go sep k s :
  sep <> [] -> join sep (split_go sep k s) = skipn k s.
Proof.
  intros Hsep. revert k. induction s as [|a s IH]; intros k.
  - by destruct k.
  - simpl. destruct k as [|k]; [|apply IH].
    destruct (starts_with sep (a :: s)) eqn:E.
    + rewrite join_cons by apply split_go_nonempty.
      rewrite IH. simpl.
      destruct (starts_with_prefix _ _ E) as [q Hq].
      destruct sep as [|b sep']; [done|].
      simpl in Hq. injection Hq as -> ->.
      simpl. rewrite Nat.sub_0_r. by rewrite drop_app_length.
    + specialize (IH 0). rewrite drop_0 in *.
      destruct (split_go sep 0 s) as [|p0 ps] eqn:Es.
      { by apply split_go_nonempty in Es. }
      destruct ps as [|p1 ps]; simpl in *; by rewrite <- IH.
Qed.

Lemma join_split_on sep s : sep <> [] -> join sep (split_on sep s) = s.
Proof. intros H. apply (join_split_go sep 0 s H). Qed.

(** *** splitlines *)

Lemma splitlines_no_linebreak s : Forall no_linebreak (splitlines s).
Proof.
  assert (H : forall n s, length s <= n -> Forall no_linebreak (splitlines s)).
  { clear s. induction n as [|n IH]; intros [|c s] Hn; simpl in *;
      try constructor; try lia.
    - destruct (is_linebreak c) eqn:E.
      + constructor; [constructor|].
        destruct s as [|c2 s]; [constructor|].
        destruct ((c =? 13)%N && (c2 =? 10)%N);
          apply IH; simpl in *; lia.
      + assert (Hs : Forall no_linebreak (splitlines s))
          by (apply IH; lia).
        destruct (splitlines s) as [|l ls].
        * constructor; [|constructor]. by constructor.
        * inversion Hs; subst. constructor; [|done]. by constructor. }
  by apply (H (length s)).
Qed.

Lemma splitlines_app f rest :
  f <> [] -> no_linebreak f ->
  splitlines (f ++ rest)
  = match splitlines rest with
    | l :: ls => (f ++ l) :: ls
    | [] => [f]
    end.
Proof.
  induction f as [|c f IH]; [done|]. intros _ Hf.
  inversion Hf as [|? ? Hc Hf']; subst.
  simpl. rewrite Hc.
  destruct f as [|c' f].
  - simpl. by destruct (splitlines rest).
  - rewrite IH by done.
    by destruct (splitlines rest).
Qed.

Lemma splitlines_nl s : splitlines (nl ++ s) = [] :: splitlines s.
Proof. simpl. by destruct s. Qed.

Lemma splitlines_join F :
  Forall (fun f => f <> [] /\ no_linebreak f) F ->
  splitlines (join nl F) = F.
Proof.
  induction F as [|f F IH]; [done|].
  intros H. inversion H as [|? ? [Hne Hlb] HF]; subst.
  destruct F as [|g F].
  - simpl. rewrite <- (app_nil_r f) at 1.
    by rewrite splitlines_app.
  - rewrite join_cons by done.
    rewrite splitlines_app, splitlines_nl by done.
    rewrite IH by done. by rewrite app_nil_r.
Qed.

End SplitFacts.

(** ** Whitespace clean-up *)

Section CleanWhitespace.

Lemma dsp_nonempty : dsp <> [].
Proof. done. Qed.

(** Every line the clean-up emits is [tidy]. *)
Lemma clean_output_tidy text :
  Forall tidy (List.filter nonempty (clean_phrases (clean_lines text))).
Proof.
  apply List.Forall_forall. intros x Hx.
  apply List.filter_In in Hx as [Hx Hne].
  unfold clean_phrases in Hx. apply in_flat_map in Hx as (line & Hline & Hx).
  apply List.in_map_iff in Hx as (p & <- & Hp).
  unfold clean_lines in Hline.
  apply List.in_map_iff in Hline as (l & <- & Hl).
  pose proof (splitlines_no_linebreak text) as Hlb.
  rewrite List.Forall_forall in Hlb. specialize (Hlb _ Hl).
  unfold no_linebreak in Hlb. rewrite List.Forall_forall in Hlb.
  repeat split.
  - intros E. by rewrite E in Hne.
  - apply List.Forall_forall. intros c Hc. apply Hlb.
    apply strip_In. eapply split_go_In; [exact Hp|]. by apply strip_In.
  - apply strip_trimmed.
  - apply strip_trimmed.
  - destruct (occurs dsp (strip p)) eqn:E; [|done].
    apply occurs_strip in E.
    by rewrite (split_on_pieces dsp _ _ dsp_nonempty Hp) in E.
Qed.

(** On a sequence of tidy lines joined by newlines the clean-up finds the
    same lines again. *)
Lemma clean_tidy_lines F :
  Forall tidy F ->
  List.filter nonempty (clean_phrases (clean_lines (join nl F))) = F.
Proof.
  intros HF. unfold clean_lines.
  rewrite splitlines_join.
  2:{ eapply Forall_impl; [exact HF|]. intros f (? & ? & _). done. }
  induction HF as [|f F (Hne & Hlb & Htr & Hocc) HF IH]; [done|].
  simpl. rewrite (trimmed_strip _ Htr), (split_on_absent _ _ Hocc).
  simpl. rewrite (trimmed_strip _ Htr).
  destruct f as [|c f]; [done|]. simpl. f_equal. exact IH.
Qed.

(** C8. The whitespace clean-up that ends [fetch_and_clean_text] and
    [fetch_and_clean_file] is idempotent: run on its own output, it
    returns that output unchanged, for every input text. *)
Theorem clean_whitespace_idempotent (text : str) :
  clean_whitespace (clean_whitespace text) = clean_whitespace text.
Proof.
  unfold clean_whitespace at 1 3.
  unfold clean_whitespace.
  by rewrite (clean_tidy_lines _ (clean_output_tidy text)).
Qed.

End CleanWhitespace.

(** ** The chunker on short inputs *)

Section ChunkerShort.

Implicit Types (s text sep : str) (l splits : list str).

Lemma join_empty_sep l : join [] l = concat l.
Proof.
  induction l as [|x l IH]; [done|].
  destruct l as [|y l]; simpl in *.
  - by rewrite app_nil_r.
  - by rewrite IH.
Qed.

Lemma concat_filter_nonempty l : concat (List.filter nonempty l) = concat l.
Proof.
  induction l as [|x l IH]; [done|].
  simpl. destruct x; simpl; by rewrite IH.
Qed.

Lemma concat_kept_separator sep first others :
  concat (first :: List.map (fun p => sep ++ p) others)
  = join sep (first :: others).
Proof.
  revert first. induction others as [|p others IH]; intros first.
  - simpl. by rewrite app_nil_r.
  - rewrite join_cons by done. rewrite <- IH. simpl.
    by rewrite <- app_assoc.
Qed.

(** The pieces, separators kept, concatenate to the text. *)
Lemma concat_split_regex text sep :
  concat (_split_text_with_regex text sep) = text.
Proof.
  unfold _split_text_with_regex. rewrite concat_filter_nonempty.
  destruct sep as [|a sep].
  - induction text as [|c text IH]; [done|]. simpl. by rewrite IH.
  - pose proof (join_split_on (a :: sep) text) as H.
    destruct (split_on (a :: sep) text) as [|first others].
    + specialize (H ltac:(done)). by rewrite <- H.
    + rewrite concat_kept_separator. by apply H.
Qed.

Lemma sum_len_app l1 l2 : sum_len (l1 ++ l2) = (sum_len l1 + sum_len l2)%Z.
Proof. induction l1 as [|x l1 IH]; simpl; lia. Qed.

Lemma sum_len_concat l : sum_len l = len (concat l).
Proof.
  unfold len. induction l as [|x l IH]; [done|].
  simpl. rewrite length_app. unfold len in *. lia.
Qed.

Lemma sum_len_nonneg l : (0 <= sum_len l)%Z.
Proof. induction l as [|x l IH]; simpl; unfold len; lia. Qed.

Lemma sum_len_In l s : In s l -> (len s <= sum_len l)%Z.
Proof.
  induction l as [|x l IH]; [done|]. simpl.
  pose proof (sum_len_nonneg l).
  intros [->|H']; [|specialize (IH H')]; unfold len in *; lia.
Qed.

(** While everything fits into one chunk, merging only collects. *)
Lemma merge_loop_fits splits st :
  (total st + sum_len splits <= chunk_size)%Z ->
  (0 <= total st)%Z ->
  merge_loop [] st splits
  = Ok {| docs := docs st;
          current_doc := current_doc st ++ splits;
          total := (total st + sum_len splits)%Z |}.
Proof.
  revert st. induction splits as [|d splits IH]; intros st Hfit Hpos.
  - simpl. rewrite app_nil_r, Z.add_0_r. by destruct st.
  - simpl in *. unfold merge_step.
    change (len []) with 0%Z.
    pose proof (sum_len_nonneg splits) as Hs.
    assert (Hd : (0 <= len d)%Z) by (unfold len; lia).
    replace (total st + len d
             + (if (0 <? length (current_doc st))%nat then 0 else 0)
             >? chunk_size)%Z with false.
    2:{ symmetry. destruct (0 <? length (current_doc st))%nat;
          rewrite Z.gtb_ltb; apply Z.ltb_ge; lia. }
    simpl. rewrite IH; simpl.
    + f_equal. rewrite <- app_assoc. simpl. f_equal.
      destruct (1 <? length (current_doc st ++ [d]))%nat; lia.
    + destruct (1 <? length (current_doc st ++ [d]))%nat; lia.
    + destruct (1 <? length (current_doc st ++ [d]))%nat; lia.
Qed.

Lemma merge_splits_fits splits :
  (sum_len splits <= chunk_size)%Z ->
  _merge_splits splits []
  = Ok (match strip (concat splits) with [] => [] | t => [t] end).
Proof.
  intros H. unfold _merge_splits.
  rewrite merge_loop_fits; simpl; [|lia|lia].
  unfold _join_docs. rewrite join_empty_sep.
  by destruct (strip (concat splits)).
Qed.

Lemma split_loop_all_good recur splits final good :
  Forall (fun s => (len s < chunk_size)%Z) splits ->
  split_loop recur splits final good = flush_good final (good ++ splits).
Proof.
  intros H. revert good.
  induction H as [|s splits Hs _ IH]; intros good.
  - by rewrite app_nil_r.
  - simpl. apply Z.ltb_lt in Hs. rewrite Hs, IH.
    by rewrite <- app_assoc.
Qed.

Lemma split_loop_short recur text sep :
  (length text < 1000)%nat ->
  split_loop recur (_split_text_with_regex text sep) [] []
  = Ok (one_chunk text).
Proof.
  intros Hlen.
  pose proof (concat_split_regex text sep) as Hcat.
  set (splits := _split_text_with_regex text sep) in *.
  assert (Hsum : (sum_len splits < chunk_size)%Z).
  { rewrite sum_len_concat, Hcat. unfold len, chunk_size. lia. }
  rewrite split_loop_all_good.
  2:{ apply List.Forall_forall. intros s Hs.
      pose proof (sum_len_In _ _ Hs). lia. }
  simpl. unfold flush_good, one_chunk.
  destruct splits as [|s0 splits'] eqn:E.
  - simpl in Hcat. by rewrite <- Hcat.
  - rewrite merge_splits_fits by lia. rewrite Hcat.
    by destruct (strip text).
Qed.

Lemma _split_text_short seps last text :
  (length text < 1000)%nat ->
  _split_text seps last text = Ok (one_chunk text).
Proof.
  intros Hlen. induction seps as [|s seps IH]; simpl.
  - by apply split_loop_short.
  - destruct (negb (nonempty s)); [by apply split_loop_short|].
    destruct (occurs s text); [by apply split_loop_short|done].
Qed.

Lemma chunk_text_fits text :
  (length text < 1000)%nat -> chunk_text text = Ok (one_chunk text).
Proof. apply _split_text_short. Qed.

(** *** Blank texts *)

Lemma lstrip_nil_blank s : lstrip s = [] -> forallb is_space s = true.
Proof.
  induction s as [|c s IH]; [done|]. simpl.
  destruct (is_space c); [exact IH|done].
Qed.

Lemma blank_lstrip s : forallb is_space s = true -> lstrip s = [].
Proof.
  induction s as [|c s IH]; [done|]. simpl.
  destruct (is_space c); [exact IH|done].
Qed.

Lemma forallb_rev (f : N -> bool) s : forallb f (rev s) = forallb f s.
Proof.
  induction s as [|c s IH]; [done|]. simpl.
  rewrite forallb_app, IH. simpl. rewrite andb_true_r. apply andb_comm.
Qed.

Lemma strip_nil_iff s : strip s = [] <-> forallb is_space s = true.
Proof.
  split.
  - unfold strip, rstrip. intros H.
    apply (f_equal (@rev N)) in H. rewrite rev_involutive in H.
    simpl in H. apply lstrip_nil_blank in H.
    rewrite forallb_rev in H.
    pose proof (lstrip_idem s) as Hi.
    destruct (lstrip s) as [|c t] eqn:E; [by apply lstrip_nil_blank|].
    simpl in H, Hi. apply andb_true_iff in H as [Hc _].
    rewrite Hc in Hi. exfalso.
    destruct (lstrip_suffix t) as [pre Hp].
    apply (f_equal (@length N)) in Hi. rewrite Hp in Hi at 2.
    simpl in Hi. rewrite length_app in Hi. lia.
  - intros H. unfold strip. by rewrite (blank_lstrip _ H).
Qed.

End ChunkerShort.

(** ** C9: the chunker on inputs below the chunk size *)

(** C9, as the code has it. For every input text shorter than the 1000
    character chunk size: if the text has a character that is not
    whitespace, [chunk_text] returns exactly one chunk, the text stripped
    of surrounding whitespace; if it has none (the empty text included)
    it returns the empty sequence. No error is raised in either case. *)
Theorem chunk_text_below_chunk_size (text : str) :
  (length text < 1000)%nat ->
  (forallb is_space text = false ->
     chunk_text text = Ok [strip text]
     /\ exists chunk, chunk_text text = Ok [chunk])
  /\ (forallb is_space text = true -> chunk_text text = Ok [])
  /\ chunk_text [] = Ok [].
Proof.
  intros Hlen. rewrite (chunk_text_fits text Hlen). unfold one_chunk.
  split; [|split].
  - intros Hb.
    destruct (strip text) as [|c t] eqn:E.
    + apply strip_nil_iff in E. congruence.
    + split; [done|]. by eexists.
  - intros Hb. apply strip_nil_iff in Hb. by rewrite Hb.
  - by vm_compute.
Qed.

Lemma chunk_text_below_chunk_size_witness :
  (length (py " hello  world ") < 1000)%nat
  /\ forallb is_space (py " hello  world ") = false
  /\ chunk_text (py " hello  world ") = Ok [py "hello  world"].
Proof.
  split; [vm_compute; lia|]. split; [reflexivity|].
  destruct (chunk_text_below_chunk_size (py " hello  world ")) as [H _].
  - vm_compute; lia.
  - destruct H as [H _]; [reflexivity|]. rewrite H. reflexivity.
Defined.

(** C9, as stated, fails: a text of one space is shorter than the chunk
    size and yields no chunk at all, and so does the empty text, which is
    shorter than the chunk size as well. *)
Lemma chunk_text_blank_no_chunk :
  (length (py " ") < 1000)%nat
  /\ chunk_text (py " ") = Ok []
  /\ (length ([] : str) < 1000)%nat
  /\ chunk_text [] = Ok []
  /\ ~ (forall text : str,
          (length text < 1000)%nat ->
          exists chunk, chunk_text text = Ok [chunk]).
Proof.
  split; [vm_compute; lia|]. split; [reflexivity|].
  split; [vm_compute; lia|]. split; [reflexivity|].
  intros H. destruct (H (py " ")) as [chunk Hc]; [vm_compute; lia|].
  vm_compute in Hc. discriminate.
Qed.

(** ** The job table *)

Section JobTable.

Implicit Types (w : world) (j job : IngestionJob) (id st : str).

Lemma str_eqb_eq (a b : str) : str_eqb a b = true <-> a = b.
Proof. unfold str_eqb. apply bool_decide_eq_true. Qed.

Lemma str_eqb_refl (a : str) : str_eqb a a = true.
Proof. by apply str_eqb_eq. Qed.

Lemma str_eqb_neq (a b : str) : str_eqb a b = false <-> a <> b.
Proof. unfold str_eqb. apply bool_decide_eq_false. Qed.

Lemma set_status_job_id id st j : job_id (set_status id st j) = job_id j.
Proof. unfold set_status. by destruct (str_eqb (job_id j) id). Qed.

Lemma set_status_url id st j : url (set_status id st j) = url j.
Proof. unfold set_status. by destruct (str_eqb (job_id j) id). Qed.

Lemma set_status_twice id st st' j :
  set_status id st' (set_status id st j) = set_status id st' j.
Proof.
  unfold set_status. destruct (str_eqb (job_id j) id) eqn:E; simpl.
  - by rewrite E.
  - by rewrite E.
Qed.

Lemma map_set_status_keys id st (js : list IngestionJob) :
  List.map url (List.map (set_status id st) js) = List.map url js.
Proof.
  rewrite List.map_map. apply List.map_ext. intros j.
  apply set_status_url.
Qed.

Lemma find_set_status id id' st (js : list IngestionJob) :
  List.find (fun j => str_eqb (job_id j) id)
    (List.map (set_status id' st) js)
  = option_map (set_status id' st)
      (List.find (fun j => str_eqb (job_id j) id) js).
Proof.
  induction js as [|j js IH]; [done|]. simpl.
  rewrite set_status_job_id.
  destruct (str_eqb (job_id j) id); [done|exact IH].
Qed.

Lemma find_job_id id (js : list IngestionJob) j :
  List.find (fun j => str_eqb (job_id j) id) js = Some j -> job_id j = id.
Proof.
  intros H. apply List.find_some in H as [_ H]. by apply str_eqb_eq.
Qed.

(** After [job.status = st; db.commit()] the session finds the job with
    that status. *)
Lemma lookup_after_commit w job st :
  lookup_job (job_id job) w = Some job ->
  lookup_job (job_id job) (snd (commit_status job st w))
  = Some {| job_id := job_id job; url := url job; status := st |}.
Proof.
  unfold lookup_job. intros H. simpl. rewrite find_set_status, H. simpl.
  unfold set_status. by rewrite str_eqb_refl.
Qed.

Lemma logs_more_refl w : logs_more w w.
Proof. repeat split. exists []. by rewrite app_nil_r. Qed.

Lemma logs_more_trans w1 w2 w3 :
  logs_more w1 w2 -> logs_more w2 w3 -> logs_more w1 w3.
Proof.
  intros (a1 & a2 & a3 & a4 & e1 & a5) (b1 & b2 & b3 & b4 & e2 & b5).
  repeat split; try congruence.
  exists (e1 ++ e2). rewrite b5, a5. by rewrite app_assoc.
Qed.

Lemma logs_more_emit w e : logs_more w (with_log (fun l => l ++ [e]) w).
Proof. repeat split. by exists [e]. Qed.

End JobTable.

(** ** What the ingestion steps touch *)

Ltac unfold_m :=
  unfold except_HTTPException, rollback in *;
  unfold try_except, bind, ret, raise, lift, emit in *.

Section IngestSteps.

Context (env : Env).
Implicit Types (w : world) (chunks : list str).

Lemma fetch_and_clean_text_eq target w :
  fetch_and_clean_text env target w
  = (match get_text env target with
     | Ok text => Ok (clean_whitespace text)
     | Raise e => Raise e
     end,
     with_log (fun l => l ++ [HttpGet target]) w).
Proof.
  unfold fetch_and_clean_text. unfold_m. simpl.
  by destruct (get_text env target).
Qed.

Lemma read_file_eq path w :
  read_file path w
  = (match files w !! path with
     | Some content => Ok content
     | None => Raise (FileNotFoundError path)
     end,
     with_log (fun l => l ++ [OpenFile path]) w).
Proof.
  unfold read_file. unfold_m. simpl. by destruct (files w !! path).
Qed.

Lemma open_package_eq path w :
  open_package path w
  = (match files w !! path with
     | Some content => Ok content
     | None => Raise (PackageNotFoundError path)
     end,
     with_log (fun l => l ++ [OpenFile path]) w).
Proof.
  unfold open_package. unfold_m. simpl. by destruct (files w !! path).
Qed.

Lemma extract_text_from_pdf_eq path w :
  extract_text_from_pdf env path w
  = (match files w !! path with
     | Some content =>
         rbind (pdf_pages env content)
           (fun pages =>
              Ok (concat (List.map (fun page => default [] page) pages)))
     | None => Raise (FileNotFoundError path)
     end,
     with_log (fun l => l ++ [OpenFile path]) w).
Proof.
  unfold extract_text_from_pdf, bind. rewrite read_file_eq.
  destruct (files w !! path); [|done]. unfold_m.
  by destruct (pdf_pages env _).
Qed.

Lemma extract_text_from_docx_eq path w :
  extract_text_from_docx env path w
  = (match files w !! path with
     | Some content =>
         rbind (docx_paragraphs env content)
           (fun paragraphs => Ok (join nl paragraphs))
     | None => Raise (PackageNotFoundError path)
     end,
     with_log (fun l => l ++ [OpenFile path]) w).
Proof.
  unfold extract_text_from_docx, bind. rewrite open_package_eq.
  destruct (files w !! path); [|done]. unfold_m.
  by destruct (docx_paragraphs env _).
Qed.

Lemma fetch_and_clean_file_logs path ctype w :
  logs_more w (snd (fetch_and_clean_file env path ctype w)).
Proof.
  unfold fetch_and_clean_file, bind.
  destruct (str_eqb ctype application_pdf).
  - rewrite extract_text_from_pdf_eq.
    destruct (match files w !! path with Some _ => _ | None => _ end);
      apply logs_more_emit.
  - destruct (str_eqb ctype application_docx).
    + rewrite extract_text_from_docx_eq.
      destruct (match files w !! path with Some _ => _ | None => _ end);
        apply logs_more_emit.
    + apply logs_more_refl.
Qed.

(** The result of the extraction does not depend on the job table, the
    collection, the queue or the log. *)
Lemma fetch_and_clean_file_result path ctype w w' :
  files w' = files w ->
  fst (fetch_and_clean_file env path ctype w')
  = fst (fetch_and_clean_file env path ctype w).
Proof.
  intros Hf. unfold fetch_and_clean_file, bind.
  destruct (str_eqb ctype application_pdf).
  - rewrite !extract_text_from_pdf_eq, Hf.
    by destruct (match files w !! path with Some _ => _ | None => _ end).
  - destruct (str_eqb ctype application_docx); [|done].
    rewrite !extract_text_from_docx_eq, Hf.
    by destruct (match files w !! path with Some _ => _ | None => _ end).
Qed.

Lemma collection_add_eq ids documents metadatas w :
  collection_add env ids documents metadatas w
  = match add_fault env ids with
    | Some e => (Raise e, with_log (fun l => l ++ [CollectionAdd ids]) w)
    | None =>
        (Ok tt,
         with_collection
           (fun c => fold_left add_record (items ids documents metadatas) c)
           (with_log (fun l => l ++ [CollectionAdd ids]) w))
    end.
Proof.
  unfold collection_add. unfold_m. simpl.
  by destruct (add_fault env ids).
Qed.

End IngestSteps.

(** ** The two tasks, step by step *)

Section Tasks.

Context (env : Env).
Implicit Types (w : world) (job : IngestionJob) (id : str).

(** [process_file_task] in terms of the outcomes of its steps. Every path
    ends in a normal return. *)
Lemma process_file_task_eq id path ctype w :
  process_file_task env id path ctype w
  = match lookup_job id w with
    | None => (Ok ReturnNone, w)
    | Some job =>
        let w1 := snd (commit_status job RUNNING w) in
        let w2 := snd (fetch_and_clean_file env path ctype w1) in
        match rbind (fst (fetch_and_clean_file env path ctype w1))
                chunk_text with
        | Raise e => (Ok ReturnNone, snd (commit_status job FAILED w2))
        | Ok chunks =>
            let w3 :=
              snd (store_file_chunks_in_db env (url job) chunks w2) in
            match fst (store_file_chunks_in_db env (url job) chunks w2)
            with
            | Ok _ => (Ok ReturnNone, snd (commit_status job COMPLETED w3))
            | Raise e => (Ok ReturnNone, snd (commit_status job FAILED w3))
            end
        end
    end.
Proof.
  unfold process_file_task, lookup_job, first_by_id, bind at 1.
  destruct (List.find _ (jobs w)) as [job|]; [|done].
  unfold try_except, bind at 1. unfold commit_status at 1.
  cbv zeta. unfold bind at 1.
  destruct (fetch_and_clean_file env path ctype _) as [[text|e] w2];
    [|done].
  simpl. unfold bind at 1, lift.
  destruct (chunk_text text) as [chunks|e]; [|done].
  unfold bind at 1.
  destruct (store_file_chunks_in_db env (url job) chunks w2)
    as [[[]|e] w3]; done.
Qed.

(** The [except] clause of [process_url_task]. *)
Lemma url_task_handler_eq id e w :
  (rollback;;
   job <- first_by_id id;;
   match job with
   | Some job => commit_status job FAILED
   | None => ret tt
   end;;
   raise e) w
  = (Raise e : result task_return,
     match lookup_job id w with
     | Some job => snd (commit_status job FAILED w)
     | None => w
     end).
Proof.
  unfold lookup_job, first_by_id. unfold_m.
  simpl. by destruct (List.find _ (jobs w)).
Qed.

(** [process_url_task] in terms of the outcomes of its steps. A failed
    step leaves as the exception it raised, after the status write. *)
Lemma process_url_task_eq id target w :
  process_url_task env id target w
  = match lookup_job id w with
    | None => (Ok ReturnNone, w)
    | Some job =>
        let w1 := snd (commit_status job PROCESSING w) in
        let w2 := with_log (fun l => l ++ [HttpGet target]) w1 in
        let failed e w' :=
          (Raise e,
           match lookup_job id w' with
           | Some job' => snd (commit_status job' FAILED w')
           | None => w'
           end) in
        match get_text env target with
        | Raise e => failed e w2
        | Ok page =>
            let text := clean_whitespace page in
            if nonempty text then
              match chunk_text text with
              | Raise e => failed e w2
              | Ok chunks =>
                  let w3 :=
                    snd (store_chunks_in_db env target chunks w2) in
                  match fst (store_chunks_in_db env target chunks w2) with
                  | Ok _ =>
                      (Ok (ReturnStatus id COMPLETED),
                       snd (commit_status job COMPLETED w3))
                  | Raise e => failed e w3
                  end
              end
            else
              failed
                (ValueError
                   (py "Failed to get any text content from URL.")) w2
        end
    end.
Proof.
  unfold process_url_task, try_except, lookup_job.
  unfold bind at 1. unfold first_by_id at 1.
  destruct (List.find _ (jobs w)) as [job|] eqn:Ej; [|done].
  unfold bind at 1. unfold commit_status at 1. cbv zeta.
  unfold bind at 1. rewrite fetch_and_clean_text_eq.
  destruct (get_text env target) as [page|e];
    [|by cbv beta iota; rewrite url_task_handler_eq].
  unfold bind at 1.
  destruct (nonempty (clean_whitespace page));
    [|by unfold raise at 1; cbv beta iota; rewrite url_task_handler_eq].
  unfold ret at 1. unfold bind at 1, lift.
  destruct (chunk_text (clean_whitespace page)) as [chunks|e];
    [|by cbv beta iota; rewrite url_task_handler_eq].
  unfold bind at 1.
  destruct (store_chunks_in_db env target chunks _) as [[[]|e] w3];
    [done|by cbv beta iota; rewrite url_task_handler_eq].
Qed.

End Tasks.

(** ** The collection under [collection.add] *)

Section Collection.

Implicit Types (c : gmap str entry) (kvs : list (str * entry)).

Lemma rev_reverse {A} (l : list A) : rev l = reverse l.
Proof. unfold reverse. apply List.rev_alt. Qed.

(** Adding a record is a union in which the collection wins. *)
Lemma add_record_union c k (v : entry) :
  add_record c (k, v) = c ∪ {[ k := v ]}.
Proof.
  unfold add_record. simpl. destruct (c !! k) as [e|] eqn:E.
  - apply map_eq. intros i. destruct (decide (i = k)) as [->|Hne].
    + rewrite E. symmetry. by apply lookup_union_Some_l.
    + rewrite lookup_union_l; [done|]. by apply lookup_singleton_ne.
  - by apply insert_union_singleton_r.
Qed.

Lemma fold_add_union kvs c :
  fold_left add_record kvs c = c ∪ list_to_map kvs.
Proof.
  revert c. induction kvs as [|[k v] kvs IH]; intros c; simpl.
  - by rewrite (right_id_L ∅ (∪)).
  - rewrite IH, add_record_union, <- (assoc_L (∪)).
    by rewrite <- insert_union_singleton_l.
Qed.

(** Adding the same items a second time changes nothing. *)
Lemma fold_add_idem kvs c :
  fold_left add_record kvs (fold_left add_record kvs c)
  = fold_left add_record kvs c.
Proof.
  rewrite !fold_add_union.
  by rewrite <- (assoc_L (∪)), (idemp_L (∪)).
Qed.

Lemma fold_add_dom kvs c :
  dom (fold_left add_record kvs c) = list_to_set kvs.*1 ∪ dom c.
Proof.
  rewrite fold_add_union, dom_union_L, dom_list_to_map_L.
  apply (comm_L (∪)).
Qed.

(** An id the collection does not have gets the record given for it. *)
Lemma fold_add_lookup_new kvs c k v :
  NoDup kvs.*1 -> (k, v) ∈ kvs -> c !! k = None ->
  fold_left add_record kvs c !! k = Some v.
Proof.
  intros Hnd Hin Hk. rewrite fold_add_union, lookup_union_r by done.
  by apply elem_of_list_to_map_1.
Qed.

(** An id the collection has keeps its entry. *)
Lemma fold_add_lookup_old kvs c k e :
  c !! k = Some e -> fold_left add_record kvs c !! k = Some e.
Proof. intros Hk. rewrite fold_add_union. by apply lookup_union_Some_l. Qed.

Lemma fold_add_lookup_other kvs c k :
  k ∉ kvs.*1 -> fold_left add_record kvs c !! k = c !! k.
Proof.
  intros Hk. rewrite fold_add_union.
  by apply lookup_union_l, not_elem_of_list_to_map_1.
Qed.

(** *** Chunk ids *)

Lemma py_inj a b : py a = py b -> a = b.
Proof.
  unfold py. intros H.
  rewrite <- (string_of_list_ascii_of_string a).
  rewrite <- (string_of_list_ascii_of_string b). f_equal.
  revert H. generalize (list_ascii_of_string a) (list_ascii_of_string b).
  intros la. induction la as [|x la IH]; intros [|y lb]; simpl; try done.
  intros [= Hxy Hl]. f_equal; [|by apply IH].
  rewrite <- (ascii_N_embedding x), <- (ascii_N_embedding y).
  by rewrite Hxy.
Qed.

Lemma dec_inj i j : dec i = dec j -> i = j.
Proof.
  unfold dec. intros H. apply py_inj in H.
  apply Unsigned.to_uint_inj.
  pose proof (NilEmpty.usu (Nat.to_uint i)) as Hi.
  pose proof (NilEmpty.usu (Nat.to_uint j)) as Hj.
  rewrite H in Hi. congruence.
Qed.

Lemma chunk_id_inj source i j :
  chunk_id source i = chunk_id source j -> i = j.
Proof.
  unfold chunk_id. intros H.
  apply app_inv_head, app_inv_head in H. by apply dec_inj.
Qed.

Lemma chunk_ids_NoDup source chunks : NoDup (chunk_ids source chunks).
Proof.
  unfold chunk_ids. change (List.map ?f ?l) with (f <$> l).
  apply NoDup_fmap_2; [|apply NoDup_seq].
  intros i j. apply chunk_id_inj.
Qed.

Lemma chunk_ids_length source chunks :
  length (chunk_ids source chunks) = length chunks.
Proof. unfold chunk_ids. by rewrite List.length_map, List.length_seq. Qed.

Lemma combine_zip {A B} (l : list A) (k : list B) : combine l k = zip l k.
Proof.
  revert k. induction l as [|x l IH]; intros [|y k]; simpl; [done..|].
  by rewrite IH.
Qed.

Lemma stored_items_ids key source chunks :
  (stored_items key source chunks).*1 = chunk_ids source chunks.
Proof.
  unfold stored_items, items. rewrite !combine_zip. apply fst_zip.
  rewrite chunk_ids_length, List.length_map, length_zip_with.
  rewrite List.length_map. lia.
Qed.

Lemma chunk_ids_lookup source chunks i chunk :
  chunks !! i = Some chunk ->
  chunk_ids source chunks !! i = Some (chunk_id source i).
Proof.
  intros H. apply lookup_lt_Some in H. unfold chunk_ids.
  change (List.map ?f ?l) with (f <$> l).
  rewrite list_lookup_fmap, lookup_seq_lt by done. done.
Qed.

Lemma stored_items_elem key source chunks i chunk :
  chunks !! i = Some chunk ->
  (chunk_id source i,
   {| document := chunk; metadata := {[ key := source ]} |})
  ∈ stored_items key source chunks.
Proof.
  intros H. apply list_elem_of_lookup. exists i.
  unfold stored_items, items. rewrite !combine_zip.
  change (List.map ?f ?l) with (f <$> l).
  apply lookup_zip_with_Some.
  eexists _, _. split; [done|].
  split; [by eapply chunk_ids_lookup|].
  rewrite list_lookup_fmap.
  assert (Hz : zip chunks
                 ((fun _ => ({[ key := source ]} : gmap str str)) <$> chunks)
               !! i = Some (chunk, {[ key := source ]})).
  { apply lookup_zip_with_Some. eexists _, _. split; [done|].
    split; [exact H|]. by rewrite list_lookup_fmap, H. }
  change (List.map ?f ?l) with (f <$> l). by rewrite Hz.
Qed.

End Collection.

(** ** Frames of the worker steps *)

Section Frames.

Context (env : Env).
Implicit Types (w : world) (job : IngestionJob) (id : str).

Lemma advances_refl w : advances w w.
Proof. repeat split. exists []. by rewrite app_nil_r. Qed.

Lemma advances_trans w1 w2 w3 :
  advances w1 w2 -> advances w2 w3 -> advances w1 w3.
Proof.
  intros ([a1 a2] & a3 & a4 & e1 & a5) ([b1 b2] & b3 & b4 & e2 & b5).
  repeat split; try congruence.
  exists (e1 ++ e2). rewrite b5, a5. by rewrite app_assoc.
Qed.

Lemma logs_more_advances w w' : logs_more w w' -> advances w w'.
Proof.
  intros (a1 & a2 & a3 & a4 & a5). unfold advances, same_rows.
  by rewrite a1.
Qed.

Lemma commit_status_advances job st w :
  advances w (snd (commit_status job st w)).
Proof.
  repeat split; simpl.
  - rewrite List.map_map. apply List.map_ext. intros j.
    apply set_status_job_id.
  - apply map_set_status_keys.
  - by eexists.
Qed.

Lemma commit_status_collection job st w :
  collection (snd (commit_status job st w)) = collection w.
Proof. done. Qed.

Lemma lookup_job_same_jobs id w w' :
  jobs w' = jobs w -> lookup_job id w' = lookup_job id w.
Proof. unfold lookup_job. by intros ->. Qed.

Lemma lookup_commit id job job' st w :
  lookup_job id w = Some job' -> job_id job = id ->
  lookup_job id (snd (commit_status job st w))
  = Some {| job_id := job_id job'; url := url job'; status := st |}.
Proof.
  unfold lookup_job. intros H <-. simpl. rewrite find_set_status, H.
  simpl. unfold set_status.
  by rewrite (find_job_id _ _ _ H), str_eqb_refl.
Qed.

Lemma store_chunks_in_db_eq source chunks w :
  store_chunks_in_db env source chunks w
  = match chunks with
    | [] => (Ok tt, w)
    | _ :: _ =>
        let w' :=
          with_log (fun l => l ++ [CollectionAdd (chunk_ids source chunks)])
            w in
        match add_fault env (chunk_ids source chunks) with
        | Some e => (Raise e, w')
        | None =>
            (Ok tt,
             with_collection
               (fun c =>
                  fold_left add_record
                    (stored_items (py "source_url") source chunks) c)
               w')
        end
    end.
Proof.
  unfold store_chunks_in_db. destruct chunks as [|chunk chunks]; [done|].
  by rewrite collection_add_eq.
Qed.

Lemma store_file_chunks_in_db_eq source chunks w :
  store_file_chunks_in_db env source chunks w
  = match chunks with
    | [] => (Ok tt, w)
    | _ :: _ =>
        let w' :=
          with_log (fun l => l ++ [CollectionAdd (chunk_ids source chunks)])
            w in
        match add_fault env (chunk_ids source chunks) with
        | Some e => (Raise e, w')
        | None =>
            (Ok tt,
             with_collection
               (fun c =>
                  fold_left add_record
                    (stored_items (py "source_file") source chunks) c)
               w')
        end
    end.
Proof.
  unfold store_file_chunks_in_db.
  destruct chunks as [|chunk chunks]; [done|].
  by rewrite collection_add_eq.
Qed.

Lemma store_chunks_in_db_frame source chunks w :
  let w' := snd (store_chunks_in_db env source chunks w) in
  jobs w' = jobs w /\ files w' = files w /\ queue w' = queue w
  /\ (exists evs, log w' = log w ++ evs)
  /\ collection w'
     = store_effect env (py "source_url") source chunks (collection w).
Proof.
  rewrite store_chunks_in_db_eq. unfold store_effect.
  destruct chunks as [|chunk chunks]; simpl.
  - repeat split. exists []. by rewrite app_nil_r.
  - destruct (add_fault env _); simpl; repeat split; by eexists.
Qed.

Lemma store_file_chunks_in_db_frame source chunks w :
  let w' := snd (store_file_chunks_in_db env source chunks w) in
  jobs w' = jobs w /\ files w' = files w /\ queue w' = queue w
  /\ (exists evs, log w' = log w ++ evs)
  /\ collection w'
     = store_effect env (py "source_file") source chunks (collection w).
Proof.
  rewrite store_file_chunks_in_db_eq. unfold store_effect.
  destruct chunks as [|chunk chunks]; simpl.
  - repeat split. exists []. by rewrite app_nil_r.
  - destruct (add_fault env _); simpl; repeat split; by eexists.
Qed.

Lemma store_chunks_in_db_advances source chunks w :
  advances w (snd (store_chunks_in_db env source chunks w)).
Proof.
  destruct (store_chunks_in_db_frame source chunks w)
    as (a1 & a2 & a3 & a4 & _).
  unfold advances, same_rows. by rewrite a1.
Qed.

Lemma store_file_chunks_in_db_advances source chunks w :
  advances w (snd (store_file_chunks_in_db env source chunks w)).
Proof.
  destruct (store_file_chunks_in_db_frame source chunks w)
    as (a1 & a2 & a3 & a4 & _).
  unfold advances, same_rows. by rewrite a1.
Qed.

(** After a failure the handler of [process_url_task] has written
    [FAILED], when the job is there. *)
Lemma url_failed_advances id w :
  advances w
    (match lookup_job id w with
     | Some job' => snd (commit_status job' FAILED w)
     | None => w
     end).
Proof.
  destruct (lookup_job id w);
    [apply commit_status_advances|apply advances_refl].
Qed.

Lemma process_url_task_advances id target w :
  advances w (snd (process_url_task env id target w)).
Proof.
  rewrite process_url_task_eq.
  destruct (lookup_job id w) as [job|]; [|apply advances_refl].
  cbv zeta.
  eapply advances_trans; [apply (commit_status_advances job PROCESSING)|].
  eapply advances_trans;
    [apply logs_more_advances, (logs_more_emit _ (HttpGet target))|].
  destruct (get_text env target) as [page|e];
    [|apply url_failed_advances].
  destruct (nonempty (clean_whitespace page));
    [|apply url_failed_advances].
  destruct (chunk_text (clean_whitespace page)) as [chunks|e];
    [|apply url_failed_advances].
  eapply advances_trans; [apply store_chunks_in_db_advances|].
  destruct (fst (store_chunks_in_db env target chunks _));
    [apply commit_status_advances|apply url_failed_advances].
Qed.

Lemma process_file_task_advances id path ctype w :
  advances w (snd (process_file_task env id path ctype w)).
Proof.
  rewrite process_file_task_eq.
  destruct (lookup_job id w) as [job|]; [|apply advances_refl].
  cbv zeta.
  eapply advances_trans; [apply (commit_status_advances job RUNNING)|].
  eapply advances_trans;
    [apply logs_more_advances, fetch_and_clean_file_logs|].
  destruct (rbind _ chunk_text) as [chunks|e];
    [|apply commit_status_advances].
  eapply advances_trans; [apply store_file_chunks_in_db_advances|].
  destruct (fst (store_file_chunks_in_db env (url job) chunks _));
    apply commit_status_advances.
Qed.

End Frames.

(** ** The tasks and the job status *)

Section TaskStatus.

Context (env : Env).
Implicit Types (w : world) (job : IngestionJob) (id : str).

Lemma chunk_text_nil : chunk_text [] = Ok [].
Proof. by vm_compute. Qed.

Lemma clean_whitespace_nil : clean_whitespace [] = [].
Proof. by vm_compute. Qed.

Lemma fetch_and_clean_file_pdf path w :
  fst (fetch_and_clean_file env path application_pdf w)
  = match files w !! path with
    | Some content =>
        rbind (pdf_pages env content)
          (fun pages =>
             Ok (clean_whitespace
                   (concat (List.map (fun page => default [] page) pages))))
    | None => Raise (FileNotFoundError path)
    end.
Proof.
  unfold fetch_and_clean_file, bind.
  rewrite str_eqb_refl, extract_text_from_pdf_eq.
  destruct (files w !! path) as [content|]; [|done].
  by destruct (pdf_pages env content).
Qed.

(** Everything [process_file_task] does after its first status write. *)
Lemma file_task_after_running id path ctype w job :
  lookup_job id w = Some job ->
  advances (snd (commit_status job RUNNING w))
    (snd (process_file_task env id path ctype w)).
Proof.
  intros Hjob. rewrite process_file_task_eq, Hjob. cbv zeta.
  eapply advances_trans;
    [apply logs_more_advances, fetch_and_clean_file_logs|].
  destruct (rbind _ chunk_text) as [chunks|e];
    [|apply commit_status_advances].
  eapply advances_trans; [apply store_file_chunks_in_db_advances|].
  destruct (fst (store_file_chunks_in_db env (url job) chunks _));
    apply commit_status_advances.
Qed.

(** Everything [process_url_task] does after its first status write and
    the start of the fetch. *)
Lemma url_task_after_processing id target w job :
  lookup_job id w = Some job ->
  advances
    (with_log (fun l => l ++ [HttpGet target])
       (snd (commit_status job PROCESSING w)))
    (snd (process_url_task env id target w)).
Proof.
  intros Hjob. rewrite process_url_task_eq, Hjob. cbv zeta.
  destruct (get_text env target) as [page|e];
    [|apply url_failed_advances].
  destruct (nonempty (clean_whitespace page));
    [|apply url_failed_advances].
  destruct (chunk_text (clean_whitespace page)) as [chunks|e];
    [|apply url_failed_advances].
  eapply advances_trans; [apply store_chunks_in_db_advances|].
  destruct (fst (store_chunks_in_db env target chunks _));
    [apply commit_status_advances|apply url_failed_advances].
Qed.

(** The URL task starts with [PENDING -> PROCESSING], committed before
    the page is fetched. *)
Lemma url_task_first_status id target w job :
  lookup_job id w = Some job ->
  exists evs,
    log (snd (process_url_task env id target w))
    = log w ++ Commit id PROCESSING :: HttpGet target :: evs.
Proof.
  intros Hjob.
  destruct (url_task_after_processing id target w job Hjob)
    as (_ & _ & _ & evs & Hlog).
  exists evs. rewrite Hlog. simpl.
  rewrite <- !app_assoc. simpl.
  by rewrite (find_job_id _ _ _ Hjob).
Qed.

Lemma lookup_job_advances id w w' job :
  jobs w' = jobs w -> lookup_job id w = Some job ->
  lookup_job id w' = Some job.
Proof. intros H. by rewrite (lookup_job_same_jobs id w w' H). Qed.

(** Where the handler of the URL task leaves the job. *)
Lemma url_failed_status id w job :
  lookup_job id w = Some job ->
  lookup_job id
    (match lookup_job id w with
     | Some job' => snd (commit_status job' FAILED w)
     | None => w
     end)
  = Some {| job_id := job_id job; url := url job; status := FAILED |}.
Proof.
  intros H. rewrite H. apply lookup_commit; [done|].
  by apply find_job_id in H.
Qed.

(** The URL task hands every failure on to celery, and has written
    [FAILED] by then. *)
Lemma url_task_failure_propagates id target w job e :
  lookup_job id w = Some job ->
  fst (process_url_task env id target w) = Raise e ->
  lookup_job id (snd (process_url_task env id target w))
  = Some {| job_id := job_id job; url := url job; status := FAILED |}.
Proof.
  intros Hjob. rewrite process_url_task_eq, Hjob. cbv zeta.
  pose proof (find_job_id _ _ _ Hjob) as Hid.
  assert (H2 : lookup_job id
                 (with_log (fun l => l ++ [HttpGet target])
                    (snd (commit_status job PROCESSING w)))
               = Some {| job_id := job_id job; url := url job;
                         status := PROCESSING |}).
  { rewrite (lookup_job_same_jobs id (snd (commit_status job PROCESSING w)))
      by done.
    by apply lookup_commit. }
  destruct (get_text env target) as [page|e'].
  2:{ intros _. cbn [snd]. by rewrite (url_failed_status _ _ _ H2). }
  destruct (nonempty (clean_whitespace page)).
  2:{ intros _. cbn [snd]. by rewrite (url_failed_status _ _ _ H2). }
  destruct (chunk_text (clean_whitespace page)) as [chunks|e'].
  2:{ intros _. cbn [snd]. by rewrite (url_failed_status _ _ _ H2). }
  destruct (store_chunks_in_db_frame env target chunks
              (with_log (fun l => l ++ [HttpGet target])
                 (snd (commit_status job PROCESSING w))))
    as (Hj & _).
  destruct (fst (store_chunks_in_db env target chunks _)); [done|].
  intros _. cbn [snd].
  by rewrite (url_failed_status _ _ _ (lookup_job_advances _ _ _ _ Hj H2)).
Qed.

Lemma url_task_extraction_failure id target w job e :
  lookup_job id w = Some job ->
  get_text env target = Raise e ->
  fst (process_url_task env id target w) = Raise e.
Proof.
  intros Hjob He. by rewrite process_url_task_eq, Hjob, He.
Qed.

(** An empty text is a failure of the URL task. *)
Lemma url_task_empty_text_fails id target w job page :
  lookup_job id w = Some job ->
  get_text env target = Ok page ->
  clean_whitespace page = [] ->
  fst (process_url_task env id target w)
  = Raise (ValueError (py "Failed to get any text content from URL."))
  /\ lookup_job id (snd (process_url_task env id target w))
     = Some {| job_id := job_id job; url := url job; status := FAILED |}.
Proof.
  intros Hjob Hpage Hempty.
  assert (H : fst (process_url_task env id target w)
              = Raise (ValueError
                         (py "Failed to get any text content from URL."))).
  { by rewrite process_url_task_eq, Hjob, Hpage, Hempty. }
  split; [done|]. by eapply url_task_failure_propagates.
Qed.

End TaskStatus.

(** ** C1, C3, C4: the file task against the design *)

(** C1 (the code departs from it). When the extraction of a PDF yields
    empty text, [process_file_task] does not fail the job: there is no
    empty-text check on this path, the chunker returns no chunk, nothing is
    stored, and the job ends in status COMPLETED with a normal return.
    [process_url_task] has the check ([url_task_empty_text_fails]). *)
Theorem file_task_empty_text_completes
    (env : Env) (id path : str) (w : world) (job : IngestionJob)
    (content : bytes) (pages : list (option str)) :
  lookup_job id w = Some job ->
  files w !! path = Some content ->
  pdf_pages env content = Ok pages ->
  clean_whitespace (concat (List.map (fun page => default [] page) pages))
  = [] ->
  fst (process_file_task env id path application_pdf w) = Ok ReturnNone
  /\ lookup_job id (snd (process_file_task env id path application_pdf w))
     = Some {| job_id := job_id job; url := url job; status := COMPLETED |}
  /\ collection (snd (process_file_task env id path application_pdf w))
     = collection w.
Proof.
  intros Hjob Hfile Hpages Hempty.
  pose proof (find_job_id _ _ _ Hjob) as Hid.
  rewrite process_file_task_eq, Hjob. cbv zeta.
  pose proof (fetch_and_clean_file_logs env path application_pdf
                (snd (commit_status job RUNNING w)))
    as (Hj & Hc & _).
  rewrite fetch_and_clean_file_pdf. simpl files.
  rewrite Hfile, Hpages. simpl rbind. rewrite Hempty, chunk_text_nil.
  rewrite store_file_chunks_in_db_eq. cbn [fst snd].
  split; [done|]. split.
  - rewrite (lookup_commit id job
               {| job_id := job_id job; url := url job; status := RUNNING |});
      [done| |done].
    rewrite (lookup_job_same_jobs _ _ _ Hj). by apply lookup_commit.
  - by rewrite commit_status_collection, Hc, commit_status_collection.
Qed.

Lemma file_task_empty_text_completes_witness :
  lookup_job (py "job-1") pdf_world
  = Some {| job_id := py "job-1"; url := py "tmpabcdefgh.pdf";
            status := PENDING |}
  /\ lookup_job (py "job-1")
       (snd (process_file_task (sample_env (Ok [None; Some []]))
               (py "job-1") sample_pdf_path application_pdf pdf_world))
     = Some {| job_id := py "job-1"; url := py "tmpabcdefgh.pdf";
               status := COMPLETED |}.
Proof.
  split; [reflexivity|].
  apply (file_task_empty_text_completes
           (sample_env (Ok [None; Some []])) (py "job-1") sample_pdf_path
           pdf_world
           {| job_id := py "job-1"; url := py "tmpabcdefgh.pdf";
              status := PENDING |}
           (file_content sample_pdf) [None; Some []]);
    reflexivity.
Defined.

(** C3 (the code departs from it). [process_file_task] never hands a
    failure to celery: whatever happens, it returns normally. When the
    extraction raises, the job is marked FAILED and the exception is
    dropped after the status write. [process_url_task] re-raises
    ([url_task_failure_propagates], [url_task_extraction_failure]). *)
Theorem file_task_swallows_failure
    (env : Env) (id path ctype : str) (w : world) :
  fst (process_file_task env id path ctype w) = Ok ReturnNone
  /\ forall job e,
       lookup_job id w = Some job ->
       fst (fetch_and_clean_file env path ctype w) = Raise e ->
       lookup_job id (snd (process_file_task env id path ctype w))
       = Some {| job_id := job_id job; url := url job; status := FAILED |}.
Proof.
  split.
  - rewrite process_file_task_eq.
    destruct (lookup_job id w) as [job|]; [|done]. cbv zeta.
    destruct (rbind _ chunk_text); [|done].
    by destruct (fst (store_file_chunks_in_db env (url job) _ _)).
  - intros job e Hjob He.
    pose proof (find_job_id _ _ _ Hjob) as Hid.
    rewrite process_file_task_eq, Hjob. cbv zeta.
    pose proof (fetch_and_clean_file_logs env path ctype
                  (snd (commit_status job RUNNING w)))
      as (Hj & _).
    rewrite (fetch_and_clean_file_result env path ctype w
               (snd (commit_status job RUNNING w))) by done.
    rewrite He. simpl rbind. cbn [snd].
    rewrite (lookup_commit id job
               {| job_id := job_id job; url := url job; status := RUNNING |});
      [done| |done].
    rewrite (lookup_job_same_jobs _ _ _ Hj). by apply lookup_commit.
Qed.

Lemma file_task_swallows_failure_witness :
  fst (fetch_and_clean_file
         (sample_env (Raise (ExternalError (py "EOF marker not found"))))
         sample_pdf_path application_pdf pdf_world)
  = Raise (ExternalError (py "EOF marker not found"))
  /\ fst (process_file_task
            (sample_env (Raise (ExternalError (py "EOF marker not found"))))
            (py "job-1") sample_pdf_path application_pdf pdf_world)
     = Ok ReturnNone
  /\ lookup_job (py "job-1")
       (snd (process_file_task
               (sample_env (Raise (ExternalError (py "EOF marker not found"))))
               (py "job-1") sample_pdf_path application_pdf pdf_world))
     = Some {| job_id := py "job-1"; url := py "tmpabcdefgh.pdf";
               status := FAILED |}.
Proof.
  split; [reflexivity|].
  destruct (file_task_swallows_failure
              (sample_env (Raise (ExternalError (py "EOF marker not found"))))
              (py "job-1") sample_pdf_path application_pdf pdf_world)
    as [H1 H2].
  split; [exact H1|].
  apply (H2 {| job_id := py "job-1"; url := py "tmpabcdefgh.pdf";
               status := PENDING |}
            (ExternalError (py "EOF marker not found")));
    reflexivity.
Defined.

(** C4 (the code departs from it). The first status [process_file_task]
    writes to an existing job is RUNNING, which is none of PENDING,
    PROCESSING, COMPLETED, FAILED; it is committed before the file is
    opened. [process_url_task] writes PROCESSING at that point
    ([url_task_first_status]). *)
Theorem file_task_first_status
    (env : Env) (id path ctype : str) (w : world) (job : IngestionJob) :
  lookup_job id w = Some job ->
  (exists evs,
     log (snd (process_file_task env id path ctype w))
     = log w ++ Commit id RUNNING :: evs)
  /\ ~ In RUNNING [PENDING; PROCESSING; COMPLETED; FAILED].
Proof.
  intros Hjob. split.
  - destruct (file_task_after_running env id path ctype w job Hjob)
      as (_ & _ & _ & evs & Hlog).
    exists evs. rewrite Hlog. simpl.
    rewrite <- app_assoc. simpl. by rewrite (find_job_id _ _ _ Hjob).
  - vm_compute. intros [H|[H|[H|[H|[]]]]]; discriminate H.
Qed.

Lemma file_task_first_status_witness :
  lookup_job (py "job-1") pdf_world
  = Some {| job_id := py "job-1"; url := py "tmpabcdefgh.pdf";
            status := PENDING |}
  /\ exists evs,
       log (snd (process_file_task (sample_env (Ok [Some (py "Some text")]))
                   (py "job-1") sample_pdf_path application_pdf pdf_world))
       = log pdf_world ++ Commit (py "job-1") RUNNING :: evs.
Proof.
  split; [reflexivity|].
  apply (file_task_first_status (sample_env (Ok [Some (py "Some text")]))
           (py "job-1") sample_pdf_path application_pdf pdf_world
           {| job_id := py "job-1"; url := py "tmpabcdefgh.pdf";
              status := PENDING |}).
  reflexivity.
Defined.

(** ** Reprocessing *)

Section Reprocessing.

Context (env : Env).
Implicit Types (w : world) (job : IngestionJob) (id : str)
  (c : gmap str entry).

Lemma store_effect_idem key source chunks c :
  store_effect env key source chunks (store_effect env key source chunks c)
  = store_effect env key source chunks c.
Proof.
  unfold store_effect. destruct chunks as [|chunk chunks]; [done|].
  destruct (add_fault env _); [done|]. apply fold_add_idem.
Qed.

Lemma url_task_effect_idem target c :
  url_task_effect env target (url_task_effect env target c)
  = url_task_effect env target c.
Proof.
  unfold url_task_effect. destruct (get_text env target); [|done].
  destruct (nonempty _); [|done].
  destruct (chunk_text _); [|done]. apply store_effect_idem.
Qed.

Lemma file_task_effect_idem key text c :
  file_task_effect env key text (file_task_effect env key text c)
  = file_task_effect env key text c.
Proof.
  unfold file_task_effect. destruct (rbind text chunk_text); [|done].
  apply store_effect_idem.
Qed.

Lemma url_failed_collection id w :
  collection
    (match lookup_job id w with
     | Some job' => snd (commit_status job' FAILED w)
     | None => w
     end)
  = collection w.
Proof. by destruct (lookup_job id w). Qed.

Lemma url_task_collection id target w :
  collection (snd (process_url_task env id target w))
  = match lookup_job id w with
    | Some _ => url_task_effect env target (collection w)
    | None => collection w
    end.
Proof.
  rewrite process_url_task_eq. unfold url_task_effect.
  destruct (lookup_job id w) as [job|]; [|done]. cbv zeta.
  destruct (get_text env target) as [page|e];
    [|by cbn [snd]; rewrite url_failed_collection].
  destruct (nonempty (clean_whitespace page));
    [|by cbn [snd]; rewrite url_failed_collection].
  destruct (chunk_text (clean_whitespace page)) as [chunks|e];
    [|by cbn [snd]; rewrite url_failed_collection].
  destruct (store_chunks_in_db_frame env target chunks
              (with_log (fun l => l ++ [HttpGet target])
                 (snd (commit_status job PROCESSING w))))
    as (_ & _ & _ & _ & Hc).
  destruct (fst (store_chunks_in_db env target chunks _)); cbn [snd].
  - by rewrite commit_status_collection, Hc.
  - by rewrite url_failed_collection, Hc.
Qed.

Lemma file_task_collection id path ctype w :
  collection (snd (process_file_task env id path ctype w))
  = match lookup_job id w with
    | Some job =>
        file_task_effect env (url job)
          (fst (fetch_and_clean_file env path ctype w)) (collection w)
    | None => collection w
    end.
Proof.
  rewrite process_file_task_eq. unfold file_task_effect.
  destruct (lookup_job id w) as [job|]; [|done]. cbv zeta.
  pose proof (fetch_and_clean_file_logs env path ctype
                (snd (commit_status job RUNNING w)))
    as (_ & Hc & _).
  rewrite (fetch_and_clean_file_result env path ctype w
             (snd (commit_status job RUNNING w))) by done.
  destruct (rbind _ chunk_text) as [chunks|e]; cbn [snd].
  2:{ by rewrite commit_status_collection, Hc. }
  destruct (store_file_chunks_in_db_frame env (url job) chunks
              (snd (fetch_and_clean_file env path ctype
                      (snd (commit_status job RUNNING w)))))
    as (_ & _ & _ & _ & Hs).
  destruct (fst (store_file_chunks_in_db env (url job) chunks _));
    cbn [snd]; by rewrite commit_status_collection, Hs, Hc.
Qed.

(** Rows that only changed status are found under the same ids, with the
    same keys. *)
Lemma same_rows_lookup id w w' job :
  same_rows w w' -> lookup_job id w = Some job ->
  exists job', lookup_job id w' = Some job' /\ url job' = url job.
Proof.
  unfold same_rows, lookup_job. intros [Hi Hu].
  revert Hi Hu. generalize (jobs w') as js'. generalize (jobs w) as js.
  induction js as [|j js IH]; intros [|j' js'] Hi Hu; simpl in *;
    try discriminate.
  injection Hi as Hi1 Hi2. injection Hu as Hu1 Hu2.
  rewrite Hi1. destruct (str_eqb (job_id j) id).
  - intros [= <-]. by exists j'.
  - by apply IH.
Qed.

Lemma same_rows_lookup_none id w w' :
  same_rows w w' -> lookup_job id w = None -> lookup_job id w' = None.
Proof.
  unfold same_rows, lookup_job. intros [Hi _].
  revert Hi. generalize (jobs w') as js'. generalize (jobs w) as js.
  induction js as [|j js IH]; intros [|j' js'] Hi; simpl in *;
    try discriminate; [done|].
  injection Hi as Hi1 Hi2.
  rewrite Hi1. destruct (str_eqb (job_id j) id); [done|]. by apply IH.
Qed.

Lemma url_task_twice id target w :
  collection (run env (UrlTask id target) (run env (UrlTask id target) w))
  = collection (run env (UrlTask id target) w).
Proof.
  simpl. rewrite !url_task_collection.
  pose proof (process_url_task_advances env id target w) as (Hr & _).
  destruct (lookup_job id w) as [job|] eqn:Hjob.
  - destruct (same_rows_lookup _ _ _ _ Hr Hjob) as (job' & -> & _).
    apply url_task_effect_idem.
  - by rewrite (same_rows_lookup_none _ _ _ Hr Hjob).
Qed.

Lemma file_task_twice id path ctype w :
  collection (run env (FileTask id path ctype)
                (run env (FileTask id path ctype) w))
  = collection (run env (FileTask id path ctype) w).
Proof.
  simpl. rewrite !file_task_collection.
  pose proof (process_file_task_advances env id path ctype w)
    as (Hr & Hf & _).
  rewrite (fetch_and_clean_file_result env path ctype w _ Hf).
  destruct (lookup_job id w) as [job|] eqn:Hjob.
  - destruct (same_rows_lookup _ _ _ _ Hr Hjob) as (job' & -> & ->).
    apply file_task_effect_idem.
  - by rewrite (same_rows_lookup_none _ _ _ Hr Hjob).
Qed.

(** What a store leaves in the collection: the ids of the chunks beside
    what was there; a chunk whose id is new under that id, with its
    metadata; an entry that was there under such an id as it was. *)
Lemma store_effect_stored key source chunks c :
  add_fault env (chunk_ids source chunks) = None ->
  dom (store_effect env key source chunks c)
  = list_to_set (chunk_ids source chunks) ∪ dom c
  /\ forall i chunk,
       chunks !! i = Some chunk ->
       store_effect env key source chunks c !! chunk_id source i
       = match c !! chunk_id source i with
         | Some old => Some old
         | None =>
             Some {| document := chunk; metadata := {[ key := source ]} |}
         end.
Proof.
  intros Hok. unfold store_effect.
  destruct chunks as [|chunk0 chunks'].
  { split; [|done]. change (chunk_ids source []) with ([] : list str).
    simpl. by rewrite (left_id_L ∅ (∪)). }
  rewrite Hok. split.
  - by rewrite fold_add_dom, stored_items_ids.
  - intros i chunk Hi.
    destruct (c !! chunk_id source i) as [old|] eqn:E.
    + by apply fold_add_lookup_old.
    + apply fold_add_lookup_new; [|by apply stored_items_elem|done].
      rewrite stored_items_ids. apply chunk_ids_NoDup.
Qed.

(** The same for a run of a task, for a job that exists. *)
Lemma url_task_stored id target w job page chunks :
  lookup_job id w = Some job ->
  get_text env target = Ok page ->
  clean_whitespace page <> [] ->
  chunk_text (clean_whitespace page) = Ok chunks ->
  add_fault env (chunk_ids target chunks) = None ->
  let c' := collection (run env (UrlTask id target) w) in
  dom c' = list_to_set (chunk_ids target chunks) ∪ dom (collection w)
  /\ forall i chunk,
       chunks !! i = Some chunk ->
       c' !! chunk_id target i
       = match collection w !! chunk_id target i with
         | Some old => Some old
         | None =>
             Some {| document := chunk;
                     metadata := {[ py "source_url" := target ]} |}
         end.
Proof.
  intros Hjob Hpage Hne Hchunks Hok. simpl.
  rewrite url_task_collection, Hjob. unfold url_task_effect.
  rewrite Hpage, Hchunks.
  destruct (clean_whitespace page); [done|]. simpl nonempty. cbv iota.
  by apply store_effect_stored.
Qed.

Lemma file_task_stored id path ctype w job text chunks :
  lookup_job id w = Some job ->
  fst (fetch_and_clean_file env path ctype w) = Ok text ->
  chunk_text text = Ok chunks ->
  add_fault env (chunk_ids (url job) chunks) = None ->
  let c' := collection (run env (FileTask id path ctype) w) in
  dom c' = list_to_set (chunk_ids (url job) chunks) ∪ dom (collection w)
  /\ forall i chunk,
       chunks !! i = Some chunk ->
       c' !! chunk_id (url job) i
       = match collection w !! chunk_id (url job) i with
         | Some old => Some old
         | None =>
             Some {| document := chunk;
                     metadata := {[ py "source_file" := url job ]} |}
         end.
Proof.
  intros Hjob Htext Hchunks Hok. simpl.
  rewrite file_task_collection, Hjob. unfold file_task_effect.
  rewrite Htext. simpl rbind. rewrite Hchunks.
  by apply store_effect_stored.
Qed.

End Reprocessing.

(** C2 (amended). Running a task twice for the same job and the same
    content leaves the collection as one run leaves it, so the set of chunk
    ids is the same; the ids a run writes are exactly
    ["{source_key}_{i}"] for the positions [i] of the chunks, beside the
    ids that were there; a chunk whose id is new becomes an entry with its
    text and its source key, and an id that is already in the collection
    keeps the entry it has: no second entry, and no overwrite. The last
    four parts say so for the two store functions and for a run of each
    task. *)
Theorem reprocessing_is_idempotent (env : Env) :
  (forall id target w,
     collection (run env (UrlTask id target) (run env (UrlTask id target) w))
     = collection (run env (UrlTask id target) w))
  /\ (forall id path ctype w,
        collection (run env (FileTask id path ctype)
                      (run env (FileTask id path ctype) w))
        = collection (run env (FileTask id path ctype) w))
  /\ (forall source chunks w,
        add_fault env (chunk_ids source chunks) = None ->
        let c' := collection (snd (store_chunks_in_db env source chunks w)) in
        dom c' = list_to_set (chunk_ids source chunks) ∪ dom (collection w)
        /\ forall i chunk,
             chunks !! i = Some chunk ->
             c' !! (source ++ py "_" ++ dec i)
             = match collection w !! (source ++ py "_" ++ dec i) with
               | Some old => Some old
               | None =>
                   Some {| document := chunk;
                           metadata := {[ py "source_url" := source ]} |}
               end)
  /\ (forall source chunks w,
        add_fault env (chunk_ids source chunks) = None ->
        let c' :=
          collection (snd (store_file_chunks_in_db env source chunks w)) in
        dom c' = list_to_set (chunk_ids source chunks) ∪ dom (collection w)
        /\ forall i chunk,
             chunks !! i = Some chunk ->
             c' !! (source ++ py "_" ++ dec i)
             = match collection w !! (source ++ py "_" ++ dec i) with
               | Some old => Some old
               | None =>
                   Some {| document := chunk;
                           metadata := {[ py "source_file" := source ]} |}
               end)
  /\ (forall id target w job page chunks,
        lookup_job id w = Some job ->
        get_text env target = Ok page ->
        clean_whitespace page <> [] ->
        chunk_text (clean_whitespace page) = Ok chunks ->
        add_fault env (chunk_ids target chunks) = None ->
        let c' := collection (run env (UrlTask id target) w) in
        dom c' = list_to_set (chunk_ids target chunks) ∪ dom (collection w)
        /\ forall i chunk,
             chunks !! i = Some chunk ->
             c' !! (target ++ py "_" ++ dec i)
             = match collection w !! (target ++ py "_" ++ dec i) with
               | Some old => Some old
               | None =>
                   Some {| document := chunk;
                           metadata := {[ py "source_url" := target ]} |}
               end)
  /\ (forall id path ctype w job text chunks,
        lookup_job id w = Some job ->
        fst (fetch_and_clean_file env path ctype w) = Ok text ->
        chunk_text text = Ok chunks ->
        add_fault env (chunk_ids (url job) chunks) = None ->
        let c' := collection (run env (FileTask id path ctype) w) in
        dom c' = list_to_set (chunk_ids (url job) chunks) ∪ dom (collection w)
        /\ forall i chunk,
             chunks !! i = Some chunk ->
             c' !! (url job ++ py "_" ++ dec i)
             = match collection w !! (url job ++ py "_" ++ dec i) with
               | Some old => Some old
               | None =>
                   Some {| document := chunk;
                           metadata := {[ py "source_file" := url job ]} |}
               end).
Proof.
  split; [apply url_task_twice|]. split; [apply file_task_twice|].
  split; [|split; [|split]].
  - intros source chunks w Hok.
    destruct (store_chunks_in_db_frame env source chunks w)
      as (_ & _ & _ & _ & ->).
    by apply store_effect_stored.
  - intros source chunks w Hok.
    destruct (store_file_chunks_in_db_frame env source chunks w)
      as (_ & _ & _ & _ & ->).
    by apply store_effect_stored.
  - intros id target w job page chunks. apply url_task_stored.
  - intros id path ctype w job text chunks. apply file_task_stored.
Qed.

(** ** The submission endpoints, step by step *)

Section Submission.

Context (env : Env).
Implicit Types (w : world) (job : IngestionJob) (key : str).

Lemma ingest_url_eq new_id u w :
  ingest_url env new_id u w
  = match List.find (fun j => str_eqb (url j) (url_str u)) (jobs w) with
    | Some existing =>
        (Raise (HTTPException 409
                  (py "URL has already been submitted. Job ID: "
                   ++ job_id existing ++ py ", Status: "
                   ++ status existing)),
         w)
    | None =>
        let msg := {| task_name := py "process_url_task";
                      task_args := [new_id; url_str u] |} in
        let w1 :=
          snd (add_job {| job_id := new_id; url := url_str u;
                          status := PENDING |} w) in
        match send_fault env msg with
        | None =>
            (Ok (IngestResponse new_id), with_queue (fun q => q ++ [msg]) w1)
        | Some (HTTPException code detail) =>
            (Raise (HTTPException code detail), w1)
        | Some e =>
            (Raise (HTTPException 500
                      (py "Failed to create and schedule job: "
                       ++ exn_str e)),
             w1)
        end
    end.
Proof.
  unfold ingest_url, except_HTTPException, try_except.
  unfold bind at 1. unfold first_by_url at 1.
  destruct (List.find _ (jobs w)) as [existing|]; [done|].
  unfold bind at 1. unfold add_job at 1. unfold bind at 1.
  unfold send_task. cbv zeta.
  by destruct (send_fault env _) as [[]|].
Qed.

Lemma ingest_file_eq new_id candidates file w :
  ingest_file env new_id candidates file w
  = if negb (existsb (str_eqb (content_type file)) allowed_types)
    then
      (Raise (HTTPException 400
                (py "Only PDF and DOCX files are supported.")), w)
    else
      let failed e w' :=
        (Raise (HTTPException 500
                  (py "Failed to create and schedule file ingest job: "
                   ++ exn_str e)), w') in
      match unused_name (tempdir env) (upload_suffix (content_type file))
              candidates (files w) with
      | Raise e => failed e w
      | Ok path =>
          let w1 :=
            with_files (fun fs => <[path := file_content file]> fs) w in
          match List.find (fun j => str_eqb (url j) (basename path))
                  (jobs w) with
          | Some existing =>
              failed
                (HTTPException 409
                   (py "File has already been submitted. Job ID: "
                    ++ job_id existing ++ py ", Status: "
                    ++ status existing))
                w1
          | None =>
              let msg := {| task_name := py "process_file_task";
                            task_args := [new_id; path;
                                          content_type file] |} in
              let w2 :=
                snd (add_job {| job_id := new_id; url := basename path;
                                status := PENDING |} w1) in
              match send_fault env msg with
              | None =>
                  (Ok (FileAccepted new_id PENDING
                         (py "File has been accepted and is pending processing.")),
                   with_queue (fun q => q ++ [msg]) w2)
              | Some e => failed e w2
              end
          end
      end.
Proof.
  unfold ingest_file.
  destruct (negb _); [done|].
  unfold try_except. cbv zeta.
  unfold bind at 1. unfold NamedTemporaryFile at 1.
  destruct (unused_name _ _ _ _) as [path|e]; [|done].
  unfold bind at 1. unfold first_by_url at 1.
  change (jobs (with_files ?f w)) with (jobs w).
  destruct (List.find _ (jobs w)) as [existing|];
    [by unfold rollback, bind, ret, raise|].
  unfold bind at 1. unfold add_job at 1. unfold bind at 1.
  unfold send_task.
  destruct (send_fault env _); by unfold rollback, bind, ret, raise.
Qed.

Lemma find_url_none key (js : list IngestionJob) :
  List.find (fun j => str_eqb (url j) key) js = None
  <-> ~ In key (List.map url js).
Proof.
  induction js as [|j js IH]; simpl; [tauto|].
  destruct (str_eqb (url j) key) eqn:E.
  - apply str_eqb_eq in E. split; [done|]. intros H. tauto.
  - apply str_eqb_neq in E. rewrite IH. tauto.
Qed.

Lemma find_url_some key (js : list IngestionJob) j :
  In j js -> url j = key ->
  exists existing,
    List.find (fun j => str_eqb (url j) key) js = Some existing
    /\ In existing js /\ url existing = key.
Proof.
  intros Hin Hkey.
  destruct (List.find (fun j => str_eqb (url j) key) js) as [existing|]
    eqn:E.
  - exists existing. apply List.find_some in E as [H1 H2].
    by apply str_eqb_eq in H2.
  - exfalso. apply find_url_none in E. apply E.
    apply List.in_map_iff. by exists j.
Qed.

End Submission.

(** ** The query pipeline *)

Section QueryPipeline.

Context (env : Env).
Implicit Types (w : world) (q : str).

Lemma collection_query_eq text n w :
  collection_query env text n w
  = (match query_fault env text with
     | Some e => Raise e
     | None => Ok (retrieve env text n (collection w))
     end,
     with_log (fun l => l ++ [CollectionQuery text]) w).
Proof.
  unfold collection_query. unfold_m. simpl.
  by destruct (query_fault env text).
Qed.

Lemma collection_query_result text n w w' :
  collection w' = collection w ->
  fst (collection_query env text n w') = fst (collection_query env text n w).
Proof. intros H. by rewrite !collection_query_eq, H. Qed.

(** The enrichment stage never fails the query: it falls back to the raw
    text. *)
Lemma enrich_stage_eq q w :
  try_except
    (content <- completion enrich_model (enrich_completion env)
                  (enrich_prompt q);;
     ret (strip content))
    (fun _ => ret q) w
  = (Ok (improved_query env q),
     with_log
       (fun l => l ++ [Completion enrich_model (enrich_prompt q)]) w).
Proof.
  unfold improved_query, completion. unfold_m. simpl.
  by destruct (enrich_completion env (enrich_prompt q)).
Qed.

(** [query_rag_engine] in terms of the answers of its collaborators. *)
Lemma query_rag_engine_eq q w :
  query_rag_engine env q w
  = let improved := improved_query env q in
    let w2 :=
      with_log
        (fun l => l ++ [Completion enrich_model (enrich_prompt q);
                        CollectionQuery improved]) w in
    match query_fault env improved with
    | Some e => (Raise e, w2)
    | None =>
        let results := retrieve env improved 3 (collection w) in
        match List.map document results with
        | [] =>
            (Ok {| answer := not_found_answer; sources := [];
                   enriched_query := improved |}, w2)
        | _ :: _ =>
            let prompt :=
              answer_prompt
                (join (nl ++ py "---" ++ nl) (List.map document results))
                improved in
            let w3 :=
              with_log (fun l => l ++ [Completion answer_model prompt]) w2 in
            match chat_completion env prompt with
            | Ok text =>
                (Ok {| answer := text;
                       sources := source_urls (List.map metadata results);
                       enriched_query := improved |}, w3)
            | Raise e => (Raise e, w3)
            end
        end
    end.
Proof.
  unfold query_rag_engine. unfold bind at 1. rewrite enrich_stage_eq.
  unfold bind at 1. rewrite collection_query_eq. cbv zeta.
  change (collection (with_log ?f w)) with (collection w).
  assert (Hlog : forall e1 e2,
             with_log (fun l => l ++ [e2]) (with_log (fun l => l ++ [e1]) w)
             = with_log (fun l => l ++ [e1; e2]) w).
  { intros e1 e2. unfold with_log. simpl. by rewrite <- app_assoc. }
  rewrite Hlog.
  destruct (query_fault env (improved_query env q)); [done|].
  destruct (List.map document _) as [|d ds]; [done|].
  unfold completion. unfold_m. simpl.
  by destruct (chat_completion env _).
Qed.

Lemma query_rag_engine_logs q w :
  logs_more w (snd (query_rag_engine env q w)).
Proof.
  rewrite query_rag_engine_eq. cbv zeta.
  destruct (query_fault env _); [repeat split; by eexists|].
  destruct (List.map document _); [repeat split; by eexists|].
  destruct (chat_completion env _); simpl;
    (eapply logs_more_trans; [|apply logs_more_emit]);
    repeat split; by eexists.
Qed.

Lemma query_eq q w :
  query env q w
  = (match fst (query_rag_engine env q w) with
     | Ok result =>
         Ok {| response_answer := answer result;
               response_sources := sources result |}
     | Raise e =>
         Raise (HTTPException 500
                  (py "An error occurred during the query process: "
                   ++ exn_str e))
     end,
     snd (query_rag_engine env q w)).
Proof.
  unfold query. unfold_m.
  by destruct (query_rag_engine env q w) as [[result|e] w'].
Qed.

Lemma query_logs q w : logs_more w (snd (query env q w)).
Proof. rewrite query_eq. apply query_rag_engine_logs. Qed.

(** The sources of an answer: the distinct values found under
    ["source_url"] in the metadata of the retrieved chunks, the empty
    string standing in where the key is missing. *)
Lemma source_urls_spec (metadatas : list (gmap str str)) :
  NoDup (source_urls metadatas)
  /\ forall s,
       In s (source_urls metadatas)
       <-> exists meta,
             In meta metadatas /\ default [] (meta !! py "source_url") = s.
Proof.
  unfold source_urls. split; [apply NoDup_elements|].
  intros s. rewrite <- list_elem_of_In, elem_of_elements,
    elem_of_list_to_set, list_elem_of_In, List.in_map_iff.
  split; intros (meta & H1 & H2); exists meta; done.
Qed.

Lemma source_urls_unattributed (metadatas : list (gmap str str)) :
  metadatas <> [] ->
  (forall meta, In meta metadatas -> meta !! py "source_url" = None) ->
  source_urls metadatas = [[]].
Proof.
  intros Hne Hall. unfold source_urls.
  replace (list_to_set _ : gset str) with ({[ [] ]} : gset str).
  - apply elements_singleton.
  - apply set_eq. intros s.
    rewrite elem_of_singleton, elem_of_list_to_set, list_elem_of_In,
      List.in_map_iff.
    split.
    + intros ->. destruct metadatas as [|meta ms]; [done|].
      exists meta. split; [|by left].
      by rewrite (Hall meta (or_introl eq_refl)).
    + intros (meta & <- & Hin). by rewrite (Hall meta Hin).
Qed.

End QueryPipeline.

(** C7. When the knowledge store returns no match for the query it is
    given, the pipeline answers exactly "I could not find an answer in the
    ingested content." with an empty source list, and the answer model is
    never called: the only calls are the enrichment and the retrieval. *)
Theorem no_match_short_circuits (env : Env) (q : str) (w : world) :
  fst (collection_query env (improved_query env q) 3 w) = Ok [] ->
  fst (query_rag_engine env q w)
  = Ok {| answer :=
            py "I could not find an answer in the ingested content.";
          sources := [];
          enriched_query := improved_query env q |}
  /\ fst (query env q w)
     = Ok {| response_answer :=
               py "I could not find an answer in the ingested content.";
             response_sources := [] |}
  /\ log (snd (query_rag_engine env q w))
     = log w ++ [Completion enrich_model (enrich_prompt q);
                 CollectionQuery (improved_query env q)]
  /\ forall prompt,
       ~ In (Completion answer_model prompt)
           [Completion enrich_model (enrich_prompt q);
            CollectionQuery (improved_query env q)].
Proof.
  intros Hnone. rewrite collection_query_eq in Hnone. simpl in Hnone.
  rewrite query_eq, query_rag_engine_eq. cbv zeta.
  destruct (query_fault env (improved_query env q)); [done|].
  injection Hnone as ->. simpl.
  repeat split.
  intros prompt [H|[H|[]]]; [|done].
  injection H as H _. vm_compute in H. discriminate H.
Qed.

Lemma no_match_short_circuits_witness :
  fst (collection_query (sample_env (Ok [])) (py "What is X?") 3 empty_world)
  = Ok []
  /\ fst (query (sample_env (Ok [])) (py "What is X?") empty_world)
     = Ok {| response_answer :=
               py "I could not find an answer in the ingested content.";
             response_sources := [] |}.
Proof.
  split; [reflexivity|].
  apply (no_match_short_circuits (sample_env (Ok [])) (py "What is X?")
           empty_world).
  reflexivity.
Defined.

(** C6 (the code departs from it). A chunk stored by
    [store_file_chunks_in_db] carries its file name under ["source_file"]
    and nothing under ["source_url"], the key [query_rag_engine] reads; an
    answer drawn from such chunks therefore names the empty string as its
    only source. Chunks stored by [store_chunks_in_db] carry
    ["source_url"]. (An id the collection already has keeps its entry:
    [collection.add] does not replace it.) *)
Theorem file_chunks_lose_attribution
    (env : Env) (filename : str) (chunks : list str) (w : world) :
  chunks <> [] ->
  add_fault env (chunk_ids filename chunks) = None ->
  (forall i chunk,
     chunks !! i = Some chunk ->
     match collection w !! chunk_id filename i with
     | Some old =>
         collection (snd (store_file_chunks_in_db env filename chunks w))
         !! chunk_id filename i = Some old
     | None =>
         exists e,
           collection (snd (store_file_chunks_in_db env filename chunks w))
           !! chunk_id filename i = Some e
           /\ document e = chunk
           /\ metadata e !! py "source_file" = Some filename
           /\ metadata e !! py "source_url" = None
     end)
  /\ forall q w' result,
       retrieve env (improved_query env q) 3 (collection w') <> [] ->
       (forall e,
          In e (retrieve env (improved_query env q) 3 (collection w')) ->
          metadata e !! py "source_url" = None) ->
       fst (query_rag_engine env q w') = Ok result ->
       sources result = [[]].
Proof.
  intros Hne Hok. split.
  - intros i chunk Hi.
    destruct (store_file_chunks_in_db_frame env filename chunks w)
      as (_ & _ & _ & _ & ->).
    destruct (store_effect_stored env (py "source_file") filename chunks
                (collection w) Hok) as [_ H].
    specialize (H i chunk Hi).
    destruct (collection w !! chunk_id filename i) as [old|]; [done|].
    eexists. split; [exact H|]. simpl. split; [done|].
    split; [by rewrite lookup_singleton_eq|].
    by rewrite lookup_singleton_ne.
  - intros q w' result Hsome Hall. rewrite query_rag_engine_eq. cbv zeta.
    destruct (query_fault env _); [done|].
    destruct (retrieve env (improved_query env q) 3 (collection w'))
      as [|e0 es] eqn:E; [done|].
    simpl List.map.
    destruct (chat_completion env _); [|done].
    intros [= <-]. simpl sources.
    apply (source_urls_unattributed (metadata e0 :: List.map metadata es));
      [done|].
    intros meta Hin.
    change (In meta (List.map metadata (e0 :: es))) in Hin.
    apply List.in_map_iff in Hin as (e & <- & He). by apply Hall.
Qed.

Lemma file_chunks_lose_attribution_witness :
  let env := sample_env (Ok []) in
  let w := run env (FileTask (py "job-1") sample_docx_path application_docx)
             docx_world in
  collection w !! py "tmpabcdefgh.docx_0"
  = Some {| document := join nl [py "Some text"; py "and more"];
            metadata := {[ py "source_file" := py "tmpabcdefgh.docx" ]} |}
  /\ fst (query_rag_engine env (py "What is X?") w)
     = Ok {| answer := py "An answer"; sources := [[]];
             enriched_query := py "What is X?" |}
  /\ forall result,
       fst (query_rag_engine env (py "What is X?") w) = Ok result ->
       sources result = [[]].
Proof.
  split; [reflexivity|]. split; [reflexivity|].
  destruct (file_chunks_lose_attribution (sample_env (Ok []))
              (py "tmpabcdefgh.docx")
              [join nl [py "Some text"; py "and more"]] docx_world)
    as [_ H]; [done|reflexivity|].
  intros result. apply (H (py "What is X?")).
  - vm_compute. discriminate.
  - vm_compute. intros e [<-|[]]. reflexivity.
Defined.

(** ** Temp files and source keys *)

Section TempNames.

Implicit Types (s name dir suffix : str).

Lemma has_slash_app s1 s2 :
  has_slash (s1 ++ s2) = has_slash s1 || has_slash s2.
Proof. apply existsb_app. Qed.

Lemma until_slash_app s1 s2 :
  has_slash s1 = false -> until_slash (s1 ++ 47%N :: s2) = s1.
Proof.
  induction s1 as [|c s1 IH]; intros H.
  - done.
  - unfold has_slash in H. cbn [existsb] in H.
    apply orb_false_iff in H as [Hc Hs].
    cbn [until_slash app]. rewrite N.eqb_sym, Hc. by rewrite IH.
Qed.

Lemma has_slash_rev s : has_slash (rev s) = has_slash s.
Proof.
  induction s as [|c s IH]; [done|]. simpl.
  rewrite has_slash_app, IH. simpl. rewrite orb_false_r. apply orb_comm.
Qed.

(** The base name of a file in a directory is its name. *)
Lemma basename_in_dir dir name :
  has_slash name = false -> basename (in_dir dir name) = name.
Proof.
  intros H. unfold basename, in_dir.
  rewrite !rev_app_distr. change (rev (py "/")) with [47%N].
  rewrite <- app_assoc. simpl.
  rewrite until_slash_app by (by rewrite has_slash_rev).
  apply rev_involutive.
Qed.

Lemma random_name_no_slash draw : has_slash (random_name draw) = false.
Proof.
  induction draw as [|i draw IH]; [done|].
  change (random_name (i :: draw))
    with (nth (i mod 37) name_characters 95%N :: random_name draw).
  change (has_slash (?c :: ?s)) with ((47 =? c)%N || has_slash s).
  rewrite IH, orb_false_r.
  assert (Hall : forallb (fun c => negb (47 =? c)%N) name_characters = true)
    by (by vm_compute).
  rewrite forallb_forall in Hall.
  apply negb_true_iff, Hall, nth_In.
  change (length name_characters) with 37. apply Nat.mod_upper_bound. lia.
Qed.

Lemma temp_name_no_slash draw ctype :
  has_slash (temp_name draw (upload_suffix ctype)) = false.
Proof.
  unfold temp_name. rewrite !has_slash_app, random_name_no_slash.
  unfold upload_suffix. by destruct (str_eqb ctype application_pdf).
Qed.

(** [tempfile] hands out a name that no file in the directory has. *)
Lemma unused_name_spec dir (ctype : str) (candidates : list (list nat))
    (fs : gmap str bytes) (path : str) :
  unused_name dir (upload_suffix ctype) candidates fs = Ok path ->
  fs !! path = None
  /\ has_slash (basename path) = false
  /\ path = in_dir dir (basename path).
Proof.
  induction candidates as [|draw more IH]; simpl; [done|].
  destruct (fs !! in_dir dir _) eqn:E; [exact IH|].
  intros [= <-].
  rewrite (basename_in_dir _ _ (temp_name_no_slash draw ctype)).
  split; [done|]. split; [apply temp_name_no_slash|done].
Qed.

Lemma url_str_has_slash u : has_slash (url_str u) = true.
Proof.
  unfold url_str. rewrite !has_slash_app.
  replace (has_slash (py "://")) with true by (by vm_compute).
  by rewrite orb_true_r.
Qed.

End TempNames.

(** ** Invariants of the system *)

Section Invariants.

Context (env : Env).
Implicit Types (w : world) (op : operation) (key : str).

Lemma advances_keys w w' : advances w w' -> keys w' = keys w.
Proof. by intros ([_ H] & _). Qed.

Lemma add_job_keys job w :
  keys (snd (add_job job w)) = keys w ++ [url job].
Proof. unfold keys. simpl. by rewrite List.map_app. Qed.

Lemma keys_with_queue f w : keys (with_queue f w) = keys w.
Proof. done. Qed.

Lemma keys_with_files f w : keys (with_files f w) = keys w.
Proof. done. Qed.

(** An operation adds at most one row, under a key that was not there. *)
Lemma run_keys op w :
  keys (run env op w) = keys w
  \/ exists key, keys (run env op w) = keys w ++ [key] /\ ~ In key (keys w).
Proof.
  destruct op as [new_id u|new_id candidates file|id target
                 |id path ctype|q]; simpl.
  - rewrite ingest_url_eq.
    destruct (List.find _ (jobs w)) as [existing|] eqn:E; [by left|].
    right. exists (url_str u). apply find_url_none in E. split; [|done].
    cbv zeta. destruct (send_fault env _) as [[]|]; cbn [snd];
      by rewrite ?keys_with_queue, add_job_keys.
  - rewrite ingest_file_eq.
    destruct (negb _); [by left|]. cbv zeta.
    destruct (unused_name _ _ _ _) as [path|e]; [|by left].
    destruct (List.find _ (jobs w)) as [existing|] eqn:E; [by left|].
    right. exists (basename path). apply find_url_none in E.
    split; [|done]. destruct (send_fault env _); cbn [snd];
      by rewrite ?keys_with_queue, add_job_keys, keys_with_files.
  - left. apply advances_keys, process_url_task_advances.
  - left. apply advances_keys, process_file_task_advances.
  - left. destruct (query_logs env q w) as (H & _). unfold keys.
    by rewrite H.
Qed.

(** An operation removes no file; it adds at most one, under an unused
    name. *)
Lemma run_files op w :
  files (run env op w) = files w
  \/ exists path content,
       files w !! path = None
       /\ files (run env op w) = <[path := content]> (files w).
Proof.
  destruct op as [new_id u|new_id candidates file|id target
                 |id path ctype|q]; simpl.
  - left. rewrite ingest_url_eq.
    destruct (List.find _ (jobs w)); [done|].
    cbv zeta. by destruct (send_fault env _) as [[]|].
  - rewrite ingest_file_eq.
    destruct (negb _); [by left|]. cbv zeta.
    destruct (unused_name _ _ _ _) as [path|e] eqn:Eu; [|by left].
    right. exists path, (file_content file).
    split; [by destruct (unused_name_spec _ _ _ _ _ Eu)|].
    destruct (List.find _ (jobs w)); [done|].
    by destruct (send_fault env _).
  - left. by destruct (process_url_task_advances env id target w)
      as (_ & H & _).
  - left. by destruct (process_file_task_advances env id path ctype w)
      as (_ & H & _).
  - left. by destruct (query_logs env q w) as (_ & _ & H & _).
Qed.

Lemma run_files_mono op w path :
  is_Some (files w !! path) -> is_Some (files (run env op w) !! path).
Proof.
  intros Hp. destruct (run_files op w) as [->|(p & c & Hnone & ->)];
    [done|].
  rewrite lookup_insert_ne; [done|]. intros ->.
  rewrite Hnone in Hp. by destruct Hp.
Qed.

Lemma run_all_files_mono ops w path :
  is_Some (files w !! path) ->
  is_Some (files (run_all env ops w) !! path).
Proof.
  revert w. induction ops as [|op ops IH]; intros w Hp; [done|].
  simpl. by apply IH, run_files_mono.
Qed.

(** At most one row per source key, whatever is called. *)
Lemma run_keys_NoDup op w : NoDup (keys w) -> NoDup (keys (run env op w)).
Proof.
  intros Hnd. destruct (run_keys op w) as [->|(key & -> & Hnew)]; [done|].
  apply NoDup_app. split; [done|]. split.
  - intros x Hx [->|[]]%list_elem_of_In. by apply list_elem_of_In in Hx.
  - apply NoDup_singleton.
Qed.

Lemma files_kept_empty : files_kept env empty_world.
Proof. by intros key []. Qed.

Lemma keys_not_extended w (key : str) : keys w <> keys w ++ [key].
Proof.
  intros H. apply (f_equal (@length str)) in H.
  rewrite length_app in H. simpl in H. lia.
Qed.

Lemma keys_extended_inv w w' (k key : str) :
  keys w' = keys w ++ [k] -> keys w' = keys w ++ [key] -> key = k.
Proof.
  intros -> H. apply app_inv_head in H. by injection H.
Qed.

(** Files are kept, whatever is called. *)
Lemma run_files_kept op w : files_kept env w -> files_kept env (run env op w).
Proof.
  intros Hk.
  assert (Hold : forall key, In key (keys w) -> has_slash key = false ->
                   is_Some (files (run env op w)
                            !! in_dir (tempdir env) key)).
  { intros key Hin Hs. by apply run_files_mono, Hk. }
  destruct (run_keys op w) as [Hsame|(key & Hnew & Hfresh)].
  { intros key. rewrite Hsame. apply Hold. }
  intros k. rewrite Hnew. intros [Hin|[<-|[]]]%in_app_or; [by apply Hold|].
  clear Hold. revert Hnew.
  destruct op as [new_id u|new_id candidates file|id target
                 |id path ctype|q]; simpl.
  - rewrite ingest_url_eq.
    destruct (List.find _ (jobs w)) as [existing|];
      [by intros ?%keys_not_extended|].
    cbv zeta. intros Hkeys Hs. exfalso.
    assert (key = url_str u) as ->.
    { eapply keys_extended_inv; [|exact Hkeys].
      destruct (send_fault env _) as [[]|]; cbn [snd];
        by rewrite ?keys_with_queue, add_job_keys. }
    by rewrite url_str_has_slash in Hs.
  - rewrite ingest_file_eq.
    destruct (negb _); [by intros ?%keys_not_extended|].
    cbv zeta.
    destruct (unused_name _ _ _ _) as [p|e] eqn:Eu;
      [|by intros ?%keys_not_extended].
    destruct (unused_name_spec _ _ _ _ _ Eu) as (_ & _ & Hp).
    destruct (List.find _ (jobs w)) as [existing|];
      [cbn [snd]; rewrite keys_with_files;
       by intros ?%keys_not_extended|].
    intros Hkeys Hs.
    assert (key = basename p) as ->.
    { eapply keys_extended_inv; [|exact Hkeys].
      destruct (send_fault env _); cbn [snd];
        by rewrite ?keys_with_queue, add_job_keys, keys_with_files. }
    rewrite <- Hp.
    destruct (send_fault env _); simpl; by rewrite lookup_insert_eq.
  - rewrite (advances_keys _ _ (process_url_task_advances env id target w)).
    by intros ?%keys_not_extended.
  - rewrite (advances_keys _ _
               (process_file_task_advances env id path ctype w)).
    by intros ?%keys_not_extended.
  - destruct (query_logs env q w) as (H & _). unfold keys at 1. rewrite H.
    by intros ?%keys_not_extended.
Qed.

Lemma run_all_files_kept ops w :
  files_kept env w -> files_kept env (run_all env ops w).
Proof.
  revert w. induction ops as [|op ops IH]; intros w Hk; [done|].
  simpl. by apply IH, run_files_kept.
Qed.

End Invariants.

(** ** C5: duplicate submissions *)

(** While files are kept, the key derived for an upload is the key of no
    job. *)
Lemma upload_key_not_taken
    (env : Env) (w : world) (ctype : str) (candidates : list (list nat))
    (path : str) :
  files_kept env w ->
  unused_name (tempdir env) (upload_suffix ctype) candidates (files w)
  = Ok path ->
  ~ In (basename path) (keys w).
Proof.
  intros Hk Hpath Hin.
  destruct (unused_name_spec _ _ _ _ _ Hpath) as (Hfresh & Hslash & Hp).
  destruct (Hk _ Hin Hslash) as [content Hc].
  rewrite <- Hp in Hc. congruence.
Qed.

Lemma keys_NoDup_inj (js : list IngestionJob) (j1 j2 : IngestionJob) :
  NoDup (List.map url js) -> In j1 js -> In j2 js -> url j1 = url j2 ->
  j1 = j2.
Proof.
  induction js as [|j js IH]; [done|]. simpl.
  intros Hnd. apply NoDup_cons in Hnd as [Hj Hnd].
  rewrite list_elem_of_In in Hj.
  intros [<-|H1] [<-|H2] Hu; [done| | |by apply IH].
  - exfalso. apply Hj. rewrite Hu. by apply List.in_map.
  - exfalso. apply Hj. rewrite <- Hu. by apply List.in_map.
Qed.

(** What [ingest_file] does when the name of its temp file is already the
    key of a job: no row, no message; the conflict it raises is caught by
    its own [except Exception] and leaves as a 500. *)
Lemma ingest_file_taken_key
    (env : Env) (new_id : str) (candidates : list (list nat))
    (file : UploadFile) (w : world) (path : str) :
  existsb (str_eqb (content_type file)) allowed_types = true ->
  unused_name (tempdir env) (upload_suffix (content_type file)) candidates
    (files w) = Ok path ->
  In (basename path) (keys w) ->
  jobs (snd (ingest_file env new_id candidates file w)) = jobs w
  /\ queue (snd (ingest_file env new_id candidates file w)) = queue w
  /\ exists detail,
       fst (ingest_file env new_id candidates file w)
       = Raise (HTTPException 500 detail).
Proof.
  intros Hallowed Hpath Hin. rewrite ingest_file_eq, Hallowed, Hpath.
  simpl negb. cbv iota zeta.
  destruct (List.find _ (jobs w)) as [existing|] eqn:E.
  - repeat split. by eexists.
  - by apply find_url_none in E.
Qed.

(** C5. Submitting a source key (a URL) while a job with that key exists,
    in whatever status, is rejected with a 409 conflict whose detail carries
    the id and the status of the existing job, and the world is left as it
    was: no second row, no message to the broker. An upload brings no key
    of its own, and the key derived for it is never the key of an existing
    job. No operation of either service ever makes two rows share a source
    key. *)
Theorem duplicate_submission_rejected (env : Env) :
  (forall new_id u w j,
     In j (jobs w) -> url j = url_str u ->
     exists existing,
       In existing (jobs w) /\ url existing = url_str u
       /\ (NoDup (keys w) -> existing = j)
       /\ ingest_url env new_id u w
          = (Raise (HTTPException 409
                      (py "URL has already been submitted. Job ID: "
                       ++ job_id existing ++ py ", Status: "
                       ++ status existing)),
             w))
  /\ (forall ops file candidates path,
        let w := run_all env ops empty_world in
        unused_name (tempdir env) (upload_suffix (content_type file))
          candidates (files w) = Ok path ->
        ~ In (basename path) (keys w))
  /\ NoDup (keys empty_world)
  /\ (forall op w, NoDup (keys w) -> NoDup (keys (run env op w))).
Proof.
  split; [|split; [|split; [apply NoDup_nil_2|apply run_keys_NoDup]]].
  2:{ intros ops file candidates path w.
      apply upload_key_not_taken, run_all_files_kept, files_kept_empty. }
  intros new_id u w j Hin Hkey.
  destruct (find_url_some (url_str u) (jobs w) j Hin Hkey)
    as (existing & Hfind & Hex & Hurl).
  exists existing. split; [done|]. split; [done|]. split.
  - intros Hnd. apply (keys_NoDup_inj (jobs w)); [done..|congruence].
  - by rewrite ingest_url_eq, Hfind.
Qed.

Lemma duplicate_submission_rejected_witness :
  In {| job_id := py "job-1"; url := py "https://example.com/a";
        status := PENDING |} (jobs url_world)
  /\ NoDup (keys url_world)
  /\ ingest_url (sample_env (Ok [])) (py "job-2") sample_url url_world
     = (Raise (HTTPException 409
                 (py "URL has already been submitted. Job ID: job-1, Status: PENDING")),
        url_world).
Proof.
  destruct (duplicate_submission_rejected (sample_env (Ok [])))
    as (Hdup & _ & Hempty & Hstep).
  assert (Hin : In {| job_id := py "job-1"; url := py "https://example.com/a";
                      status := PENDING |} (jobs url_world))
    by (left; reflexivity).
  assert (Hnd : NoDup (keys url_world)) by apply Hstep, Hempty.
  split; [exact Hin|]. split; [exact Hnd|].
  destruct (Hdup (py "job-2") sample_url url_world _ Hin eq_refl)
    as (existing & _ & _ & Hsame & Heq).
  rewrite Heq, (Hsame Hnd). reflexivity.
Defined.

(** ** C10: file uploads *)

(** C10. The source key of an upload is the base name of the temp file
    made for it, under a name no file in the temp directory has. While the
    files of the earlier uploads are kept, which both services do, the
    duplicate check of [ingest_file] finds nothing and the upload gets a
    new row under a key no row had, a file with the uploaded content, and,
    unless the broker fails, its task message and the accepted answer. Two
    uploads, of the same content or not, never get the same key. *)
Theorem upload_gets_fresh_key (env : Env) :
  (forall new_id candidates file w path,
     files_kept env w ->
     existsb (str_eqb (content_type file)) allowed_types = true ->
     unused_name (tempdir env) (upload_suffix (content_type file))
       candidates (files w) = Ok path ->
     let w' := snd (ingest_file env new_id candidates file w) in
     let msg := {| task_name := py "process_file_task";
                   task_args := [new_id; path; content_type file] |} in
     ~ In (basename path) (keys w)
     /\ List.find (fun j => str_eqb (url j) (basename path)) (jobs w) = None
     /\ jobs w' = jobs w ++ [{| job_id := new_id; url := basename path;
                                status := PENDING |}]
     /\ files w' !! path = Some (file_content file)
     /\ (send_fault env msg = None ->
         fst (ingest_file env new_id candidates file w)
         = Ok (FileAccepted new_id PENDING
                 (py "File has been accepted and is pending processing."))
         /\ queue w' = queue w ++ [msg]))
  /\ files_kept env empty_world
  /\ (forall op w, files_kept env w -> files_kept env (run env op w))
  /\ (forall id1 c1 f1 p1 ops c2 f2 p2 w,
        existsb (str_eqb (content_type f1)) allowed_types = true ->
        unused_name (tempdir env) (upload_suffix (content_type f1)) c1
          (files w) = Ok p1 ->
        unused_name (tempdir env) (upload_suffix (content_type f2)) c2
          (files (run_all env ops (run env (IngestFile id1 c1 f1) w)))
        = Ok p2 ->
        basename p1 <> basename p2).
Proof.
  split; [|split; [apply files_kept_empty|split; [apply run_files_kept|]]].
  - intros new_id candidates file w path Hk Hallowed Hpath. cbv zeta.
    assert (Hnew : ~ In (basename path) (keys w))
      by (by eapply upload_key_not_taken).
    split; [done|].
    assert (Hfind : List.find (fun j => str_eqb (url j) (basename path))
                      (jobs w) = None) by (by apply find_url_none).
    split; [done|].
    rewrite ingest_file_eq, Hallowed, Hpath, Hfind. simpl negb.
    cbv iota zeta.
    destruct (send_fault env _) as [e|]; cbn [fst snd]; simpl;
      rewrite lookup_insert_eq; repeat split; done.
  - intros id1 c1 f1 p1 ops c2 f2 p2 w Hallowed H1 H2 Heq.
    destruct (unused_name_spec _ _ _ _ _ H1) as (_ & _ & Hp1).
    destruct (unused_name_spec _ _ _ _ _ H2) as (Hfresh2 & _ & Hp2).
    assert (Hthere : is_Some (files (run env (IngestFile id1 c1 f1) w) !! p1)).
    { simpl. rewrite ingest_file_eq, Hallowed, H1. simpl negb.
      cbv iota zeta.
      destruct (List.find _ (jobs w)); [|destruct (send_fault env _)];
        simpl; by rewrite lookup_insert_eq. }
    apply (run_all_files_mono env ops) in Hthere.
    rewrite Hp1, Heq, <- Hp2, Hfresh2 in Hthere. by destruct Hthere.
Qed.

Lemma upload_gets_fresh_key_witness :
  let env := sample_env (Ok []) in
  files_kept env pdf_world
  /\ unused_name (tempdir env) (upload_suffix application_pdf)
       [sample_draw; [7; 6; 5; 4; 3; 2; 1; 0]] (files pdf_world)
     = Ok (py "/tmp/tmphgfedcba.pdf")
  /\ jobs (snd (ingest_file env (py "job-2")
                  [sample_draw; [7; 6; 5; 4; 3; 2; 1; 0]] sample_pdf
                  pdf_world))
     = [{| job_id := py "job-1"; url := py "tmpabcdefgh.pdf";
           status := PENDING |};
        {| job_id := py "job-2"; url := py "tmphgfedcba.pdf";
           status := PENDING |}].
Proof.
  destruct (upload_gets_fresh_key (sample_env (Ok [])))
    as (Hup & Hempty & Hstep & _).
  assert (Hk : files_kept (sample_env (Ok [])) pdf_world)
    by apply Hstep, Hempty.
  split; [exact Hk|]. split; [reflexivity|].
  destruct (Hup (py "job-2") [sample_draw; [7; 6; 5; 4; 3; 2; 1; 0]]
              sample_pdf pdf_world (py "/tmp/tmphgfedcba.pdf") Hk
              eq_refl eq_refl)
    as (_ & _ & Hjobs & _).
  rewrite Hjobs. reflexivity.
Defined.

(** ** C2 at a sample input *)

Lemma reprocessing_is_idempotent_witness :
  let env := sample_env (Ok []) in
  let once := run env (UrlTask (py "job-1") (py "https://example.com/a"))
                url_world in
  let twice := run env (UrlTask (py "job-1") (py "https://example.com/a"))
                 once in
  collection twice = collection once
  /\ dom (collection once)
     = list_to_set
         (chunk_ids (py "https://example.com/a")
            [join nl [py "Hello"; py "world"]])
       ∪ dom (collection url_world)
  /\ collection once !! py "https://example.com/a_0"
     = Some {| document := join nl [py "Hello"; py "world"];
               metadata :=
                 {[ py "source_url" := py "https://example.com/a" ]} |}
  /\ collection (snd (store_chunks_in_db env (py "https://example.com/a")
                        [py "Changed"] once))
     !! py "https://example.com/a_0"
     = Some {| document := join nl [py "Hello"; py "world"];
               metadata :=
                 {[ py "source_url" := py "https://example.com/a" ]} |}.
Proof.
  destruct (reprocessing_is_idempotent (sample_env (Ok [])))
    as (Hurl & _ & Hstore & _ & Htask & _).
  split; [apply Hurl|].
  destruct (Htask (py "job-1") (py "https://example.com/a") url_world
              {| job_id := py "job-1"; url := py "https://example.com/a";
                 status := PENDING |}
              (py "  Hello   world ") [join nl [py "Hello"; py "world"]])
    as [Hdom Hnew]; [reflexivity|reflexivity|by vm_compute|reflexivity
                    |reflexivity|].
  split; [exact Hdom|]. split; [apply (Hnew 0); reflexivity|].
  destruct (Hstore (py "https://example.com/a") [py "Changed"]
              (run (sample_env (Ok []))
                 (UrlTask (py "job-1") (py "https://example.com/a"))
                 url_world))
    as [_ H]; [reflexivity|].
  apply (H 0 (py "Changed")). reflexivity.
Defined.

(** C2, as the claim words it, fails: a chunk stored under an id that is
    already in the collection does not replace the entry. After one run of
    the URL task the page is under ["https://example.com/a_0"]; storing
    the text ["Changed"] for the same URL leaves that entry as it was. *)
Lemma existing_id_is_not_overwritten :
  collection
    (snd (store_chunks_in_db (sample_env (Ok [])) (py "https://example.com/a")
            [py "Changed"] url_done_world))
  !! py "https://example.com/a_0"
  = Some {| document := join nl [py "Hello"; py "world"];
            metadata := {[ py "source_url" := py "https://example.com/a" ]} |}
  /\ collection
       (snd (store_chunks_in_db (sample_env (Ok []))
               (py "https://example.com/a") [py "Changed"] url_done_world))
     !! py "https://example.com/a_0"
     <> Some {| document := py "Changed";
                metadata :=
                  {[ py "source_url" := py "https://example.com/a" ]} |}.
Proof.
  split; [reflexivity|].
  intros H. vm_compute in H. congruence.
Qed.

(** * Further properties of the code *)

Arguments is_space : simpl never.
Arguments is_linebreak : simpl never.

(** ** The clean-up only touches whitespace *)

Section Visible.

Implicit Types (s t sep : str) (l : list str) (c : N).

Lemma is_linebreak_space c : is_linebreak c = true -> is_space c = true.
Proof.
  unfold is_linebreak, is_space.
  rewrite !orb_true_iff, !andb_true_iff, !N.leb_le, !N.eqb_eq. lia.
Qed.

Lemma visible_app s t : visible (s ++ t) = visible s ++ visible t.
Proof. apply List.filter_app. Qed.

Lemma visible_cons c s :
  visible (c :: s) = if is_space c then visible s else c :: visible s.
Proof. unfold visible. simpl. by destruct (is_space c). Qed.

Lemma visible_space c s : is_space c = true -> visible (c :: s) = visible s.
Proof. intros H. by rewrite visible_cons, H. Qed.

Lemma visible_lstrip s : visible (lstrip s) = visible s.
Proof.
  induction s as [|c s IH]; [done|]. cbn [lstrip].
  destruct (is_space c) eqn:E; [|done]. by rewrite IH, visible_space.
Qed.

Lemma visible_rev s : visible (rev s) = rev (visible s).
Proof.
  induction s as [|c s IH]; [done|]. simpl rev.
  rewrite visible_app, IH, !visible_cons.
  destruct (is_space c); simpl; [by rewrite app_nil_r|done].
Qed.

Lemma visible_strip s : visible (strip s) = visible s.
Proof.
  unfold strip, rstrip.
  by rewrite visible_rev, visible_lstrip, visible_rev, rev_involutive,
    visible_lstrip.
Qed.

Lemma visible_join sep l :
  visible sep = [] -> visible (join sep l) = visible (concat l).
Proof.
  intros Hsep. induction l as [|x l IH]; [done|].
  destruct l as [|y l].
  - simpl. by rewrite app_nil_r.
  - rewrite join_cons by done.
    change (concat (x :: y :: l)) with (x ++ concat (y :: l)).
    by rewrite !visible_app, Hsep, IH.
Qed.

Lemma visible_concat_map (f : str -> str) l :
  (forall s, visible (f s) = visible s) ->
  visible (concat (List.map f l)) = visible (concat l).
Proof.
  intros Hf. induction l as [|x l IH]; [done|].
  simpl. by rewrite !visible_app, Hf, IH.
Qed.

Lemma visible_concat_flat_map (f : str -> list str) l :
  (forall s, visible (concat (f s)) = visible s) ->
  visible (concat (flat_map f l)) = visible (concat l).
Proof.
  intros Hf. induction l as [|x l IH]; [done|].
  simpl. by rewrite concat_app, !visible_app, Hf, IH.
Qed.

Lemma visible_split_on s : visible (concat (split_on dsp s)) = visible s.
Proof.
  rewrite <- (visible_join dsp) by done.
  by rewrite join_split_on.
Qed.

Lemma splitlines_cons c s :
  splitlines (c :: s)
  = if is_linebreak c then
      [] :: match s with
            | c2 :: s'' =>
                if ((c =? 13) && (c2 =? 10))%N then splitlines s''
                else splitlines s
            | [] => []
            end
    else
      match splitlines s with
      | l :: ls => (c :: l) :: ls
      | [] => [[c]]
      end.
Proof. done. Qed.

Lemma visible_splitlines s : visible (concat (splitlines s)) = visible s.
Proof.
  assert (H : forall n s, length s <= n ->
                visible (concat (splitlines s)) = visible s).
  { clear s. induction n as [|n IH]; intros [|c s] Hn; simpl in Hn;
      [done|lia|done|].
    rewrite splitlines_cons. destruct (is_linebreak c) eqn:E.
    - rewrite (visible_space c) by (by apply is_linebreak_space).
      change (concat ([] :: ?l)) with (concat l).
      destruct s as [|c2 s]; [done|].
      destruct ((c =? 13)%N && (c2 =? 10)%N) eqn:E2.
      + apply andb_true_iff in E2 as [_ E2]. apply N.eqb_eq in E2 as ->.
        rewrite (visible_space 10%N) by done.
        apply IH. simpl in Hn. lia.
      + apply IH. simpl in *. lia.
    - assert (Hs : visible (concat (splitlines s)) = visible s)
        by (apply IH; lia).
      destruct (is_space c) eqn:E'.
      { rewrite (visible_space c s E').
        destruct (splitlines s) as [|l ls]; simpl concat in *.
        - rewrite <- Hs. by rewrite visible_space.
        - rewrite <- Hs. change ((c :: l) ++ concat ls)
            with (c :: (l ++ concat ls)). by rewrite visible_space. }
      rewrite visible_cons, E'.
      destruct (splitlines s) as [|l ls]; simpl concat in *.
      + rewrite <- Hs. by rewrite visible_cons, E'.
      + rewrite <- Hs. change ((c :: l) ++ concat ls)
          with (c :: (l ++ concat ls)). by rewrite visible_cons, E'. }
  by apply (H (length s)).
Qed.

End Visible.

Lemma visible_clean_whitespace (text : str) :
  visible (clean_whitespace text) = visible text.
Proof.
  unfold clean_whitespace, clean_phrases, clean_lines.
  rewrite visible_join by done.
  rewrite concat_filter_nonempty.
  rewrite visible_concat_flat_map.
  - rewrite visible_concat_map by apply visible_strip.
    apply visible_splitlines.
  - intros s. rewrite visible_concat_map by apply visible_strip.
    apply visible_split_on.
Qed.

(** ** The shape of a cleaned text *)

Section CleanShape.

Implicit Types (s t sep : str) (l F : list str) (c : N).

Lemma visible_nil_iff s : visible s = [] <-> forallb is_space s = true.
Proof.
  induction s as [|c s IH]; [done|]. rewrite visible_cons. simpl.
  destruct (is_space c); simpl; [exact IH|]. split; discriminate.
Qed.

Lemma lstrip_fixed_head c s : lstrip (c :: s) = c :: s -> is_space c = false.
Proof.
  cbn [lstrip]. destruct (is_space c); [|done]. intros H. exfalso.
  destruct (lstrip_suffix s) as [pre Hp].
  apply (f_equal (@length N)) in H. rewrite Hp in H at 2.
  simpl in H. rewrite length_app in H. lia.
Qed.

Lemma lstrip_app_fixed s t : s <> [] -> lstrip s = s -> lstrip (s ++ t) = s ++ t.
Proof.
  destruct s as [|c s]; [done|]. intros _ H.
  apply lstrip_fixed_head in H. simpl. by rewrite H.
Qed.

Lemma tidy_visible s : tidy s -> visible s <> [].
Proof.
  intros (Hne & _ & [Hl _] & _). destruct s as [|c s]; [done|].
  apply lstrip_fixed_head in Hl. by rewrite visible_cons, Hl.
Qed.

Lemma join_head sep s l : exists tail, join sep (s :: l) = s ++ tail.
Proof.
  destruct l as [|y l].
  - exists []. simpl. by rewrite app_nil_r.
  - eexists. by rewrite join_cons.
Qed.

Lemma join_last sep l :
  l <> [] -> exists init, join sep l = init ++ List.last l [].
Proof.
  induction l as [|x l IH]; [done|]. intros _.
  destruct l as [|y l].
  - by exists [].
  - destruct IH as [init Hi]; [done|].
    exists (x ++ sep ++ init). rewrite join_cons by done.
    rewrite Hi. change (List.last (x :: y :: l) []) with (List.last (y :: l) []).
    by rewrite <- !app_assoc.
Qed.

Lemma last_in l (d : str) : l <> [] -> In (List.last l d) l.
Proof.
  induction l as [|x l IH]; [done|]. intros _.
  destruct l as [|y l]; [by left|]. right. by apply IH.
Qed.

Lemma tidy_join_trimmed F : Forall tidy F -> trimmed (join nl F).
Proof.
  intros HF. destruct F as [|f F]; [done|]. split.
  - destruct (join_head nl f F) as [tail ->].
    apply Forall_cons in HF as [(Hne & _ & [Hl _] & _) _].
    by apply lstrip_app_fixed.
  - destruct (join_last nl (f :: F)) as [init ->]; [done|].
    assert (Hlast : tidy (List.last (f :: F) [])).
    { rewrite List.Forall_forall in HF. apply HF.
      by apply last_in. }
    destruct Hlast as (Hne & _ & [_ Hr] & _).
    rewrite rev_app_distr. apply lstrip_app_fixed; [|done].
    intros E. apply (f_equal (@rev N)) in E.
    by rewrite rev_involutive in E.
Qed.

End CleanShape.

(** X1. The clean-up removes and inserts nothing but whitespace: the
    characters of its output that are not whitespace are those of the
    input, in the same order. *)
Theorem clean_whitespace_keeps_visible (text : str) :
  visible (clean_whitespace text) = visible text.
Proof. apply visible_clean_whitespace. Qed.

Lemma clean_whitespace_nil_iff (text : str) :
  clean_whitespace text = [] <-> forallb is_space text = true.
Proof.
  rewrite <- visible_nil_iff, <- (visible_clean_whitespace text).
  split; [by intros ->|]. intros Hv.
  pose proof (clean_output_tidy text) as HF. unfold clean_whitespace in *.
  destruct (List.filter nonempty _) as [|f F]; [done|]. exfalso.
  apply Forall_cons in HF as [Hf _]. apply (tidy_visible _ Hf).
  destruct (join_head nl f F) as [tail E]. rewrite E, visible_app in Hv.
  by apply app_eq_nil in Hv as [? _].
Qed.

(** X2. The clean-up returns the empty text exactly when its input has
    nothing but whitespace. *)
Theorem clean_whitespace_empty_iff_blank (text : str) :
  clean_whitespace text = [] <-> forallb is_space text = true.
Proof. apply clean_whitespace_nil_iff. Qed.

Lemma clean_whitespace_lines (text : str) :
  strip (clean_whitespace text) = clean_whitespace text
  /\ Forall (fun line =>
               line <> [] /\ strip line = line /\ occurs dsp line = false)
       (splitlines (clean_whitespace text)).
Proof.
  pose proof (clean_output_tidy text) as HF. unfold clean_whitespace.
  split.
  - by apply trimmed_strip, tidy_join_trimmed.
  - rewrite splitlines_join.
    + eapply Forall_impl; [exact HF|]. intros f (? & ? & Ht & ?).
      by rewrite (trimmed_strip _ Ht).
    + eapply Forall_impl; [exact HF|]. by intros f (? & ? & _).
Qed.

(** X3. A cleaned text has no whitespace at either end, and each of its
    lines is non-empty, has no whitespace at either end and no two spaces
    in a row. *)
Theorem clean_whitespace_shape (text : str) :
  strip (clean_whitespace text) = clean_whitespace text
  /\ Forall (fun line =>
               line <> [] /\ strip line = line /\ occurs dsp line = false)
       (splitlines (clean_whitespace text)).
Proof. apply clean_whitespace_lines. Qed.

Lemma chunk_text_clean_short (page : str) :
  clean_whitespace page <> [] ->
  (length (clean_whitespace page) < 1000)%nat ->
  chunk_text (clean_whitespace page) = Ok [clean_whitespace page].
Proof.
  intros Hne Hlen. rewrite (chunk_text_fits _ Hlen). unfold one_chunk.
  destruct (clean_whitespace_lines page) as [-> _].
  by destruct (clean_whitespace page).
Qed.

(** X4. A cleaned text that is not empty and shorter than the chunk size
    is chunked into exactly one chunk, the text itself. *)
Theorem chunk_text_of_short_clean_text (page : str) :
  clean_whitespace page <> [] ->
  (length (clean_whitespace page) < 1000)%nat ->
  chunk_text (clean_whitespace page) = Ok [clean_whitespace page].
Proof. apply chunk_text_clean_short. Qed.

Lemma chunk_text_of_short_clean_text_witness :
  clean_whitespace (py "  Hello   world ") <> []
  /\ chunk_text (clean_whitespace (py "  Hello   world "))
     = Ok [clean_whitespace (py "  Hello   world ")].
Proof.
  split; [by vm_compute|].
  apply (chunk_text_of_short_clean_text (py "  Hello   world ")).
  - by vm_compute.
  - vm_compute. lia.
Defined.

(** ** The chunker on every input *)

Section ChunkerTotal.

Implicit Types (s t text chunk : str) (l splits docs : list str).

Lemma infix_refl s : infix s s.
Proof. exists [], []. by rewrite app_nil_r. Qed.

Lemma infix_trans s t u : infix s t -> infix t u -> infix s u.
Proof.
  intros (p1 & q1 & ->) (p2 & q2 & ->).
  exists (p2 ++ p1), (q1 ++ q2). by rewrite <- !app_assoc.
Qed.

Lemma infix_length s t : infix s t -> length s <= length t.
Proof. intros (p & q & ->). rewrite !length_app. lia. Qed.

Lemma infix_strip s : infix (strip s) s.
Proof. destruct (strip_infix s) as (pre & post & H). by exists pre, post. Qed.

Lemma infix_concat (pre mid post : list str) :
  infix (concat mid) (concat (pre ++ mid ++ post)).
Proof. exists (concat pre), (concat post). by rewrite !concat_app. Qed.

Lemma infix_concat_l (a b : list str) : infix (concat a) (concat (a ++ b)).
Proof. exists [], (concat b). by rewrite concat_app. Qed.

Lemma infix_concat_r (a b : list str) : infix (concat b) (concat (a ++ b)).
Proof. exists (concat a), []. by rewrite concat_app, app_nil_r. Qed.

Lemma good_chunk_mono text text' chunk :
  good_chunk text chunk -> infix text text' -> good_chunk text' chunk.
Proof.
  intros (? & ? & ? & Hi) Ht. repeat split; try done.
  by eapply infix_trans.
Qed.

(** A chunk made by [_join_docs] from pieces that fit is a good chunk of
    their concatenation. *)
Lemma join_docs_good splits doc :
  (sum_len splits <= chunk_size)%Z ->
  _join_docs splits [] = Some doc ->
  good_chunk (concat splits) doc.
Proof.
  unfold _join_docs. rewrite join_empty_sep. intros Hsum Hdoc.
  assert (E : doc = strip (concat splits) /\ doc <> []).
  { destruct (strip (concat splits)); [done|]. by injection Hdoc as <-. }
  destruct E as [-> Hne]. repeat split; [done|apply strip_idem| |].
  - pose proof (infix_length _ _ (infix_strip (concat splits))) as Hl.
    rewrite sum_len_concat in Hsum. unfold len, chunk_size in Hsum. lia.
  - apply infix_strip.
Qed.

Lemma pop_current_eq separator_len _len total (current : list str) :
  pop_current separator_len _len total current
  = if ((total >? chunk_overlap)
        || ((total + _len
             + (if (0 <? length current)%nat then separator_len else 0)
             >? chunk_size)
            && (total >? 0)))%Z
    then
      match current with
      | [] => Raise IndexError
      | first :: rest =>
          pop_current separator_len _len
            (total - (len first
                      + (if (1 <? length current)%nat
                         then separator_len else 0)))%Z
            rest
      end
    else Ok (total, current).
Proof. by destruct current. Qed.

(** The [while] loop never indexes an empty list, and stops with room for
    the next piece. *)
Lemma pop_current_ok _len (current : list str) :
  (0 <= _len < chunk_size)%Z ->
  exists dropped kept,
    pop_current 0 _len (sum_len current) current = Ok (sum_len kept, kept)
    /\ current = dropped ++ kept
    /\ (sum_len kept + _len <= chunk_size)%Z.
Proof.
  intros Hlen. induction current as [|first rest IH].
  - exists [], []. split; [|split; [done|simpl; lia]].
    rewrite pop_current_eq. simpl.
    destruct (Z.gtb_spec 0 chunk_overlap) as [H|_]; [done|].
    by rewrite andb_false_r.
  - rewrite pop_current_eq.
    pose proof (sum_len_nonneg (first :: rest)) as Hpos.
    destruct (_ || _)%Z eqn:Hcond.
    + destruct IH as (dropped & kept & Hpop & Hcur & Hfit).
      exists (first :: dropped), kept.
      split; [|split; [by rewrite Hcur|done]].
      rewrite <- Hpop. f_equal. simpl.
      destruct (1 <? S (length rest))%nat; lia.
    + exists [], (first :: rest). split; [done|]. split; [done|].
      apply orb_false_iff in Hcond as [H1 H2].
      replace (if (0 <? length (first :: rest))%nat then 0%Z else 0%Z)
        with 0%Z in H2 by (by destruct (0 <? _)%nat).
      rewrite Z.gtb_ltb in H1. apply Z.ltb_ge in H1.
      apply andb_false_iff in H2 as [H2|H2];
        rewrite Z.gtb_ltb in H2; apply Z.ltb_ge in H2;
        unfold chunk_size, chunk_overlap in *; lia.
Qed.

Lemma merge_step_good all seen later st d :
  all = seen ++ d :: later ->
  (len d < chunk_size)%Z ->
  merge_inv all seen st ->
  exists st', merge_step [] st d = Ok st' /\ merge_inv all (seen ++ [d]) st'.
Proof.
  intros Hall Hd ((dropped & Hseen) & Htot & Hfit & Hdocs).
  assert (Hd0 : (0 <= len d)%Z) by (unfold len; lia).
  unfold merge_step. change (len []) with 0%Z.
  replace (if (0 <? length (current_doc st))%nat then 0%Z else 0%Z)
    with 0%Z by (by destruct (0 <? _)%nat).
  assert (Hadd : forall docs' kept dropped',
             seen = dropped' ++ kept ->
             (sum_len kept + len d <= chunk_size)%Z ->
             Forall (good_chunk (concat all)) docs' ->
             merge_inv all (seen ++ [d])
               {| docs := docs'; current_doc := kept ++ [d];
                  total := (sum_len kept + len d
                            + (if (1 <? length (kept ++ [d]))%nat
                               then 0 else 0))%Z |}).
  { intros docs' kept dropped' Hk Hroom Hg. unfold merge_inv. simpl.
    split; [exists dropped'; by rewrite Hk, <- app_assoc|].
    rewrite sum_len_app. simpl.
    destruct (1 <? length (kept ++ [d]))%nat; repeat split; try lia; done. }
  destruct (Z.gtb_spec (total st + len d + 0) chunk_size) as [Hbig|Hok].
  - destruct (current_doc st) as [|first rest] eqn:Ecur.
    + simpl in Htot. unfold chunk_size in *. lia.
    + destruct (pop_current_ok (len d) (first :: rest))
        as (dropped' & kept & Hpop & Hcur & Hroom); [lia|].
      rewrite Htot, Hpop. simpl rbind. eexists. split; [done|].
      apply (Hadd _ kept (dropped ++ dropped')); [|done|].
      * by rewrite Hseen, Hcur, <- app_assoc.
      * destruct (_join_docs (first :: rest) []) as [doc|] eqn:Edoc;
          [|done].
        apply Forall_app. split; [done|].
        apply Forall_cons. split; [|done].
        eapply good_chunk_mono;
          [apply (join_docs_good (first :: rest)); [lia|done]|].
        rewrite Hall, Hseen, <- app_assoc. apply infix_concat.
  - simpl rbind. eexists. split; [done|]. rewrite Htot.
    apply (Hadd _ _ dropped); [done|lia|done].
Qed.

Lemma merge_loop_good all seen splits st :
  all = seen ++ splits ->
  Forall (fun d => (len d < chunk_size)%Z) splits ->
  merge_inv all seen st ->
  exists st', merge_loop [] st splits = Ok st' /\ merge_inv all all st'.
Proof.
  intros Hall Hshort. revert seen st Hall.
  induction Hshort as [|d splits Hd _ IH]; intros seen st Hall Hinv.
  - rewrite app_nil_r in Hall. subst. by exists st.
  - destruct (merge_step_good all seen splits st d Hall Hd Hinv)
      as (st1 & Hstep & Hinv1).
    simpl. rewrite Hstep. simpl. apply (IH (seen ++ [d])); [|done].
    by rewrite <- app_assoc.
Qed.

Lemma merge_splits_good splits :
  Forall (fun d => (len d < chunk_size)%Z) splits ->
  exists docs,
    _merge_splits splits [] = Ok docs
    /\ Forall (good_chunk (concat splits)) docs.
Proof.
  intros Hshort. unfold _merge_splits.
  destruct (merge_loop_good splits [] splits
              {| docs := []; current_doc := []; total := 0 |})
    as (st & -> & (dropped & Hseen) & Htot & Hfit & Hdocs);
    [done|done| |].
  { repeat split; try done. by exists []. }
  simpl. destruct (_join_docs (current_doc st) []) as [doc|] eqn:Edoc;
    eexists; (split; [done|]); [|done].
  apply Forall_app. split; [done|]. apply Forall_cons. split; [|done].
  eapply good_chunk_mono;
    [apply (join_docs_good (current_doc st)); [lia|done]|].
  rewrite Hseen. apply infix_concat_r.
Qed.

Lemma flush_good_ok text final good :
  Forall (good_chunk text) final ->
  Forall (fun d => (len d < chunk_size)%Z) good ->
  infix (concat good) text ->
  exists l, flush_good final good = Ok l /\ Forall (good_chunk text) l.
Proof.
  intros Hfinal Hshort Hin. unfold flush_good.
  destruct good as [|g good]; [by exists final|].
  destruct (merge_splits_good _ Hshort) as (docs & -> & Hdocs).
  simpl. eexists. split; [done|]. apply Forall_app. split; [done|].
  eapply Forall_impl; [exact Hdocs|]. intros c Hc.
  by eapply good_chunk_mono.
Qed.

Lemma split_loop_good text recur splits final good :
  match recur with
  | Some again => forall s, exists l, again s = Ok l /\ Forall (good_chunk s) l
  | None => Forall (fun d => (len d < chunk_size)%Z) splits
  end ->
  Forall (good_chunk text) final ->
  Forall (fun d => (len d < chunk_size)%Z) good ->
  infix (concat (good ++ splits)) text ->
  exists l,
    split_loop recur splits final good = Ok l /\ Forall (good_chunk text) l.
Proof.
  revert final good. induction splits as [|s splits IH];
    intros final good Hrec Hfinal Hshort Hin.
  - simpl. rewrite app_nil_r in Hin. by apply flush_good_ok.
  - simpl. destruct (Z.ltb_spec (len s) chunk_size) as [Hs|Hs].
    + apply IH; [| done | | by rewrite <- app_assoc].
      * destruct recur; [done|]. by apply Forall_cons in Hrec as [_ ?].
      * apply Forall_app. split; [done|]. by apply Forall_cons.
    + destruct recur as [again|].
      2:{ apply Forall_cons in Hrec as [? _]. lia. }
      destruct (flush_good_ok text final good) as (final1 & -> & Hf1);
        [done|done| |].
      { eapply infix_trans; [|exact Hin]. apply infix_concat_l. }
      destruct (Hrec s) as (other & Hother & Hgood).
      simpl. rewrite Hother. simpl. apply IH; [done| |done|].
      * apply Forall_app. split; [done|].
        eapply Forall_impl; [exact Hgood|]. intros c Hc.
        eapply good_chunk_mono; [exact Hc|].
        eapply infix_trans; [|exact Hin].
        exists (concat good), (concat splits).
        rewrite concat_app. done.
      * eapply infix_trans; [|exact Hin].
        change (s :: splits) with ([s] ++ splits). rewrite app_assoc.
        apply infix_concat_r.
Qed.

Lemma split_by_character_good text :
  exists l,
    split_loop None (_split_text_with_regex text []) [] [] = Ok l
    /\ Forall (good_chunk text) l.
Proof.
  apply split_loop_good; [|done|done|].
  - unfold _split_text_with_regex. apply List.Forall_forall.
    intros s [Hs _]%List.filter_In.
    apply List.in_map_iff in Hs as (c & <- & _). done.
  - simpl. rewrite concat_split_regex. apply infix_refl.
Qed.

Lemma _split_text_good_step s rest :
  s <> [] -> rest <> [] ->
  (forall text, exists l,
      _split_text rest [] text = Ok l /\ Forall (good_chunk text) l) ->
  forall text, exists l,
    _split_text (s :: rest) [] text = Ok l /\ Forall (good_chunk text) l.
Proof.
  intros Hs Hrest IH text. simpl.
  destruct s as [|a s]; [done|]. simpl negb. cbv iota.
  destruct (occurs (a :: s) text); [|apply IH].
  destruct rest as [|r rest]; [done|].
  apply split_loop_good; [exact IH|done|done|].
  simpl. rewrite concat_split_regex. apply infix_refl.
Qed.

End ChunkerTotal.

Lemma chunk_text_good text :
  exists chunks,
    chunk_text text = Ok chunks /\ Forall (good_chunk text) chunks.
Proof.
  unfold chunk_text, split_text, separators.
  change (List.last _ []) with ([] : str).
  apply _split_text_good_step; [done|done|].
  apply _split_text_good_step; [done|done|].
  apply _split_text_good_step; [done|done|].
  intros t. simpl. apply split_by_character_good.
Qed.

(** X5. The chunker never fails, whatever the text, and every chunk it
    returns is non-empty, has no whitespace at either end, has at most 1000
    characters, and is a contiguous piece of the text. *)
Theorem chunk_text_chunks_are_good (text : str) :
  exists chunks,
    chunk_text text = Ok chunks
    /\ Forall (fun chunk =>
                 chunk <> [] /\ strip chunk = chunk
                 /\ (length chunk <= 1000)%nat
                 /\ exists pre post, text = pre ++ chunk ++ post)
         chunks.
Proof. exact (chunk_text_good text). Qed.

(** ** The tasks, further *)

(** X6. A task called for a job id that has no row does nothing at all:
    it returns [None] and the world, log included, is as before. *)
Theorem tasks_ignore_unknown_job
    (env : Env) (id target path ctype : str) (w : world) :
  lookup_job id w = None ->
  process_url_task env id target w = (Ok ReturnNone, w)
  /\ process_file_task env id path ctype w = (Ok ReturnNone, w).
Proof.
  intros H. by rewrite process_url_task_eq, process_file_task_eq, H.
Qed.

Lemma tasks_ignore_unknown_job_witness :
  lookup_job (py "job-9") url_world = None
  /\ process_url_task (sample_env (Ok [])) (py "job-9")
       (py "https://example.com/a") url_world
     = (Ok ReturnNone, url_world).
Proof.
  split; [reflexivity|].
  apply (tasks_ignore_unknown_job (sample_env (Ok [])) (py "job-9")
           (py "https://example.com/a") sample_pdf_path application_pdf
           url_world).
  reflexivity.
Defined.

Section TaskRows.

Context (env : Env).
Implicit Types (w : world) (job : IngestionJob) (id : str)
  (allowed : list str).

Lemma restatused_refl allowed id (js : list IngestionJob) :
  restatused allowed id js js.
Proof. apply Forall2_same_length_lookup_2; [done|]. intros i j j' H1 H2.
  left. congruence. Qed.

Lemma restatused_trans allowed id (js1 js2 js3 : list IngestionJob) :
  restatused allowed id js1 js2 -> restatused allowed id js2 js3 ->
  restatused allowed id js1 js3.
Proof.
  unfold restatused. intros H12. revert js3.
  induction H12 as [|j1 j2 js1 js2 H _ IH]; intros js3 H23.
  - by apply Forall2_nil_inv_l in H23 as ->.
  - apply Forall2_cons_inv_l in H23 as (j3 & js3' & H' & H23 & ->).
    constructor; [|by apply IH].
    destruct H as [->|(a1 & a2 & a3 & a4)]; [done|].
    destruct H' as [->|(b1 & b2 & b3 & b4)].
    + right. done.
    + right. repeat split; congruence.
Qed.

Lemma restatused_commit allowed id job st w :
  job_id job = id -> In st allowed ->
  restatused allowed id (jobs w) (jobs (snd (commit_status job st w))).
Proof.
  intros Hid Hst. simpl. unfold restatused.
  induction (jobs w) as [|j js IH]; simpl; constructor; [|done].
  unfold set_status. rewrite Hid.
  destruct (str_eqb (job_id j) id) eqn:E; [|by left].
  apply str_eqb_eq in E. right. done.
Qed.

Lemma restatused_same allowed id w w' :
  jobs w' = jobs w -> restatused allowed id (jobs w) (jobs w').
Proof. intros ->. apply restatused_refl. Qed.

Lemma restatused_url_failed allowed id w :
  In FAILED allowed ->
  restatused allowed id (jobs w)
    (jobs (match lookup_job id w with
           | Some job' => snd (commit_status job' FAILED w)
           | None => w
           end)).
Proof.
  intros Hf. destruct (lookup_job id w) as [job'|] eqn:E.
  - apply restatused_commit; [|done]. by apply find_job_id in E.
  - apply restatused_refl.
Qed.

Lemma url_task_restatused id target w :
  restatused [PROCESSING; COMPLETED; FAILED] id (jobs w)
    (jobs (snd (process_url_task env id target w))).
Proof.
  set (allowed := [PROCESSING; COMPLETED; FAILED]).
  assert (Hp : In PROCESSING allowed) by (by left).
  assert (Hc : In COMPLETED allowed) by (right; by left).
  assert (Hf : In FAILED allowed) by (right; right; by left).
  rewrite process_url_task_eq.
  destruct (lookup_job id w) as [job|] eqn:Hjob; [|apply restatused_refl].
  pose proof (find_job_id _ _ _ Hjob) as Hid. cbv zeta.
  eapply restatused_trans; [apply (restatused_commit _ _ job PROCESSING w Hid Hp)|].
  change (jobs (snd (commit_status job PROCESSING w)))
    with (jobs (with_log (fun l => l ++ [HttpGet target])
                  (snd (commit_status job PROCESSING w)))).
  destruct (get_text env target) as [page|e];
    [|by apply restatused_url_failed].
  destruct (nonempty (clean_whitespace page));
    [|by apply restatused_url_failed].
  destruct (chunk_text (clean_whitespace page)) as [chunks|e];
    [|by apply restatused_url_failed].
  destruct (store_chunks_in_db_frame env target chunks
              (with_log (fun l => l ++ [HttpGet target])
                 (snd (commit_status job PROCESSING w))))
    as (Hj & _).
  eapply restatused_trans; [apply (restatused_same _ _ _ _ Hj)|].
  destruct (fst (store_chunks_in_db env target chunks _)); cbn [snd].
  - by apply restatused_commit.
  - by apply restatused_url_failed.
Qed.

Lemma file_task_restatused id path ctype w :
  restatused [RUNNING; COMPLETED; FAILED] id (jobs w)
    (jobs (snd (process_file_task env id path ctype w))).
Proof.
  set (allowed := [RUNNING; COMPLETED; FAILED]).
  assert (Hp : In RUNNING allowed) by (by left).
  assert (Hc : In COMPLETED allowed) by (right; by left).
  assert (Hf : In FAILED allowed) by (right; right; by left).
  rewrite process_file_task_eq.
  destruct (lookup_job id w) as [job|] eqn:Hjob; [|apply restatused_refl].
  pose proof (find_job_id _ _ _ Hjob) as Hid. cbv zeta.
  eapply restatused_trans; [apply (restatused_commit _ _ job RUNNING w Hid Hp)|].
  pose proof (fetch_and_clean_file_logs env path ctype
                (snd (commit_status job RUNNING w))) as (Hj & _).
  eapply restatused_trans; [apply (restatused_same _ _ _ _ Hj)|].
  destruct (rbind _ chunk_text) as [chunks|e]; cbn [snd];
    [|by apply restatused_commit].
  destruct (store_file_chunks_in_db_frame env (url job) chunks
              (snd (fetch_and_clean_file env path ctype
                      (snd (commit_status job RUNNING w)))))
    as (Hj' & _).
  eapply restatused_trans; [apply (restatused_same _ _ _ _ Hj')|].
  destruct (fst (store_file_chunks_in_db env (url job) chunks _));
    cbn [snd]; by apply restatused_commit.
Qed.

End TaskRows.

(** X7. A task changes nothing in the job table but the status of the job
    it is called for: rows stay in place with their ids and source keys,
    rows of other jobs are untouched, and files and queue are as before.
    The statuses the URL task can leave are PROCESSING, COMPLETED and
    FAILED; the file task's are RUNNING, COMPLETED and FAILED. *)
Theorem tasks_touch_only_their_job (env : Env) (w : world) (id : str) :
  (forall target,
     let w' := snd (process_url_task env id target w) in
     restatused [PROCESSING; COMPLETED; FAILED] id (jobs w) (jobs w')
     /\ files w' = files w /\ queue w' = queue w)
  /\ (forall path ctype,
        let w' := snd (process_file_task env id path ctype w) in
        restatused [RUNNING; COMPLETED; FAILED] id (jobs w) (jobs w')
        /\ files w' = files w /\ queue w' = queue w).
Proof.
  split.
  - intros target. cbv zeta. split; [apply url_task_restatused|].
    by destruct (process_url_task_advances env id target w) as (_ & ? & ? & _).
  - intros path ctype. cbv zeta. split; [apply file_task_restatused|].
    by destruct (process_file_task_advances env id path ctype w)
      as (_ & ? & ? & _).
Qed.

(** X8. For a job that exists, the outcome of [process_url_task] and the
    status it leaves agree: a normal return is [{job_id, COMPLETED}] and
    the job is COMPLETED; a raised exception leaves the job FAILED. *)
Theorem url_task_outcome_matches_status
    (env : Env) (id target : str) (w : world) (job : IngestionJob) :
  lookup_job id w = Some job ->
  match fst (process_url_task env id target w) with
  | Ok r =>
      r = ReturnStatus id COMPLETED
      /\ lookup_job id (snd (process_url_task env id target w))
         = Some {| job_id := job_id job; url := url job;
                   status := COMPLETED |}
  | Raise _ =>
      lookup_job id (snd (process_url_task env id target w))
      = Some {| job_id := job_id job; url := url job; status := FAILED |}
  end.
Proof.
  intros Hjob.
  destruct (fst (process_url_task env id target w)) as [r|e] eqn:E;
    [|by eapply url_task_failure_propagates].
  revert E. rewrite process_url_task_eq, Hjob. cbv zeta.
  pose proof (find_job_id _ _ _ Hjob) as Hid.
  destruct (get_text env target) as [page|e]; [|done].
  destruct (nonempty (clean_whitespace page)); [|done].
  destruct (chunk_text (clean_whitespace page)) as [chunks|e]; [|done].
  destruct (store_chunks_in_db_frame env target chunks
              (with_log (fun l => l ++ [HttpGet target])
                 (snd (commit_status job PROCESSING w))))
    as (Hj & _).
  destruct (fst (store_chunks_in_db env target chunks _)); [|done].
  cbn [fst snd]. intros [= <-]. split; [done|].
  rewrite (lookup_commit id job
             {| job_id := job_id job; url := url job;
                status := PROCESSING |}); [done| |done].
  rewrite (lookup_job_same_jobs _ _ _ Hj).
  rewrite (lookup_job_same_jobs id (snd (commit_status job PROCESSING w)))
    by done.
  by apply lookup_commit.
Qed.

Lemma url_task_outcome_matches_status_witness :
  lookup_job (py "job-1") url_world
  = Some {| job_id := py "job-1"; url := py "https://example.com/a";
            status := PENDING |}
  /\ fst (process_url_task (sample_env (Ok [])) (py "job-1")
            (py "https://example.com/a") url_world)
     = Ok (ReturnStatus (py "job-1") COMPLETED)
  /\ lookup_job (py "job-1")
       (snd (process_url_task (sample_env (Ok [])) (py "job-1")
               (py "https://example.com/a") url_world))
     = Some {| job_id := py "job-1"; url := py "https://example.com/a";
               status := COMPLETED |}.
Proof.
  split; [reflexivity|].
  pose proof (url_task_outcome_matches_status (sample_env (Ok []))
                (py "job-1") (py "https://example.com/a") url_world _
                eq_refl) as H.
  change (fst (process_url_task (sample_env (Ok [])) (py "job-1")
                 (py "https://example.com/a") url_world))
    with (Ok (ReturnStatus (py "job-1") COMPLETED) : result task_return)
    in H |- *.
  destruct H as [_ H]. split; [reflexivity|exact H].
Defined.

(** X9. A page with nothing but whitespace fails the URL task: it raises
    the "no text content" error, leaves the job FAILED, and never calls
    the collection. *)
Theorem url_task_blank_page_fails
    (env : Env) (id target : str) (w : world) (job : IngestionJob)
    (page : str) :
  lookup_job id w = Some job ->
  get_text env target = Ok page ->
  forallb is_space page = true ->
  process_url_task env id target w
  = (Raise (ValueError (py "Failed to get any text content from URL.")),
     with_log
       (fun l => l ++ [Commit id PROCESSING; HttpGet target;
                       Commit id FAILED])
       (with_jobs (List.map (set_status id FAILED)) w)).
Proof.
  intros Hjob Hpage Hblank.
  apply clean_whitespace_nil_iff in Hblank.
  pose proof (find_job_id _ _ _ Hjob) as Hid.
  rewrite process_url_task_eq, Hjob, Hpage. cbv zeta. rewrite Hblank.
  cbn [nonempty]. f_equal.
  erewrite (lookup_job_same_jobs id (snd (commit_status job PROCESSING w)))
    by done.
  rewrite (lookup_commit id job job PROCESSING w Hjob Hid).
  unfold commit_status, with_log, with_jobs. simpl. rewrite Hid.
  f_equal.
  - rewrite List.map_map. apply List.map_ext. intros j.
    apply set_status_twice.
  - by rewrite <- !app_assoc.
Qed.

Lemma url_task_blank_page_fails_witness :
  let env :=
    {| get_text := fun _ => Ok (py "   ");
       pdf_pages := fun _ => Ok [];
       docx_paragraphs := fun _ => Ok [];
       add_fault := fun _ => None;
       query_fault := fun _ => None;
       send_fault := fun _ => None;
       nearest := fun _ _ => [];
       enrich_completion := fun p => Ok p;
       chat_completion := fun p => Ok p;
       tempdir := py "/tmp" |} in
  forallb is_space (py "   ") = true
  /\ fst (process_url_task env (py "job-1") (py "https://example.com/a")
            url_world)
     = Raise (ValueError (py "Failed to get any text content from URL.")).
Proof.
  intros env. split; [reflexivity|].
  rewrite (url_task_blank_page_fails env (py "job-1")
             (py "https://example.com/a") url_world
             {| job_id := py "job-1"; url := py "https://example.com/a";
                status := PENDING |} (py "   "));
    reflexivity.
Defined.

(** X10. A page whose cleaned text is not empty and shorter than the chunk
    size is handed to the store by the URL task as one chunk, the cleaned
    text, under the id ["{url}_0"] with the URL as its ["source_url"], and
    the task returns COMPLETED. When the collection has no entry under that
    id the chunk becomes one; when it has, the collection is left as it
    is, with the old entry. *)
Theorem url_task_stores_short_page
    (env : Env) (id target : str) (w : world) (job : IngestionJob)
    (page : str) :
  lookup_job id w = Some job ->
  get_text env target = Ok page ->
  clean_whitespace page <> [] ->
  (length (clean_whitespace page) < 1000)%nat ->
  add_fault env [target ++ py "_" ++ dec 0] = None ->
  fst (process_url_task env id target w) = Ok (ReturnStatus id COMPLETED)
  /\ collection (snd (process_url_task env id target w))
     = match collection w !! (target ++ py "_" ++ dec 0) with
       | Some old => collection w
       | None =>
           <[target ++ py "_" ++ dec 0 :=
               {| document := clean_whitespace page;
                  metadata := {[ py "source_url" := target ]} |}]>
             (collection w)
       end.
Proof.
  intros Hjob Hpage Hne Hlen Hadd.
  assert (Hstore : forall w0,
             store_chunks_in_db env target [clean_whitespace page] w0
             = (Ok tt,
                with_collection
                  (fun c =>
                     add_record c
                       (target ++ py "_" ++ dec 0,
                        {| document := clean_whitespace page;
                           metadata := {[ py "source_url" := target ]} |}))
                  (with_log
                     (fun l =>
                        l ++ [CollectionAdd [target ++ py "_" ++ dec 0]])
                     w0))).
  { intros w0. rewrite store_chunks_in_db_eq. cbv zeta.
    change (chunk_ids target [clean_whitespace page])
      with [target ++ py "_" ++ dec 0].
    by rewrite Hadd. }
  rewrite process_url_task_eq, Hjob, Hpage. cbv zeta.
  destruct (clean_whitespace page) as [|c text] eqn:E; [done|].
  cbn [nonempty]. rewrite <- E in *.
  rewrite (chunk_text_clean_short page) by (done || by rewrite E).
  by rewrite Hstore.
Qed.

Lemma url_task_stores_short_page_witness :
  let env := sample_env (Ok []) in
  collection (snd (process_url_task env (py "job-1")
                     (py "https://example.com/a") url_world))
  = {[ py "https://example.com/a_0" :=
         {| document := join nl [py "Hello"; py "world"];
            metadata := {[ py "source_url" := py "https://example.com/a" ]}
         |} ]}.
Proof.
  intros env.
  destruct (url_task_stores_short_page env (py "job-1")
              (py "https://example.com/a") url_world
              {| job_id := py "job-1"; url := py "https://example.com/a";
                 status := PENDING |}
              (py "  Hello   world ")) as [_ H];
    [reflexivity|reflexivity|by vm_compute|vm_compute; lia|reflexivity|].
  rewrite H. by vm_compute.
Defined.

(** X11. The file task handed a content type that is neither PDF nor DOCX
    marks the job FAILED without opening the file; handed a path at which
    there is no file it marks the job FAILED as well. Either way it returns
    normally and stores nothing. *)
Theorem file_task_bad_input_fails
    (env : Env) (id path ctype : str) (w : world) (job : IngestionJob) :
  lookup_job id w = Some job ->
  (ctype <> application_pdf /\ ctype <> application_docx ->
   process_file_task env id path ctype w
   = (Ok ReturnNone,
      with_log (fun l => l ++ [Commit id RUNNING; Commit id FAILED])
        (with_jobs (List.map (set_status id FAILED)) w)))
  /\ (files w !! path = None ->
      fst (process_file_task env id path ctype w) = Ok ReturnNone
      /\ lookup_job id (snd (process_file_task env id path ctype w))
         = Some {| job_id := job_id job; url := url job; status := FAILED |}
      /\ collection (snd (process_file_task env id path ctype w))
         = collection w).
Proof.
  intros Hjob. pose proof (find_job_id _ _ _ Hjob) as Hid. split.
  - intros [Hpdf Hdocx]. apply str_eqb_neq in Hpdf, Hdocx.
    rewrite process_file_task_eq, Hjob. cbv zeta.
    unfold fetch_and_clean_file, bind. rewrite Hpdf, Hdocx.
    unfold raise. cbn [fst snd rbind].
    unfold commit_status, with_log, with_jobs. simpl. rewrite Hid.
    f_equal. f_equal.
    + rewrite List.map_map. apply List.map_ext. intros j.
      apply set_status_twice.
    + by rewrite <- !app_assoc.
  - intros Hnone.
    assert (Hfetch : exists e,
               fst (fetch_and_clean_file env path ctype w) = Raise e).
    { unfold fetch_and_clean_file, bind.
      destruct (str_eqb ctype application_pdf).
      - rewrite extract_text_from_pdf_eq, Hnone. by eexists.
      - destruct (str_eqb ctype application_docx).
        + rewrite extract_text_from_docx_eq, Hnone. by eexists.
        + by eexists. }
    destruct Hfetch as [e He].
    rewrite process_file_task_eq, Hjob. cbv zeta.
    pose proof (fetch_and_clean_file_logs env path ctype
                  (snd (commit_status job RUNNING w)))
      as (Hj & Hc & _).
    rewrite (fetch_and_clean_file_result env path ctype w
               (snd (commit_status job RUNNING w))) by done.
    rewrite He. cbn [rbind fst snd]. split; [done|]. split.
    + rewrite (lookup_commit id job
                 {| job_id := job_id job; url := url job;
                    status := RUNNING |}); [done| |done].
      rewrite (lookup_job_same_jobs _ _ _ Hj). by apply lookup_commit.
    + by rewrite commit_status_collection, Hc.
Qed.

Lemma file_task_bad_input_fails_witness :
  lookup_job (py "job-1") pdf_world
  = Some {| job_id := py "job-1"; url := py "tmpabcdefgh.pdf";
            status := PENDING |}
  /\ py "text/plain" <> application_pdf
  /\ lookup_job (py "job-1")
       (snd (process_file_task (sample_env (Ok [])) (py "job-1")
               sample_pdf_path (py "text/plain") pdf_world))
     = Some {| job_id := py "job-1"; url := py "tmpabcdefgh.pdf";
               status := FAILED |}
  /\ files pdf_world !! py "/tmp/missing.pdf" = None
  /\ lookup_job (py "job-1")
       (snd (process_file_task (sample_env (Ok [])) (py "job-1")
               (py "/tmp/missing.pdf") application_pdf pdf_world))
     = Some {| job_id := py "job-1"; url := py "tmpabcdefgh.pdf";
               status := FAILED |}.
Proof.
  split; [reflexivity|]. split; [by vm_compute|].
  destruct (file_task_bad_input_fails (sample_env (Ok [])) (py "job-1")
              sample_pdf_path (py "text/plain") pdf_world _ eq_refl)
    as [H1 _].
  destruct (file_task_bad_input_fails (sample_env (Ok [])) (py "job-1")
              (py "/tmp/missing.pdf") application_pdf pdf_world _ eq_refl)
    as [_ H2].
  split.
  - rewrite H1; [reflexivity|]. split; by vm_compute.
  - split; [reflexivity|]. by apply H2.
Defined.

(** ** Statuses *)

Section Statuses.

Context (env : Env).
Implicit Types (w : world).

Lemma statuses_known_restatused allowed id w w' :
  (forall st, In st allowed ->
              In st [PENDING; PROCESSING; COMPLETED; FAILED]) ->
  restatused allowed id (jobs w) (jobs w') ->
  statuses_known w -> statuses_known w'.
Proof.
  unfold statuses_known, restatused. intros Hallowed H.
  induction H as [|j j' js js' Hj _ IH]; intros Hk; [done|].
  apply Forall_cons in Hk as [Hk1 Hk2].
  constructor; [|by apply IH].
  destruct Hj as [->|(_ & _ & _ & Hst)]; [done|by apply Hallowed].
Qed.

Lemma statuses_known_add w (new_id key : str) :
  statuses_known w ->
  statuses_known
    (snd (add_job {| job_id := new_id; url := key; status := PENDING |} w)).
Proof.
  unfold statuses_known. simpl. intros H. apply Forall_app. split; [done|].
  constructor; [by left|done].
Qed.

End Statuses.

(** X12. Apart from the file task, no operation ever leaves a row with a
    status other than PENDING, PROCESSING, COMPLETED or FAILED. *)
Theorem statuses_stay_known (env : Env) (op : operation) (w : world) :
  (forall id path ctype, op <> FileTask id path ctype) ->
  statuses_known w -> statuses_known (run env op w).
Proof.
  intros Hop Hk.
  destruct op as [new_id u|new_id candidates file|id target
                 |id path ctype|q]; simpl.
  - rewrite ingest_url_eq.
    destruct (List.find _ (jobs w)); [done|]. cbv zeta.
    destruct (send_fault env _) as [[]|]; by apply statuses_known_add.
  - rewrite ingest_file_eq.
    destruct (negb _); [done|]. cbv zeta.
    destruct (unused_name _ _ _ _); [|done].
    destruct (List.find _ (jobs w)); [done|].
    destruct (send_fault env _);
      by apply (statuses_known_add
                  (with_files (fun fs => <[_ := _]> fs) w)).
  - eapply statuses_known_restatused; [|apply url_task_restatused|done].
    intros st [<-|[<-|[<-|[]]]]; simpl; tauto.
  - by destruct (Hop id path ctype).
  - destruct (query_logs env q w) as (H & _). unfold statuses_known.
    by rewrite H.
Qed.

Lemma statuses_stay_known_witness :
  statuses_known url_world
  /\ statuses_known
       (run (sample_env (Ok []))
          (UrlTask (py "job-1") (py "https://example.com/a")) url_world).
Proof.
  assert (H : statuses_known url_world).
  { constructor; [by left|constructor]. }
  split; [exact H|].
  apply (statuses_stay_known (sample_env (Ok []))); [done|exact H].
Defined.

(** ** The submission endpoints, further *)

(** X13. A URL whose key no job has is accepted: a PENDING row is added
    for it, one [process_url_task] message with the new id and the URL is
    sent, and the new id is returned. When the broker fails instead, the
    caller gets a 500 and nothing is queued, but the row has been
    committed and stays PENDING. *)
Theorem ingest_url_accepts_new_key
    (env : Env) (new_id : str) (u : HttpUrl) (w : world) :
  ~ In (url_str u) (keys w) ->
  let msg := {| task_name := py "process_url_task";
                task_args := [new_id; url_str u] |} in
  let row := {| job_id := new_id; url := url_str u; status := PENDING |} in
  let w1 := with_log (fun l => l ++ [Insert row])
              (with_jobs (fun js => js ++ [row]) w) in
  (send_fault env msg = None ->
   ingest_url env new_id u w
   = (Ok (IngestResponse new_id), with_queue (fun q => q ++ [msg]) w1))
  /\ (forall what,
        send_fault env msg = Some (ExternalError what) ->
        ingest_url env new_id u w
        = (Raise (HTTPException 500
                    (py "Failed to create and schedule job: " ++ what)),
           w1)).
Proof.
  intros Hnew. cbv zeta. apply find_url_none in Hnew.
  rewrite ingest_url_eq, Hnew. cbv zeta.
  split; [by intros ->|]. by intros what ->.
Qed.

Lemma ingest_url_accepts_new_key_witness :
  ~ In (url_str sample_url) (keys empty_world)
  /\ fst (ingest_url (sample_env (Ok [])) (py "job-1") sample_url
            empty_world)
     = Ok (IngestResponse (py "job-1"))
  /\ queue (snd (ingest_url (sample_env (Ok [])) (py "job-1") sample_url
                   empty_world))
     = [{| task_name := py "process_url_task";
           task_args := [py "job-1"; py "https://example.com/a"] |}].
Proof.
  split; [by intros []|].
  destruct (ingest_url_accepts_new_key (sample_env (Ok [])) (py "job-1")
              sample_url empty_world) as [H _]; [by intros []|].
  rewrite H by reflexivity. split; reflexivity.
Defined.

(** X14. An upload is turned away before anything is written in two
    cases: a content type other than PDF or DOCX gets a 400, and a temp
    directory in which every candidate name is taken gets a 500. In both
    the world is left exactly as it was. *)
Theorem ingest_file_early_rejections
    (env : Env) (new_id : str) (candidates : list (list nat))
    (file : UploadFile) (w : world) :
  (content_type file <> application_pdf
   /\ content_type file <> application_docx ->
   ingest_file env new_id candidates file w
   = (Raise (HTTPException 400
               (py "Only PDF and DOCX files are supported.")), w))
  /\ (existsb (str_eqb (content_type file)) allowed_types = true ->
      (forall draw,
         In draw candidates ->
         is_Some (files w
                  !! in_dir (tempdir env)
                       (temp_name draw
                          (upload_suffix (content_type file))))) ->
      exists detail,
        ingest_file env new_id candidates file w
        = (Raise (HTTPException 500 detail), w)).
Proof.
  split.
  - intros [Hpdf Hdocx]. apply str_eqb_neq in Hpdf, Hdocx.
    rewrite ingest_file_eq. unfold allowed_types. simpl existsb.
    by rewrite Hpdf, Hdocx.
  - intros Hallowed Htaken. rewrite ingest_file_eq, Hallowed. simpl negb.
    cbv iota zeta.
    assert (Hnone : unused_name (tempdir env)
                      (upload_suffix (content_type file)) candidates
                      (files w) = Raise FileExistsError).
    { induction candidates as [|draw more IH]; [done|]. simpl.
      destruct (Htaken draw (or_introl eq_refl)) as [content ->].
      apply IH. intros d Hd. apply Htaken. by right. }
    rewrite Hnone. by eexists.
Qed.

Lemma ingest_file_early_rejections_witness :
  let txt := {| content_type := py "text/plain";
                file_content := [104; 105]%N |} in
  ingest_file (sample_env (Ok [])) (py "job-2") [sample_draw] txt pdf_world
  = (Raise (HTTPException 400
              (py "Only PDF and DOCX files are supported.")), pdf_world)
  /\ exists detail,
       ingest_file (sample_env (Ok [])) (py "job-2") [sample_draw]
         sample_pdf pdf_world
       = (Raise (HTTPException 500 detail), pdf_world).
Proof.
  intros txt.
  destruct (ingest_file_early_rejections (sample_env (Ok [])) (py "job-2")
              [sample_draw] txt pdf_world) as [H1 _].
  destruct (ingest_file_early_rejections (sample_env (Ok [])) (py "job-2")
              [sample_draw] sample_pdf pdf_world) as [_ H2].
  split.
  - apply H1. split; by vm_compute.
  - apply H2; [reflexivity|].
    intros draw [<-|[]]. eexists. reflexivity.
Defined.

(** X15. When the base name of the new temp file is already the key of a
    job, [ingest_file] adds no row and sends no message, but the conflict
    it raises is caught by its own handler: the caller gets a 500, not a
    409, and the temp file just written stays behind. *)
Theorem ingest_file_conflict_is_a_500
    (env : Env) (new_id : str) (candidates : list (list nat))
    (file : UploadFile) (w : world) (path : str) :
  existsb (str_eqb (content_type file)) allowed_types = true ->
  unused_name (tempdir env) (upload_suffix (content_type file)) candidates
    (files w) = Ok path ->
  In (basename path) (keys w) ->
  let w' := snd (ingest_file env new_id candidates file w) in
  jobs w' = jobs w /\ queue w' = queue w
  /\ files w' = <[path := file_content file]> (files w)
  /\ exists detail,
       fst (ingest_file env new_id candidates file w)
       = Raise (HTTPException 500 detail).
Proof.
  intros Hallowed Hpath Hin. cbv zeta.
  destruct (ingest_file_taken_key env new_id candidates file w path
              Hallowed Hpath Hin) as (Hj & Hq & Hd).
  split; [done|]. split; [done|]. split; [|done].
  rewrite ingest_file_eq, Hallowed, Hpath. simpl negb. cbv iota zeta.
  destruct (List.find _ (jobs w)) eqn:E; [done|].
  by apply find_url_none in E.
Qed.

Lemma ingest_file_conflict_is_a_500_witness :
  let w := with_files (fun _ => ∅) pdf_world in
  unused_name (py "/tmp") (upload_suffix application_pdf) [sample_draw]
    (files w) = Ok sample_pdf_path
  /\ In (basename sample_pdf_path) (keys w)
  /\ jobs (snd (ingest_file (sample_env (Ok [])) (py "job-2") [sample_draw]
                  sample_pdf w))
     = jobs w
  /\ exists detail,
       fst (ingest_file (sample_env (Ok [])) (py "job-2") [sample_draw]
              sample_pdf w)
       = Raise (HTTPException 500 detail).
Proof.
  intros w. split; [reflexivity|]. split; [by left|].
  destruct (ingest_file_conflict_is_a_500 (sample_env (Ok [])) (py "job-2")
              [sample_draw] sample_pdf w sample_pdf_path)
    as (Hj & _ & _ & Hd); [reflexivity|reflexivity|by left|].
  split; [exact Hj|exact Hd].
Defined.

(** ** The system over time *)

Section OverTime.

Context (env : Env).
Implicit Types (w : world) (op : operation).

Lemma run_all_invariant (P : world -> Prop) ops w :
  (forall op w, P w -> P (run env op w)) -> P w -> P (run_all env ops w).
Proof.
  intros Hstep. revert w. induction ops as [|op ops IH]; intros w Hw;
    [done|].
  simpl. by apply IH, Hstep.
Qed.

Lemma restatused_in allowed id (js js' : list IngestionJob) j :
  restatused allowed id js js' -> In j js ->
  exists j', In j' js' /\ job_id j' = job_id j /\ url j' = url j.
Proof.
  intros H. induction H as [|j0 j0' js js' Hj _ IH]; [done|].
  intros [<-|Hin].
  - exists j0'. split; [by left|].
    destruct Hj as [->|(a1 & a2 & a3 & _)]; [done|]. split; congruence.
  - destruct (IH Hin) as (j' & ? & ?). exists j'. split; [by right|done].
Qed.

Lemma dispatched_kept_rows w w' :
  queue w' = queue w ->
  (forall j, In j (jobs w) ->
     exists j', In j' (jobs w') /\ job_id j' = job_id j /\ url j' = url j) ->
  dispatched_for_rows w -> dispatched_for_rows w'.
Proof.
  intros Hq Hrows Hd msg Hmsg. rewrite Hq in Hmsg.
  destruct (Hd msg Hmsg) as (j & Hj & Hcase).
  destruct (Hrows j Hj) as (j' & Hj' & Hid & Hurl).
  exists j'. split; [done|]. by rewrite Hid, Hurl.
Qed.

Lemma dispatched_new_row w row msg :
  dispatched_for_rows w ->
  ((task_name msg = py "process_url_task"
    /\ task_args msg = [job_id row; url row])
   \/ (task_name msg = py "process_file_task"
       /\ exists path ctype,
            task_args msg = [job_id row; path; ctype]
            /\ basename path = url row)) ->
  forall fs,
  dispatched_for_rows (snd (add_job row (with_files fs w)))
  /\ dispatched_for_rows
       (with_queue (fun q => q ++ [msg])
          (snd (add_job row (with_files fs w)))).
Proof.
  intros Hd Hmsg fs.
  assert (Hold : forall m, In m (queue w) ->
             exists j, In j (jobs w ++ [row])
               /\ ((task_name m = py "process_url_task"
                    /\ task_args m = [job_id j; url j])
                   \/ (task_name m = py "process_file_task"
                       /\ exists path ctype,
                            task_args m = [job_id j; path; ctype]
                            /\ basename path = url j))).
  { intros m Hm. destruct (Hd m Hm) as (j & Hj & Hc).
    exists j. split; [|done]. apply in_or_app. by left. }
  split.
  - intros m Hm. by apply Hold.
  - intros m Hm. simpl in Hm. apply in_app_or in Hm as [Hm|[<-|[]]].
    + by apply Hold.
    + exists row. split; [|done]. simpl. apply in_or_app. right. by left.
Qed.

Lemma run_dispatched op w :
  dispatched_for_rows w -> dispatched_for_rows (run env op w).
Proof.
  intros Hd.
  destruct op as [new_id u|new_id candidates file|id target
                 |id path ctype|q]; simpl.
  - rewrite ingest_url_eq.
    destruct (List.find _ (jobs w)); [done|]. cbv zeta.
    destruct (dispatched_new_row w
                {| job_id := new_id; url := url_str u; status := PENDING |}
                {| task_name := py "process_url_task";
                   task_args := [new_id; url_str u] |} Hd
                (or_introl (conj eq_refl eq_refl)) (fun fs => fs))
      as [H1 H2].
    by destruct (send_fault env _) as [[]|].
  - rewrite ingest_file_eq.
    destruct (negb _); [done|]. cbv zeta.
    destruct (unused_name _ _ _ _) as [p|e]; [|done].
    destruct (List.find _ (jobs w)).
    { cbn [snd]. by apply (dispatched_kept_rows w); [|eauto|]. }
    destruct (dispatched_new_row w
                {| job_id := new_id; url := basename p; status := PENDING |}
                {| task_name := py "process_file_task";
                   task_args := [new_id; p; content_type file] |} Hd)
      with (fs := fun fs : gmap str bytes => <[p := file_content file]> fs)
      as [H1 H2].
    { right. split; [done|]. by exists p, (content_type file). }
    by destruct (send_fault env _).
  - apply (dispatched_kept_rows w); [| |done].
    + by destruct (process_url_task_advances env id target w)
        as (_ & _ & ? & _).
    + intros j. apply restatused_in with (id := id)
        (allowed := [PROCESSING; COMPLETED; FAILED]).
      apply url_task_restatused.
  - apply (dispatched_kept_rows w); [| |done].
    + by destruct (process_file_task_advances env id path ctype w)
        as (_ & _ & ? & _).
    + intros j. apply restatused_in with (id := id)
        (allowed := [RUNNING; COMPLETED; FAILED]).
      apply file_task_restatused.
  - destruct (query_logs env q w) as (Hj & _ & _ & Hq & _).
    apply (dispatched_kept_rows w); [done| |done].
    intros j Hin. exists j. by rewrite Hj.
Qed.

(** An operation keeps every row, with its id and key, and adds at most
    one. *)
Lemma run_rows op w :
  exists more,
    List.map job_id (jobs (run env op w))
    = List.map job_id (jobs w) ++ List.map job_id more
    /\ keys (run env op w) = keys w ++ List.map url more.
Proof.
  assert (Hsame : forall w',
             same_rows w w' ->
             exists more,
               List.map job_id (jobs w')
               = List.map job_id (jobs w) ++ List.map job_id more
               /\ keys w' = keys w ++ List.map url more).
  { intros w' [H1 H2]. exists []. simpl. by rewrite !app_nil_r. }
  assert (Hadd : forall row fs,
             let w' := snd (add_job row (with_files fs w)) in
             List.map job_id (jobs w')
             = List.map job_id (jobs w) ++ List.map job_id [row]
             /\ keys w' = keys w ++ List.map url [row]).
  { intros row fs. unfold keys. simpl. by rewrite !List.map_app. }
  destruct op as [new_id u|new_id candidates file|id target
                 |id path ctype|q]; simpl.
  - rewrite ingest_url_eq.
    destruct (List.find _ (jobs w)); [by apply Hsame|]. cbv zeta.
    eexists [_].
    destruct (send_fault env _) as [[]|];
      apply (Hadd _ (fun fs => fs)).
  - rewrite ingest_file_eq.
    destruct (negb _); [by apply Hsame|]. cbv zeta.
    destruct (unused_name _ _ _ _) as [p|e]; [|by apply Hsame].
    destruct (List.find _ (jobs w)); [by apply Hsame|].
    eexists [_]. destruct (send_fault env _); apply Hadd.
  - apply Hsame. by destruct (process_url_task_advances env id target w).
  - apply Hsame.
    by destruct (process_file_task_advances env id path ctype w).
  - apply Hsame. destruct (query_logs env q w) as (H & _).
    unfold same_rows. by rewrite H.
Qed.

Lemma run_files_same op w path content :
  files w !! path = Some content ->
  files (run env op w) !! path = Some content.
Proof.
  intros Hp. destruct (run_files env op w) as [->|(p & c & Hnone & ->)];
    [done|].
  rewrite lookup_insert_ne; [done|]. intros ->. congruence.
Qed.

End OverTime.

(** X16. Whatever is called, in whatever order, starting from nothing:
    every message that has been sent to the broker names a job that has a
    row, by its id, together with that job's URL or with a path whose base
    name is that job's key. A row is always committed before its task is
    sent. *)
Theorem dispatch_follows_rows (env : Env) (ops : list operation) :
  dispatched_for_rows (run_all env ops empty_world).
Proof.
  apply run_all_invariant; [apply run_dispatched|]. by intros msg [].
Qed.

(** X17. Neither service ever removes or rewrites a file: a file that is
    there with some content is there with that content after any sequence
    of operations. *)
Theorem files_are_never_touched
    (env : Env) (ops : list operation) (w : world) (path : str)
    (content : bytes) :
  files w !! path = Some content ->
  files (run_all env ops w) !! path = Some content.
Proof.
  intros H.
  apply (run_all_invariant env
           (fun w => files w !! path = Some content)); [|done].
  intros op w0. apply run_files_same.
Qed.

Lemma files_are_never_touched_witness :
  files pdf_world !! sample_pdf_path = Some (file_content sample_pdf)
  /\ files (run_all (sample_env (Ok []))
              [FileTask (py "job-1") sample_pdf_path application_pdf;
               IngestFile (py "job-2") [sample_draw; [1; 1; 1; 1; 1; 1; 1; 1]]
                 sample_pdf]
              pdf_world)
     !! sample_pdf_path
     = Some (file_content sample_pdf).
Proof.
  split; [reflexivity|].
  apply (files_are_never_touched (sample_env (Ok []))). reflexivity.
Defined.

(** X18. No row is ever deleted or renamed: after any sequence of
    operations the ids and the source keys of the job table are those it
    had, in the same order, followed by those of the rows added since. *)
Theorem rows_are_never_deleted
    (env : Env) (ops : list operation) (w : world) :
  exists more,
    List.map job_id (jobs (run_all env ops w))
    = List.map job_id (jobs w) ++ List.map job_id more
    /\ keys (run_all env ops w) = keys w ++ List.map url more.
Proof.
  revert w. induction ops as [|op ops IH]; intros w.
  - exists []. simpl. by rewrite !app_nil_r.
  - simpl. destruct (run_rows env op w) as (m1 & H1 & H2).
    destruct (IH (run env op w)) as (m2 & H3 & H4).
    exists (m1 ++ m2). rewrite H3, H4, H1, H2, !List.map_app.
    by rewrite !app_assoc.
Qed.

(** ** What the collection holds *)

Section Stored.

Context (env : Env).
Implicit Types (w : world) (c : gmap str entry) (op : operation).

Lemma py_cons a s : py (String a s) = N_of_ascii a :: py s.
Proof. done. Qed.

(** [str(i)] has digits only. *)
Lemma dec_digits n : Forall (fun ch => (48 <= ch <= 57)%N) (dec n).
Proof.
  unfold dec. generalize (Nat.to_uint n). intros d.
  induction d; simpl NilEmpty.string_of_uint;
    [constructor|rewrite py_cons; constructor; [by vm_compute|done]..].
Qed.

Lemma dec_no_underscore n : ~ In 95%N (dec n).
Proof.
  intros H. pose proof (dec_digits n) as Hd.
  rewrite List.Forall_forall in Hd. specialize (Hd _ H). lia.
Qed.

Lemma split_at_last {A} (x : A) (b b' a a' : list A) :
  ~ In x a -> ~ In x a' -> b ++ x :: a = b' ++ x :: a' -> b = b' /\ a = a'.
Proof.
  intros Ha Ha'. revert b'. induction b as [|y b IH]; intros [|y' b'] H;
    simpl in H.
  - by injection H.
  - injection H as <- ->. destruct Ha. apply in_or_app. right. by left.
  - injection H as -> <-. destruct Ha'. apply in_or_app. right. by left.
  - injection H as <- H. destruct (IH _ H) as [-> ->]. done.
Qed.

Lemma chunk_id_source source source' i j :
  chunk_id source i = chunk_id source' j -> source = source' /\ i = j.
Proof.
  unfold chunk_id. change (py "_") with [95%N]. simpl. intros H.
  apply split_at_last in H as [-> H]; try apply dec_no_underscore.
  split; [done|]. by apply dec_inj.
Qed.

(** What is found in the collection after a store: what was there, or one
    of the chunks under its id and with its metadata. *)
Lemma store_effect_lookup key source chunks c id e :
  store_effect env key source chunks c !! id = Some e ->
  c !! id = Some e
  \/ exists i chunk,
       chunks !! i = Some chunk /\ id = chunk_id source i
       /\ e = {| document := chunk; metadata := {[ key := source ]} |}.
Proof.
  unfold store_effect. destruct chunks as [|chunk0 chunks']; [by left|].
  destruct (add_fault env _); [by left|].
  set (chunks := chunk0 :: chunks').
  destruct (decide (id ∈ chunk_ids source chunks)) as [Hin|Hout].
  - intros H.
    destruct (c !! id) as [old|] eqn:Hold.
    { left. by rewrite (fold_add_lookup_old _ c id old Hold) in H. }
    right. apply list_elem_of_lookup in Hin as (i & Hi).
    destruct (chunks !! i) as [chunk|] eqn:Hc.
    + rewrite (chunk_ids_lookup source chunks i chunk Hc) in Hi.
      injection Hi as <-. exists i, chunk. split; [done|]. split; [done|].
      rewrite (fold_add_lookup_new _ c (chunk_id source i)
                 {| document := chunk; metadata := {[ key := source ]} |})
        in H.
      * by injection H.
      * rewrite stored_items_ids. apply chunk_ids_NoDup.
      * by apply stored_items_elem.
      * done.
    + apply lookup_lt_Some in Hi. apply lookup_ge_None in Hc.
      rewrite chunk_ids_length in Hi. lia.
  - rewrite fold_add_lookup_other; [by left|].
    by rewrite stored_items_ids.
Qed.

Lemma store_effect_other key source chunks c source' i :
  source' <> source ->
  store_effect env key source chunks c !! chunk_id source' i
  = c !! chunk_id source' i.
Proof.
  intros Hne. unfold store_effect.
  destruct chunks as [|chunk0 chunks']; [done|].
  destruct (add_fault env _); [done|].
  apply fold_add_lookup_other. rewrite stored_items_ids.
  unfold chunk_ids. intros Hin.
  apply list_elem_of_In, List.in_map_iff in Hin as (j & Hj & _).
  apply chunk_id_source in Hj as [-> _]. done.
Qed.

Lemma store_effect_stored_under allowed key source text chunks c :
  In key allowed -> Forall (good_chunk text) chunks ->
  stored_under allowed c ->
  stored_under allowed (store_effect env key source chunks c).
Proof.
  intros Hkey Hgood Hc id e
    [H|(i & chunk & Hi & -> & ->)]%store_effect_lookup; [by apply Hc|].
  rewrite List.Forall_forall in Hgood.
  destruct (Hgood chunk) as (H1 & H2 & H3 & _).
  { apply list_elem_of_In, list_elem_of_lookup. by exists i. }
  exists source, i, key. done.
Qed.

Lemma url_task_effect_stored_under allowed target c :
  In (py "source_url") allowed ->
  stored_under allowed c -> stored_under allowed (url_task_effect env target c).
Proof.
  intros Hk Hc. unfold url_task_effect.
  destruct (get_text env target) as [page|]; [|done].
  destruct (nonempty _); [|done].
  destruct (chunk_text_good (clean_whitespace page)) as (chunks & -> & Hg).
  by eapply store_effect_stored_under.
Qed.

Lemma file_task_effect_stored_under allowed key text c :
  In (py "source_file") allowed ->
  stored_under allowed c ->
  stored_under allowed (file_task_effect env key text c).
Proof.
  intros Hk Hc. unfold file_task_effect.
  destruct text as [t|]; simpl; [|done].
  destruct (chunk_text_good t) as (chunks & -> & Hg).
  by eapply store_effect_stored_under.
Qed.

(** Only the two tasks write to the collection. *)
Lemma run_collection op w :
  collection (run env op w)
  = match op with
    | UrlTask id target =>
        match lookup_job id w with
        | Some _ => url_task_effect env target (collection w)
        | None => collection w
        end
    | FileTask id path ctype =>
        match lookup_job id w with
        | Some job =>
            file_task_effect env (url job)
              (fst (fetch_and_clean_file env path ctype w)) (collection w)
        | None => collection w
        end
    | _ => collection w
    end.
Proof.
  destruct op as [new_id u|new_id candidates file|id target
                 |id path ctype|q]; simpl.
  - rewrite ingest_url_eq.
    destruct (List.find _ (jobs w)); [done|]. cbv zeta.
    by destruct (send_fault env _) as [[]|].
  - rewrite ingest_file_eq.
    destruct (negb _); [done|]. cbv zeta.
    destruct (unused_name _ _ _ _); [|done].
    destruct (List.find _ (jobs w)); [done|].
    by destruct (send_fault env _).
  - apply url_task_collection.
  - apply file_task_collection.
  - by destruct (query_logs env q w) as (_ & H & _).
Qed.

Lemma run_stored_under allowed op w :
  In (py "source_url") allowed ->
  In (py "source_file") allowed \/ is_file_task op = false ->
  stored_under allowed (collection w) ->
  stored_under allowed (collection (run env op w)).
Proof.
  intros Hu Hf Hc. rewrite run_collection.
  destruct op as [new_id u|new_id candidates file|id target
                 |id path ctype|q]; try done.
  - destruct (lookup_job id w); [|done].
    by apply url_task_effect_stored_under.
  - destruct Hf as [Hf|Hf]; [|done].
    destruct (lookup_job id w); [|done].
    by apply file_task_effect_stored_under.
Qed.

Lemma run_all_stored_under allowed ops w :
  In (py "source_url") allowed ->
  In (py "source_file") allowed
  \/ forallb (fun op => negb (is_file_task op)) ops = true ->
  stored_under allowed (collection w) ->
  stored_under allowed (collection (run_all env ops w)).
Proof.
  intros Hu. revert w. induction ops as [|op ops IH]; intros w Hf Hc;
    [done|].
  simpl. apply IH.
  - destruct Hf as [Hf|Hf]; [by left|]. right. simpl in Hf.
    by apply andb_prop in Hf as [_ Hf].
  - apply run_stored_under; [done| |done].
    destruct Hf as [Hf|Hf]; [by left|]. right. simpl in Hf.
    apply andb_prop in Hf as [Hf _]. by destruct (is_file_task op).
Qed.

Lemma stored_under_empty allowed : stored_under allowed (collection empty_world).
Proof. intros id e H. simpl in H. by rewrite lookup_empty in H. Qed.

End Stored.

(** X19. Whatever is called, in whatever order, starting from nothing:
    every entry of the collection sits under an id ["{source}_{i}"], has
    for metadata exactly that source under ["source_url"] or under
    ["source_file"], and holds a chunk that is not empty, has no
    whitespace at either end and has at most 1000 characters. *)
Theorem stored_chunks_are_well_formed (env : Env) (ops : list operation) :
  stored_under [py "source_url"; py "source_file"]
    (collection (run_all env ops empty_world)).
Proof.
  apply run_all_stored_under.
  - by left.
  - left. right. by left.
  - apply stored_under_empty.
Qed.

(** X20. A task writes under the ids of its own source only: the entry
    under ["{source}_{i}"] for any other source is after the task what it
    was before, also when one source name is a prefix of the other. For
    the URL task the source is the URL it is called with, for the file
    task the key of the job's row. *)
Theorem tasks_write_only_their_source
    (env : Env) (id target path ctype : str) (w : world) (source : str)
    (i : nat) :
  source <> target ->
  (forall job, lookup_job id w = Some job -> source <> url job) ->
  collection (run env (UrlTask id target) w) !! chunk_id source i
  = collection w !! chunk_id source i
  /\ collection (run env (FileTask id path ctype) w) !! chunk_id source i
     = collection w !! chunk_id source i.
Proof.
  intros Hu Hf. rewrite !run_collection.
  destruct (lookup_job id w) as [job|]; [|done]. split.
  - unfold url_task_effect. destruct (get_text env target); [|done].
    destruct (nonempty _); [|done]. destruct (chunk_text _); [|done].
    by apply store_effect_other.
  - unfold file_task_effect. destruct (rbind _ _); [|done].
    apply store_effect_other. by apply Hf.
Qed.

Lemma tasks_write_only_their_source_witness :
  collection
    (run (sample_env (Ok []))
       (UrlTask (py "job-1") (py "https://example.com/a")) url_done_world)
  !! chunk_id (py "https://example.com/a_1") 0
  = collection url_done_world !! chunk_id (py "https://example.com/a_1") 0
  /\ collection
       (run (sample_env (Ok []))
          (FileTask (py "job-1") sample_pdf_path application_pdf)
          url_done_world)
     !! chunk_id (py "https://example.com/a_1") 0
     = collection url_done_world !! chunk_id (py "https://example.com/a_1") 0.
Proof.
  apply (tasks_write_only_their_source (sample_env (Ok [])) (py "job-1")
           (py "https://example.com/a") sample_pdf_path application_pdf
           url_done_world (py "https://example.com/a_1") 0).
  - intros H. vm_compute in H. congruence.
  - intros job H. vm_compute in H. injection H as <-.
    intros H. vm_compute in H. congruence.
Defined.

(** ** The query pipeline, further *)

Section QueryFurther.

Context (env : Env).
Implicit Types (w : world) (q : str).

Lemma with_log_twice evs1 evs2 w :
  with_log (fun l => l ++ evs2) (with_log (fun l => l ++ evs1) w)
  = with_log (fun l => l ++ evs1 ++ evs2) w.
Proof. unfold with_log. simpl. by rewrite <- app_assoc. Qed.

Lemma retrieve_in text n c e :
  In e (retrieve env text n c) -> exists id, c !! id = Some e.
Proof.
  unfold retrieve. intros H. apply list_elem_of_In in H.
  apply elem_of_take in H as (k & H & _).
  apply list_elem_of_lookup_2, list_elem_of_omap in H as (id & _ & H).
  by exists id.
Qed.

Lemma retrieve_length text n c : length (retrieve env text n c) <= n.
Proof. unfold retrieve. rewrite length_take. lia. Qed.

(** What a query adds to the log, by what the store answers. *)
Lemma query_world q w :
  exists calls,
    snd (query env q w) = with_log (fun l => l ++ calls) w
    /\ match fst (collection_query env (improved_query env q) 3 w) with
       | Ok (e :: es) =>
           calls
           = [Completion enrich_model (enrich_prompt q);
              CollectionQuery (improved_query env q);
              Completion answer_model
                (answer_prompt
                   (join (nl ++ py "---" ++ nl)
                      (List.map document (e :: es)))
                   (improved_query env q))]
       | Ok [] | Raise _ =>
           calls
           = [Completion enrich_model (enrich_prompt q);
              CollectionQuery (improved_query env q)]
       end.
Proof.
  rewrite query_eq. cbn [snd].
  rewrite query_rag_engine_eq, collection_query_eq. cbv zeta. cbn [fst].
  destruct (query_fault env _); [eexists; split; reflexivity|].
  destruct (retrieve env (improved_query env q) 3 (collection w))
    as [|e es]; [eexists; split; reflexivity|].
  eexists. split; [|reflexivity].
  change (List.map document (e :: es))
    with (document e :: List.map document es).
  cbv iota.
  destruct (chat_completion env _); cbn [snd];
    rewrite (with_log_twice [_; _] [_]); reflexivity.
Qed.

Lemma source_urls_length (metadatas : list (gmap str str)) :
  length (source_urls metadatas) <= length metadatas.
Proof.
  destruct (source_urls_spec metadatas) as [Hnd Hin].
  rewrite <- (List.length_map
                (fun meta : gmap str str =>
                   default [] (meta !! py "source_url")) metadatas).
  apply List.NoDup_incl_length.
  - by apply NoDup_ListNoDup.
  - intros s Hs. apply Hin in Hs as (meta & Hm & <-).
    apply List.in_map_iff. by exists meta.
Qed.

(** What an answered query hands back as sources. *)
Lemma query_sources q w resp :
  fst (query env q w) = Ok resp ->
  NoDup (response_sources resp)
  /\ length (response_sources resp) <= 3
  /\ forall s,
       In s (response_sources resp) ->
       exists id e,
         collection w !! id = Some e
         /\ default [] (metadata e !! py "source_url") = s.
Proof.
  rewrite query_eq. cbn [fst]. rewrite query_rag_engine_eq. cbv zeta.
  destruct (query_fault env _); [done|].
  set (results := retrieve env (improved_query env q) 3 (collection w)).
  assert (Hnone : forall answer0 : str,
             NoDup ([] : list str) /\ length ([] : list str) <= 3
             /\ forall s, In s [] ->
                  exists id e,
                    collection w !! id = Some e
                    /\ default [] (metadata e !! py "source_url") = s).
  { intros _. split; [constructor|]. split; [simpl; lia|]. by intros s []. }
  destruct (List.map document results) eqn:Hdocs; cbn [fst].
  { intros [= <-]. simpl. by apply Hnone. }
  destruct (chat_completion env _); cbn [fst]; [|done].
  intros [= <-]. simpl.
  destruct (source_urls_spec (List.map metadata results)) as [Hnd Hin].
  split; [done|]. split.
  - etrans; [apply source_urls_length|].
    rewrite List.length_map. apply retrieve_length.
  - intros s (meta & Hm & Hs)%Hin.
    apply List.in_map_iff in Hm as (e & <- & He).
    apply retrieve_in in He as (id & He). by exists id, e.
Qed.

End QueryFurther.

(** X21. A query changes nothing but the log of calls: the job table, the
    collection, the files and the queue are as before. The calls are the
    enrichment model and then the store with the improved query; the
    answering model is called after them exactly when the store answered
    with at least one chunk, once, with the prompt made of those chunks
    and the improved query. When the store fails or returns nothing the
    answering model is not called. *)
Theorem query_only_reads (env : Env) (q : str) (w : world) :
  exists calls,
    snd (query env q w) = with_log (fun l => l ++ calls) w
    /\ match fst (collection_query env (improved_query env q) 3 w) with
       | Ok (e :: es) =>
           calls
           = [Completion enrich_model (enrich_prompt q);
              CollectionQuery (improved_query env q);
              Completion answer_model
                (answer_prompt
                   (join (nl ++ py "---" ++ nl)
                      (List.map document (e :: es)))
                   (improved_query env q))]
       | Ok [] | Raise _ =>
           calls
           = [Completion enrich_model (enrich_prompt q);
              CollectionQuery (improved_query env q)]
       end.
Proof. apply query_world. Qed.

(** X22. A failure of the enrichment call does not fail the query: the
    store is then asked with the raw query, which is also what the result
    reports as the enriched query; and the exception of the enrichment
    call is not what [query_rag_engine] raises, unless the store or the
    answering model raise the same. *)
Theorem enrichment_failure_falls_back
    (env : Env) (q : str) (w : world) (e : exn) :
  enrich_completion env (enrich_prompt q) = Raise e ->
  (exists rest,
     log (snd (query_rag_engine env q w))
     = log w ++ Completion enrich_model (enrich_prompt q)
             :: CollectionQuery q :: rest)
  /\ (forall r, fst (query_rag_engine env q w) = Ok r -> enriched_query r = q)
  /\ (forall e', fst (query_rag_engine env q w) = Raise e' ->
        query_fault env q = Some e'
        \/ exists prompt, chat_completion env prompt = Raise e').
Proof.
  intros He. rewrite query_rag_engine_eq. unfold improved_query.
  rewrite He. cbv zeta.
  destruct (query_fault env q).
  { split; [by exists []|]. split; [done|]. intros e' [= <-]. by left. }
  destruct (List.map document _).
  { split; [by exists []|]. split; [by intros r [= <-]|done]. }
  destruct (chat_completion env _) eqn:Hchat; cbn [fst snd].
  - split; [eexists [_]; simpl; by rewrite <- app_assoc|].
    split; [by intros r [= <-]|done].
  - split; [eexists [_]; simpl; by rewrite <- app_assoc|].
    split; [done|]. intros e' [= <-]. right. by eexists.
Qed.

Lemma enrichment_failure_falls_back_witness :
  (exists rest,
     log (snd (query_rag_engine (sample_env (Ok [])) (py "What is it?")
                 url_done_world))
     = log url_done_world
       ++ Completion enrich_model (enrich_prompt (py "What is it?"))
          :: CollectionQuery (py "What is it?") :: rest)
  /\ (forall r,
        fst (query_rag_engine (sample_env (Ok [])) (py "What is it?")
               url_done_world) = Ok r ->
        enriched_query r = py "What is it?")
  /\ (forall e',
        fst (query_rag_engine (sample_env (Ok [])) (py "What is it?")
               url_done_world) = Raise e' ->
        query_fault (sample_env (Ok [])) (py "What is it?") = Some e'
        \/ exists prompt,
             chat_completion (sample_env (Ok [])) prompt = Raise e').
Proof.
  apply (enrichment_failure_falls_back (sample_env (Ok []))
           (py "What is it?") url_done_world (ExternalError (py "timeout"))).
  reflexivity.
Defined.

(** X23. The query endpoint raises nothing but a 500 whose detail is the
    fixed prefix followed by the text of the cause, and the cause is a
    failure of the store query or of the answering model. *)
Theorem query_failure_is_a_500
    (env : Env) (q : str) (w : world) (e : exn) :
  fst (query env q w) = Raise e ->
  exists cause,
    e = HTTPException 500
          (py "An error occurred during the query process: "
           ++ exn_str cause)
    /\ (query_fault env (improved_query env q) = Some cause
        \/ exists prompt,
             chat_completion env prompt = Raise cause
             /\ In (Completion answer_model prompt)
                  (log (snd (query env q w)))).
Proof.
  rewrite !query_eq. cbn [fst snd]. rewrite query_rag_engine_eq. cbv zeta.
  destruct (query_fault env _) as [cause|].
  { intros [= <-]. exists cause. split; [done|by left]. }
  destruct (List.map document _); [done|].
  destruct (chat_completion env _) as [|cause] eqn:Hchat; [done|].
  cbn [fst snd]. intros [= <-]. exists cause. split; [done|]. right.
  eexists. split; [exact Hchat|]. simpl. apply in_or_app. right. by left.
Qed.

Lemma query_failure_is_a_500_witness :
  exists cause,
    HTTPException 500
      (py "An error occurred during the query process: connection refused")
    = HTTPException 500
        (py "An error occurred during the query process: "
         ++ exn_str cause)
    /\ (query_fault store_down_env
          (improved_query store_down_env (py "What is it?")) = Some cause
        \/ exists prompt,
             chat_completion store_down_env prompt = Raise cause
             /\ In (Completion answer_model prompt)
                  (log (snd (query store_down_env (py "What is it?")
                               empty_world)))).
Proof.
  apply (query_failure_is_a_500 store_down_env (py "What is it?")
           empty_world).
  reflexivity.
Defined.

(** X24. The sources of an answered query have no duplicates, are at most
    three, and each is the value some entry of the collection has under
    ["source_url"], or the empty string for an entry without that key. *)
Theorem query_sources_come_from_entries
    (env : Env) (q : str) (w : world) (resp : QueryResponse) :
  fst (query env q w) = Ok resp ->
  NoDup (response_sources resp)
  /\ length (response_sources resp) <= 3
  /\ forall s,
       In s (response_sources resp) ->
       exists id e,
         collection w !! id = Some e
         /\ default [] (metadata e !! py "source_url") = s.
Proof. apply query_sources. Qed.

Lemma query_sources_come_from_entries_witness :
  NoDup [py "https://example.com/a"]
  /\ length [py "https://example.com/a"] <= 3
  /\ forall s,
       In s [py "https://example.com/a"] ->
       exists id e,
         collection url_done_world !! id = Some e
         /\ default [] (metadata e !! py "source_url") = s.
Proof.
  apply (query_sources_come_from_entries (sample_env (Ok []))
           (py "What is it?") url_done_world
           {| response_answer := py "An answer";
              response_sources := [py "https://example.com/a"] |}).
  vm_compute. reflexivity.
Defined.

(** X25. As long as no file task has run, every source of an answered
    query is a URL that has a chunk in the collection, stored under
    ["{url}_{i}"] and attributed to that URL. *)
Theorem url_only_sources_are_stored
    (env : Env) (ops : list operation) (q : str) (resp : QueryResponse) :
  forallb (fun op => negb (is_file_task op)) ops = true ->
  fst (query env q (run_all env ops empty_world)) = Ok resp ->
  forall s,
    In s (response_sources resp) ->
    exists i e,
      collection (run_all env ops empty_world) !! chunk_id s i = Some e
      /\ metadata e = {[ py "source_url" := s ]}.
Proof.
  intros Hops Hq s Hs.
  destruct (query_sources env q _ resp Hq) as (_ & _ & Hin).
  destruct (Hin s Hs) as (id & e & He & Hmeta).
  destruct (run_all_stored_under env [py "source_url"] ops empty_world)
    with (id := id) (e := e)
    as (source & i & key & -> & [<-|[]] & Hm & _).
  - by left.
  - by right.
  - apply stored_under_empty.
  - exact He.
  - rewrite Hm, lookup_singleton in Hmeta. simpl in Hmeta. subst s.
    by exists i, e.
Qed.

Lemma url_only_sources_are_stored_witness :
  exists i e,
    collection
      (run_all (sample_env (Ok []))
         [IngestUrl (py "job-1") sample_url;
          UrlTask (py "job-1") (py "https://example.com/a")] empty_world)
    !! chunk_id (py "https://example.com/a") i = Some e
    /\ metadata e = {[ py "source_url" := py "https://example.com/a" ]}.
Proof.
  apply (url_only_sources_are_stored (sample_env (Ok []))
           [IngestUrl (py "job-1") sample_url;
            UrlTask (py "job-1") (py "https://example.com/a")]
           (py "What is it?")
           {| response_answer := py "An answer";
              response_sources := [py "https://example.com/a"] |}).
  - reflexivity.
  - vm_compute. reflexivity.
  - by left.
Defined.

(** ** File extraction *)

(** X26. For a file that is there, what [fetch_and_clean_file] gives
    follows the reader of the content type it is called with, whatever the
    other reader would make of the bytes. When the reader answers, the
    text has the visible characters of what it gave, in the same order,
    nothing lost and nothing added: for a PDF those of the page texts one
    after the other (a page without text gives none, and nothing separates
    two pages), for a DOCX those of its paragraphs. When the reader
    raises, that exception leaves the function. *)
Theorem file_text_keeps_visible
    (env : Env) (path : str) (w : world) (content : bytes) :
  files w !! path = Some content ->
  match pdf_pages env content with
  | Ok pages =>
      exists text,
        fst (fetch_and_clean_file env path application_pdf w) = Ok text
        /\ visible text
           = visible (concat (List.map (fun page => default [] page) pages))
  | Raise e => fst (fetch_and_clean_file env path application_pdf w) = Raise e
  end
  /\ match docx_paragraphs env content with
     | Ok paragraphs =>
         exists text,
           fst (fetch_and_clean_file env path application_docx w) = Ok text
           /\ visible text = visible (concat paragraphs)
     | Raise e =>
         fst (fetch_and_clean_file env path application_docx w) = Raise e
     end.
Proof.
  intros Hfile. split.
  - rewrite fetch_and_clean_file_pdf, Hfile.
    destruct (pdf_pages env content) as [pages|e]; simpl; [|done].
    eexists. split; [reflexivity|]. apply visible_clean_whitespace.
  - unfold fetch_and_clean_file, bind.
    change (str_eqb application_docx application_pdf) with false.
    rewrite str_eqb_refl, extract_text_from_docx_eq, Hfile.
    destruct (docx_paragraphs env content) as [paragraphs|e]; simpl; [|done].
    eexists. split; [reflexivity|].
    rewrite visible_clean_whitespace. by apply visible_join.
Qed.

Lemma file_text_keeps_visible_witness :
  (exists text,
     fst (fetch_and_clean_file pdf_only_env sample_pdf_path application_pdf
            pdf_world) = Ok text
     /\ visible text = py "Pageonetwo")
  /\ fst (fetch_and_clean_file pdf_only_env sample_pdf_path application_docx
            pdf_world)
     = Raise (ExternalError (py "File is not a zip file")).
Proof.
  apply (file_text_keeps_visible pdf_only_env sample_pdf_path pdf_world
           (file_content sample_pdf)).
  reflexivity.
Defined.
